(** * Topic tickets of the discovery protocol: p2p/discover/ticket.go

    A shallow embedding of the ticket store (ticket construction, the
    per-topic radius controller, the time-bucketed schedule with its
    NodeID index, and the global minimum-radius estimator), followed by
    the properties established about it.

    Conventions.
    - [uint64], [uint32] and [int64] values are integers of [Z]; every
      operation that can leave the range writes its wrap-around out.
    - [float64] values are IEEE 754 binary64 numbers in the executable
      specification of the Standard Library ([spec_float] with precision
      53 and maximal exponent 1024); every operation is rounded to
      nearest-even, one operation at a time (no fused multiply-add).
    - A [*ticket] is an address into a heap of tickets, so that the
      NodeID index and the ticket references in the time buckets alias
      the same mutable [refCnt].
    - A panic (nil dereference, index out of range, failed type
      assertion, invalid argument) is the result [None]. *)

From Stdlib Require Import ZArith Lia Bool.
From Stdlib Require Import SpecFloat.
From stdpp Require Import gmap strings list.

Local Open Scope Z_scope.

(** ** Machine integers *)

Definition u64 (z : Z) : Z := z mod 2 ^ 64.
Definition u32 (z : Z) : Z := z mod 2 ^ 32.

(** [int64(x)] for a [uint64] value [x]: the same bits read as two's
    complement. *)
Definition int64_of_u64 (z : Z) : Z :=
  if z <? 2 ^ 63 then z else z - 2 ^ 64.

(** ** Constants of the package *)

Definition Second : Z := 1000000000.
Definition Minute : Z := 60 * Second.

Definition ticketGroupTime : Z := Minute.
Definition timeWindow : Z := 30.
Definition keepTicketConst : Z := Minute * 20.
Definition keepTicketExp : Z := Minute * 20.
Definition maxRadius : Z := 0xffffffffffffffff.
Definition minRadAverage : Z := 1024.
Definition targetWaitTime : Z := Minute * 10.

(** ** Identifiers

    A [Topic] is a Go string.  A [NodeID] is a fixed array of 64 bytes,
    read here as the 512-bit big-endian number it spells; its leading
    eight bytes are the only part the ticket store computes with. *)

Abbreviation Topic := string (only parsing).
Abbreviation NodeID := Z (only parsing).

Definition NodeIDBits : Z := 512.

(** [binary.BigEndian.Uint64(id[0:8])] *)
Definition idPrefix (id : NodeID) : Z :=
  u64 (Z.shiftr id (NodeIDBits - 64)).

(** ** What the package takes from elsewhere

    [crypto.Keccak256Hash], [rlpHash] and the result of a float to
    [uint64] conversion whose operand is out of range (left to the
    implementation by the language) are not defined in ticket.go. *)

Class GoEnv := {
  (** the leading 64 bits of [crypto.Keccak256Hash([]byte(t))] *)
  Keccak256Prefix : Topic → Z;
  (** [rlpHash(topics)], a 256-bit hash *)
  rlpHash : list Topic → Z;
  (** [uint64(f)] when [f] is not in the range of [uint64] *)
  uint64_out_of_range : spec_float → Z
}.

(** ** binary64 arithmetic *)

Module F64.

Definition prec : Z := 53.
Definition emax : Z := 1024.

Definition add : spec_float → spec_float → spec_float := SFadd prec emax.
Definition sub : spec_float → spec_float → spec_float := SFsub prec emax.
Definition mul : spec_float → spec_float → spec_float := SFmul prec emax.
Definition div : spec_float → spec_float → spec_float := SFdiv prec emax.

Definition ltb : spec_float → spec_float → bool := SFltb.
Definition leb : spec_float → spec_float → bool := SFleb.
Definition gtb (x y : spec_float) : bool := SFltb y x.
Definition geb (x y : spec_float) : bool := SFleb y x.

(** [float64(z)] for an integer [z]: the nearest binary64 number. *)
Definition of_Z (z : Z) : spec_float := binary_normalize prec emax z 0 false.

(** The integer part of a finite number, towards zero, as a magnitude. *)
Definition trunc_mag (m : positive) (e : Z) : Z :=
  match e with
  | Zneg k => Z.shiftr (Zpos m) (Zpos k)
  | _ => Z.shiftl (Zpos m) e
  end.

(** [uint64(f)]: truncation towards zero when the result fits. *)
Definition to_uint64 `{GoEnv} (f : spec_float) : Z :=
  match f with
  | S754_zero _ => 0
  | S754_finite false m e =>
      let v := trunc_mag m e in
      if v <? 2 ^ 64 then v else u64 (uint64_out_of_range f)
  | S754_finite true m e =>
      if trunc_mag m e =? 0 then 0 else u64 (uint64_out_of_range f)
  | _ => u64 (uint64_out_of_range f)
  end.

(** The constants [0.01], [0.1] and [0.05] of the source, each the
    binary64 number nearest to the decimal. *)
Definition c0_01 : spec_float := S754_finite false 5764607523034235 (-59).
Definition c0_1 : spec_float := S754_finite false 7205759403792794 (-56).
Definition c0_05 : spec_float := S754_finite false 7205759403792794 (-57).

Definition one : spec_float := Eval vm_compute in of_Z 1.
Definition two : spec_float := Eval vm_compute in of_Z 2.
Definition minus_one : spec_float := Eval vm_compute in of_Z (-1).
Definition ten : spec_float := Eval vm_compute in of_Z 10.

End F64.

Arguments F64.add : simpl never.
Arguments F64.sub : simpl never.
Arguments F64.mul : simpl never.
Arguments F64.div : simpl never.
Arguments F64.ltb : simpl never.
Arguments F64.leb : simpl never.
Arguments F64.gtb : simpl never.
Arguments F64.geb : simpl never.
Arguments F64.of_Z : simpl never.
Arguments F64.to_uint64 : simpl never.

(** ** Tickets *)

(** Only the ID of the registrar node is used by the ticket store. *)
Record Node := { ID : NodeID }.

Record ticket := {
  tk_topics : list Topic;
  tk_regTime : list Z;      (* per-topic local absolute time *)
  tk_serial : Z;            (* uint32 *)
  tk_issueTime : Z;         (* uint64 *)
  tk_node : Node;
  tk_refCnt : Z;            (* int; far from its bounds: it counts slots of one ticket *)
  tk_pong : list Z          (* the raw packet bytes *)
}.

(** The fields of the pong packet that ticket.go reads and writes. *)
Record pong := {
  Expiration : Z;           (* uint64 *)
  TopicHash : Z;            (* common.Hash *)
  TicketSerial : Z;         (* uint32 *)
  WaitPeriods : list Z      (* []uint32 *)
}.

(** The decoded payload of an incoming packet, an interface value. *)
Inductive packet :=
  | PongPacket (p : pong)
  | OtherPacket.

Record ingressPacket := {
  data : packet;
  rawData : list Z
}.

(** [pongToTicket]: the type assertion of [p.data] to a pong pointer
    panics on any other payload. *)
Definition pongToTicket (localTime : Z) (topics : list Topic) (node : Node)
    (p : ingressPacket) : option ticket :=
  match data p with
  | PongPacket pg =>
      let wps := WaitPeriods pg in
      Some {| tk_topics := topics;
              tk_regTime := (λ wp, u64 (localTime + u64 (u64 wp * Second))) <$> wps;
              tk_serial := 0;
              tk_issueTime := localTime;
              tk_node := node;
              tk_refCnt := 0;
              tk_pong := rawData p |}
  | OtherPacket => None
  end.

(** [uint64(time.Duration(x) / time.Second)]: the division is the signed
    one of [int64]. *)
Definition durationSeconds (x : Z) : Z := Z.quot (int64_of_u64 x) Second.

Definition ticketToPong `{GoEnv} (t : ticket) (pg : pong) : pong :=
  {| Expiration := u64 (durationSeconds (tk_issueTime t));
     TopicHash := rlpHash (tk_topics t);
     TicketSerial := tk_serial t;
     WaitPeriods := (λ regTime, u32 (durationSeconds regTime)) <$> tk_regTime t |}.

(** ** The ticket store *)

(** A [*ticket]: an address in the heap of tickets. *)
Abbreviation ptr := nat (only parsing).

Record ticketRef := {
  ref_t : ptr;
  ref_idx : nat
}.

Record topicTickets := {
  tt_topic : Topic;
  tt_topicHashPrefix : Z;                       (* uint64 *)
  tt_radius : Z;                                (* uint64 *)
  tt_filteredRadius : spec_float;
  tt_converged : bool;
  (* [None] is the nil map of a topic that is not being registered *)
  tt_time : option (gmap Z (list ticketRef))
}.

Record ticketStore := {
  s_topics : gmap Topic topicTickets;
  s_nodes : gmap NodeID ptr;
  s_lastGroupFetched : Z;                       (* uint64 *)
  s_minRadSum : spec_float;
  s_minRadCnt : Z;                              (* uint64 *)
  s_minRadius : Z                               (* uint64 *)
}.

(** The heap of tickets and the one store that refers into it. *)
Abbreviation world := (list ticket * ticketStore)%type (only parsing).

Definition set_refCnt (c : Z) (t : ticket) : ticket :=
  {| tk_topics := tk_topics t; tk_regTime := tk_regTime t; tk_serial := tk_serial t;
     tk_issueTime := tk_issueTime t; tk_node := tk_node t; tk_refCnt := c;
     tk_pong := tk_pong t |}.

Definition set_time (tm : option (gmap Z (list ticketRef))) (r : topicTickets) : topicTickets :=
  {| tt_topic := tt_topic r; tt_topicHashPrefix := tt_topicHashPrefix r;
     tt_radius := tt_radius r; tt_filteredRadius := tt_filteredRadius r;
     tt_converged := tt_converged r; tt_time := tm |}.

Definition set_topics (ts : gmap Topic topicTickets) (s : ticketStore) : ticketStore :=
  {| s_topics := ts; s_nodes := s_nodes s; s_lastGroupFetched := s_lastGroupFetched s;
     s_minRadSum := s_minRadSum s; s_minRadCnt := s_minRadCnt s;
     s_minRadius := s_minRadius s |}.

Definition set_nodes (ns : gmap NodeID ptr) (s : ticketStore) : ticketStore :=
  {| s_topics := s_topics s; s_nodes := ns; s_lastGroupFetched := s_lastGroupFetched s;
     s_minRadSum := s_minRadSum s; s_minRadCnt := s_minRadCnt s;
     s_minRadius := s_minRadius s |}.

Definition set_lastGroupFetched (g : Z) (s : ticketStore) : ticketStore :=
  {| s_topics := s_topics s; s_nodes := s_nodes s; s_lastGroupFetched := g;
     s_minRadSum := s_minRadSum s; s_minRadCnt := s_minRadCnt s;
     s_minRadius := s_minRadius s |}.

Definition newTicketStore : ticketStore :=
  {| s_topics := ∅; s_nodes := ∅; s_lastGroupFetched := 0;
     s_minRadSum := S754_zero false; s_minRadCnt := 0; s_minRadius := 0 |}.

Definition newtopicTickets `{GoEnv} (t : Topic) (register : bool) : topicTickets :=
  {| tt_topic := t;
     tt_topicHashPrefix := u64 (Keccak256Prefix t);
     tt_radius := maxRadius;
     tt_filteredRadius := F64.of_Z maxRadius;
     tt_converged := false;
     tt_time := if register then Some ∅ else None |}.

Definition addTopic `{GoEnv} (t : Topic) (register : bool) (s : ticketStore) : ticketStore :=
  match s_topics s !! t with
  | None => set_topics (<[t := newtopicTickets t register]> (s_topics s)) s
  | Some _ => s
  end.

Definition isInRadius (r : topicTickets) (t : ticket) : bool :=
  let nodePrefix := idPrefix (ID (tk_node t)) in
  let dist := Z.lxor nodePrefix (tt_topicHashPrefix r) in
  dist <? tt_radius r.

(** [topicTickets.nextTarget]: [rand.Int63n(n)] panics unless [0 < n] and
    returns a number of [[0, n)], here the draw [r63] reduced into that
    range.  The result is the 32-byte hash whose leading eight bytes
    spell [prefix], as a 256-bit number. *)
Definition tt_nextTarget (r63 : Z) (r : topicTickets) : option Z :=
  let n := tt_radius r / 2 in
  if 0 <? n then
    let rnd := u64 ((r63 mod n) * 2) in
    let prefix := Z.lxor (tt_topicHashPrefix r) rnd in
    Some (Z.shiftl prefix 192)
  else None.

(** The local variable [wait] of [adjust] and of [add]. *)
Definition waitOf (h : list ticket) (localTime : Z) (t : ticketRef) : option Z :=
  tk ← h !! ref_t t;
  regTime ← tk_regTime tk !! ref_idx t;
  Some (u64 (regTime - localTime)).

(** The local variable [adjust] of [adjust], once clamped and scaled. *)
Definition adjustFactor (converged : bool) (wait : Z) : spec_float :=
  let adjust :=
    F64.mul (F64.sub (F64.div (F64.of_Z wait) (F64.of_Z targetWaitTime)) F64.one) F64.two in
  let adjust := if F64.gtb adjust F64.one then F64.one else adjust in
  let adjust := if F64.ltb adjust F64.minus_one then F64.minus_one else adjust in
  if converged then F64.mul adjust F64.c0_01 else F64.mul adjust F64.c0_1.

(** The float [radius] of [adjust] as first computed. *)
Definition proposedRadius (r : topicTickets) (wait : Z) : spec_float :=
  F64.mul (F64.of_Z (tt_radius r)) (F64.add F64.one (adjustFactor (tt_converged r) wait)).

Definition adjustWith `{GoEnv} (wait minRadius : Z) (r : topicTickets) : topicTickets :=
  let radius := proposedRadius r wait in
  let '(r_radius, radius) :=
    if F64.gtb radius (F64.of_Z maxRadius) then
      (maxRadius, F64.of_Z maxRadius)
    else
      let r_radius := F64.to_uint64 radius in
      (if r_radius <? minRadius then minRadius else r_radius, radius) in
  let '(converged, filteredRadius) :=
    if negb (tt_converged r) then
      if F64.geb radius (tt_filteredRadius r) then
        (true, tt_filteredRadius r)
      else
        (tt_converged r,
         F64.add (tt_filteredRadius r)
                 (F64.mul (F64.sub radius (tt_filteredRadius r)) F64.c0_05))
    else (tt_converged r, tt_filteredRadius r) in
  {| tt_topic := tt_topic r; tt_topicHashPrefix := tt_topicHashPrefix r;
     tt_radius := r_radius; tt_filteredRadius := filteredRadius;
     tt_converged := converged; tt_time := tt_time r |}.

Definition adjust `{GoEnv} (h : list ticket) (localTime : Z) (t : ticketRef)
    (minRadius : Z) (r : topicTickets) : option topicTickets :=
  wait ← waitOf h localTime t;
  Some (adjustWith wait minRadius r).

(** [ticketStore.nextTarget]: the method is called on the map entry, a
    nil pointer when the topic is not tracked. *)
Definition nextTarget (r63 : Z) (t : Topic) (s : ticketStore) : option Z :=
  r ← s_topics s !! t;
  tt_nextTarget r63 r.

(** [len(tt.time[g])]; reading a nil map or a missing key gives nil. *)
Definition bucket (r : topicTickets) (g : Z) : list ticketRef :=
  match tt_time r with
  | Some tm => default [] (tm !! g)
  | None => []
  end.

(** [ticketsInWindow], with the reading [now] of the clock. *)
Definition ticketsInWindow (now : Z) (t : Topic) (s : ticketStore) : option Z :=
  r ← s_topics s !! t;
  let ltGroup := now / ticketGroupTime in
  Some (foldl (λ sum g, sum + Z.of_nat (length (bucket r (u64 g)))) 0
              (seqZ ltGroup timeWindow)).

(** [nextRegisterableTicket] returns [nil, 0]. *)
Definition nextRegisterableTicket (s : ticketStore) : option ptr * Z := (None, 0).

(** The retention threshold of [add] for a draw [rnd] of
    [rand.ExpFloat64()]. *)
Definition keepThreshold (rnd : spec_float) : spec_float :=
  let rnd := if F64.gtb rnd F64.ten then F64.ten else rnd in
  F64.add (F64.of_Z keepTicketConst) (F64.mul (F64.of_Z keepTicketExp) rnd).

(** The body of the loop of [add] for slot [i] of the ticket at [p];
    [rnd] is the exponential variate drawn for this slot. *)
Definition add_slot `{GoEnv} (rnd : spec_float) (localTime : Z) (p : ptr)
    (i : nat) (topic : Topic) (w : world) : option world :=
  let '(h, s) := w in
  t ← h !! p;
  match s_topics s !! topic with
  | Some tts =>
      if isInRadius tts t then
        tts ← adjust h localTime {| ref_t := p; ref_idx := i |} (s_minRadius s) tts;
        if tt_converged tts then
          regTime ← tk_regTime t !! i;
          let wait := u64 (regTime - localTime) in
          match tt_time tts with
          | Some tm =>
              if F64.ltb (F64.of_Z wait) (keepThreshold rnd) then
                let tgroup := regTime / ticketGroupTime in
                let tm := <[tgroup := default [] (tm !! tgroup) ++ [{| ref_t := p; ref_idx := i |}]]> tm in
                let tts := set_time (Some tm) tts in
                Some (<[p := set_refCnt (tk_refCnt t + 1) t]> h,
                      set_topics (<[topic := tts]> (s_topics s)) s)
              else Some (h, set_topics (<[topic := tts]> (s_topics s)) s)
          | None => Some (h, set_topics (<[topic := tts]> (s_topics s)) s)
          end
        else Some (h, set_topics (<[topic := tts]> (s_topics s)) s)
      else Some w
  | None => Some w
  end.

Fixpoint add_loop `{GoEnv} (rnd : nat → spec_float) (localTime : Z) (p : ptr)
    (i : nat) (topics : list Topic) (w : world) : option world :=
  match topics with
  | [] => Some w
  | topic :: topics =>
      w ← add_slot (rnd i) localTime p i topic w;
      add_loop rnd localTime p (S i) topics w
  end.

(** [ticketStore.add]; [rnd i] is the variate drawn in iteration [i]. *)
Definition add `{GoEnv} (rnd : nat → spec_float) (localTime : Z) (p : ptr)
    (w : world) : option world :=
  let '(h, s) := w in
  t ← h !! p;
  match s_nodes s !! ID (tk_node t) with
  | Some _ => Some w
  | None =>
      let s :=
        if s_lastGroupFetched s =? 0
        then set_lastGroupFetched (localTime / ticketGroupTime) s else s in
      '(h, s) ← add_loop rnd localTime p 0 (tk_topics t) (h, s);
      t ← h !! p;
      if 0 <? tk_refCnt t
      then Some (h, set_nodes (<[ID (tk_node t) := p]> (s_nodes s)) s)
      else Some (h, s)
  end.

(** What the scan of one bucket threads along: the backing array that
    the slice kept in the map and the local slice [list] share, the
    result, the heap and the NodeID index. *)
Abbreviation scan_state :=
  (list ticketRef * list ptr * list ticket * gmap NodeID ptr)%type (only parsing).

(** The inner loop of [fetch].  [len] is the length of the local slice
    [list], which starts at the head of [arr]; removing [list[i]] by
    [append(list[:i], list[i+1:]...)] moves the elements behind [i] one
    place down in [arr] and shortens [list] only.  Each iteration
    shortens [list] or advances [i], so [len - i] iterations end it. *)
Fixpoint fetch_scan (fuel : nat) (localTime : Z) (arr : list ticketRef)
    (len i : nat) (res : list ptr) (h : list ticket) (nodes : gmap NodeID ptr)
    : option scan_state :=
  match fuel with
  | O => Some (arr, res, h, nodes)
  | S fuel =>
      if (i <? len)%nat then
        t ← arr !! i;
        tk ← h !! ref_t t;
        regTime ← tk_regTime tk !! ref_idx t;
        if regTime <=? localTime then
          let arr := take i arr ++ drop (S i) (take len arr) ++ drop (len - 1) arr in
          let tk := set_refCnt (tk_refCnt tk - 1) tk in
          let h := <[ref_t t := tk]> h in
          let nodes :=
            if tk_refCnt tk =? 0 then delete (ID (tk_node tk)) nodes else nodes in
          fetch_scan fuel localTime arr (len - 1) i (res ++ [ref_t t]) h nodes
        else
          fetch_scan fuel localTime arr len (S i) res h nodes
      else Some (arr, res, h, nodes)
  end.

(** One iteration of the loop over [g] of [fetch] for the topic [tts]. *)
Definition fetch_group (localTime ltGroup : Z) (g : Z)
    (st : topicTickets * list ptr * list ticket * gmap NodeID ptr)
    : option (topicTickets * list ptr * list ticket * gmap NodeID ptr) :=
  let '(tts, res, h, nodes) := st in
  let list := bucket tts g in
  '(arr, res, h, nodes) ← fetch_scan (length list) localTime list (length list) 0 res h nodes;
  let tm :=
    match tt_time tts with
    | Some tm =>
        (* the slice in the map keeps its length and sees the moved elements *)
        let tm := match tm !! g with Some _ => <[g := arr]> tm | None => tm end in
        Some (if decide (g = ltGroup) then tm else delete g tm)
    | None => None
    end in
  Some (set_time tm tts, res, h, nodes).

Fixpoint fetch_groups (localTime ltGroup : Z) (gs : list Z)
    (st : topicTickets * list ptr * list ticket * gmap NodeID ptr)
    : option (topicTickets * list ptr * list ticket * gmap NodeID ptr) :=
  match gs with
  | [] => Some st
  | g :: gs =>
      st ← fetch_group localTime ltGroup g st;
      fetch_groups localTime ltGroup gs st
  end.

(** The loop of [fetch] over the topics, in the order [order] in which
    the range over the map happens to enumerate its keys. *)
Fixpoint fetch_topics (localTime ltGroup : Z) (order : list Topic)
    (res : list ptr) (w : world) : option (list ptr * world) :=
  match order with
  | [] => Some (res, w)
  | topic :: order =>
      let '(h, s) := w in
      match s_topics s !! topic with
      | Some tts =>
          let gs := seqZ (s_lastGroupFetched s) (ltGroup - s_lastGroupFetched s + 1) in
          '(tts, res, h, nodes) ← fetch_groups localTime ltGroup gs (tts, res, h, s_nodes s);
          fetch_topics localTime ltGroup order res
            (h, set_nodes nodes (set_topics (<[topic := tts]> (s_topics s)) s))
      | None => fetch_topics localTime ltGroup order res w
      end
  end.

(** [ticketStore.fetch] *)
Definition fetch (order : list Topic) (localTime : Z) (w : world)
    : option (list ptr * world) :=
  let ltGroup := localTime / ticketGroupTime in
  '(res, (h, s)) ← fetch_topics localTime ltGroup order [] w;
  Some (res, (h, set_lastGroupFetched ltGroup s)).

(** [getNodeTicket]: the ticket of the index, or nil ([None]). *)
Definition getNodeTicket (id : NodeID) (s : ticketStore) : option ptr :=
  s_nodes s !! id.

Definition adjustMinRadius `{GoEnv} (target found : NodeID) (s : ticketStore) : ticketStore :=
  let tp := idPrefix target in
  let fp := idPrefix found in
  let dist := Z.lxor tp fp in
  let mrAdjust := F64.mul (F64.of_Z dist) (F64.of_Z 16) in
  let mrAdjust :=
    if F64.gtb mrAdjust (F64.of_Z (maxRadius / 2)) then F64.of_Z (maxRadius / 2)
    else mrAdjust in
  let '(cnt, sum) :=
    if s_minRadCnt s <? minRadAverage then (u64 (s_minRadCnt s + 1), s_minRadSum s)
    else (s_minRadCnt s,
          F64.sub (s_minRadSum s) (F64.div (s_minRadSum s) (F64.of_Z minRadAverage))) in
  let sum := F64.add sum mrAdjust in
  {| s_topics := s_topics s; s_nodes := s_nodes s;
     s_lastGroupFetched := s_lastGroupFetched s;
     s_minRadSum := sum; s_minRadCnt := cnt;
     s_minRadius := F64.to_uint64 (F64.div sum (F64.of_Z cnt)) |}.

Arguments u64 : simpl never.
Arguments u32 : simpl never.
Arguments idPrefix : simpl never.
Arguments adjustFactor : simpl never.
Arguments proposedRadius : simpl never.
Arguments adjustWith : simpl never.
Arguments keepThreshold : simpl never.
Arguments isInRadius : simpl never.
Arguments adjustMinRadius : simpl never.
Arguments newtopicTickets : simpl never.
Arguments adjust : simpl never.
Arguments waitOf : simpl never.
Arguments add_slot : simpl never.
Arguments fetch_scan : simpl never.

(** ** Sequences of calls

    The calls a discovery loop makes on one store.  [pongToTicket]
    allocates the ticket that a later [add] is given by address. *)

Inductive op :=
  | OpAddTopic (t : Topic) (register : bool)
  | OpPongToTicket (localTime : Z) (topics : list Topic) (node : Node) (p : ingressPacket)
  | OpAdd (rnd : nat → spec_float) (localTime : Z) (t : ptr)
  | OpFetch (order : list Topic) (localTime : Z)
  | OpAdjustMinRadius (target found : NodeID).

Definition step `{GoEnv} (o : op) (w : world) : option world :=
  match o with
  | OpAddTopic t register => Some (w.1, addTopic t register w.2)
  | OpPongToTicket localTime topics node p =>
      t ← pongToTicket localTime topics node p;
      Some (w.1 ++ [t], w.2)
  | OpAdd rnd localTime p => add rnd localTime p w
  | OpFetch order localTime => snd <$> fetch order localTime w
  | OpAdjustMinRadius target found => Some (w.1, adjustMinRadius target found w.2)
  end.

Fixpoint run `{GoEnv} (ops : list op) (w : world) : option world :=
  match ops with
  | [] => Some w
  | o :: ops => w ← step o w; run ops w
  end.

Definition init : world := ([], newTicketStore).

(** The inputs the transport layer lets through: a pong payload with one
    wait period per topic, times and identifiers in the range of their
    types, and for [add] a ticket that [pongToTicket] made. *)
Definition valid_op (w : world) (o : op) : Prop :=
  match o with
  | OpPongToTicket localTime topics node p =>
      ∃ pg, data p = PongPacket pg ∧ length (WaitPeriods pg) = length topics
  | OpAdd rnd localTime p => (p < length w.1)%nat
  | _ => True
  end.

Fixpoint valid_ops `{GoEnv} (ops : list op) (w : world) : Prop :=
  match ops with
  | [] => True
  | o :: ops =>
      valid_op w o ∧
      match step o w with
      | Some w' => valid_ops ops w'
      | None => True
      end
  end.

(** ** An environment for the closed examples

    The examples below run with this environment.  The out-of-range
    conversion is the one of the amd64 code generator; the two hashes
    are stand-ins: the examples use one topic, whose hash enters only
    through the in-radius test. *)
Definition example_env : GoEnv :=
  {| Keccak256Prefix := λ _, 0xc5d2460186f7233c;
     rlpHash := λ _, 0;
     uint64_out_of_range := λ _, 0x8000000000000000 |}.

Definition pongPacket (wps : list Z) : ingressPacket :=
  {| data := PongPacket {| Expiration := 0; TopicHash := 0; TicketSerial := 0;
                           WaitPeriods := wps |};
     rawData := [] |}.

(** A constant stream of exponential variates. *)
Definition rnd_one : nat → spec_float := λ _, F64.one.

(** One topic under registration and one ticket of node 1, received at
    minute 10 with a wait of 900 s and added at once. *)
Definition scenario_once (localTime : Z) : list op :=
  [ OpAddTopic "t" true;
    OpPongToTicket localTime ["t"%string] (Build_Node 1) (pongPacket [900]);
    OpAdd rnd_one localTime 0%nat ].

Definition example_world : world :=
  default init (@run example_env (scenario_once 600000000000) init).

(** The buckets of a topic after a run, as (index, references) pairs. *)
Definition buckets_of (t : Topic) (w : world) : list (Z * list ticketRef) :=
  match s_topics w.2 !! t with
  | Some r => from_option map_to_list [] (tt_time r)
  | None => []
  end.

Definition refCnt_of (p : ptr) (w : world) : option Z := tk_refCnt <$> w.1 !! p.

(** * Properties *)

(** ** The binary64 constants *)

Example c0_1_nearest : F64.div (F64.of_Z 1) (F64.of_Z 10) = F64.c0_1.
Proof. vm_compute. reflexivity. Qed.

Example c0_01_nearest : F64.div (F64.of_Z 1) (F64.of_Z 100) = F64.c0_01.
Proof. vm_compute. reflexivity. Qed.

Example c0_05_nearest : F64.div (F64.of_Z 1) (F64.of_Z 20) = F64.c0_05.
Proof. vm_compute. reflexivity. Qed.

(** [float64(maxRadius)] is 2^64: the constant is not representable and
    rounds up. *)
Example float64_maxRadius : F64.of_Z maxRadius = S754_finite false (2 ^ 52) 12.
Proof. vm_compute. reflexivity. Qed.

(** ** Ticket construction *)

Section Conversion.
Context `{GoEnv}.

(** What [ticketToPong] makes of the ticket of a pong: each wait
    period comes back as the absolute registration time in seconds. *)
Lemma ticketToPong_pongToTicket localTime topics node p pg t pg0 :
  data p = PongPacket pg →
  pongToTicket localTime topics node p = Some t →
  WaitPeriods (ticketToPong t pg0) =
    (λ wp, u32 (durationSeconds (u64 (localTime + u64 (u64 wp * Second)))))
      <$> WaitPeriods pg.
Proof.
  intros Hd Ht. unfold pongToTicket in Ht. rewrite Hd in Ht.
  injection Ht as <-. cbn. rewrite <- list_fmap_compose. reflexivity.
Qed.

Lemma pongToTicket_regTime_length localTime topics node p pg t :
  data p = PongPacket pg →
  pongToTicket localTime topics node p = Some t →
  length (tk_regTime t) = length (WaitPeriods pg) ∧ tk_topics t = topics ∧
  tk_refCnt t = 0 ∧ tk_node t = node.
Proof.
  intros Hd Ht. unfold pongToTicket in Ht. rewrite Hd in Ht.
  injection Ht as <-. cbn. rewrite length_fmap. auto.
Qed.
End Conversion.

Section Examples.
#[local] Existing Instance example_env.

(** C3, at a failing input.  A pong with the one wait period of 3
    seconds, received at local time 5 s, gives a ticket whose
    registration time is 8 s; [ticketToPong] writes the wait period 8
    for it, not the 3 that arrived. *)
Theorem ticketToPong_loses_wait_period :
  (λ t, WaitPeriods (ticketToPong t (Build_pong 0 0 0 [])))
    <$> pongToTicket 5000000000 ["t"%string] (Build_Node 1) (pongPacket [3])
  = Some [8].
Proof. vm_compute. reflexivity. Qed.

(** C1, at a failing input.  The ticket is added at minute 10 and is
    due at minute 25.  The fetch at its registration time returns it,
    and so does the next fetch: the slice in the bucket of the current
    group still holds the reference, and the reference count of the
    ticket goes from 1 to 0 and on to -1. *)
Theorem fetch_returns_ticket_twice :
  (w1 ← run (scenario_once 600000000000) init;
   '(res1, w2) ← fetch ["t"%string] 1500000000000 w1;
   '(res2, w3) ← fetch ["t"%string] 1500000000000 w2;
   Some (buckets_of "t" w1, res1, refCnt_of 0%nat w2, res2, refCnt_of 0%nat w3))
  = Some ([(25, [Build_ticketRef 0%nat 0%nat])], [0%nat], Some 0, [0%nat], Some (-1)).
Proof. vm_compute. reflexivity. Qed.

(** C9, at a failing input.  A first [add] in the first minute of the
    clock leaves [lastGroupFetched] at 0, the value that also means
    "not set"; the [add] at minute 100 then sets it to 100.  The fetch
    at minute 100 scans from group 100 on, and the bucket 15 of the
    first ticket stays in the map (and its ticket, due since minute 15,
    is not returned). *)
Theorem fetch_leaves_old_bucket :
  (w1 ← run (scenario_once 0 ++
             [ OpPongToTicket 6000000000000 ["t"%string] (Build_Node 2) (pongPacket [900]);
               OpAdd rnd_one 6000000000000 1%nat ]) init;
   '(res, w2) ← fetch ["t"%string] 6000000000000 w1;
   Some (s_lastGroupFetched w1.2, res, buckets_of "t" w2,
         6000000000000 / ticketGroupTime))
  = Some (100, [], [(15, [Build_ticketRef 0%nat 0%nat]); (115, [Build_ticketRef 1%nat 0%nat])], 100).
Proof. vm_compute. reflexivity. Qed.

(** C6, where the claim fails: [nextTarget] and [ticketsInWindow] on a
    topic that is not tracked dereference a nil map entry. *)
Lemma nextTarget_untracked_panics :
  nextTarget 0 "t" newTicketStore = None ∧
  ticketsInWindow 0 "t" newTicketStore = None.
Proof. split; reflexivity. Qed.

(** C8, where the claim fails: one sample at the prefix distance
    2^53 + 1.  The conversion of the distance to float64 rounds it to
    2^53, and the minimum radius is 2^57, not 16 * (2^53 + 1). *)
Lemma adjustMinRadius_rounds :
  let d := 2 ^ 53 + 1 in
  16 * d <= maxRadius / 2 ∧
  idPrefix (Z.shiftl d 448) = d ∧ idPrefix 0 = 0 ∧
  s_minRadius (adjustMinRadius (Z.shiftl d 448) 0 newTicketStore) = 2 ^ 57 ∧
  2 ^ 57 ≠ 16 * d.
Proof. vm_compute. repeat split; congruence. Qed.
End Examples.

(** ** The NodeID index and the reference counts *)

(** The index holds a ticket exactly under the ID of its registrar, and
    exactly while its reference count is positive. *)
Definition idx_inv (h : list ticket) (nodes : gmap NodeID ptr) : Prop :=
  (∀ p t, h !! p = Some t → nodes !! ID (tk_node t) = Some p ↔ 0 < tk_refCnt t) ∧
  (∀ id p, nodes !! id = Some p → ∃ t, h !! p = Some t ∧ ID (tk_node t) = id).

(** [h'] is [h] with other reference counts for the ticket at [p]. *)
Definition refCnt_changed_at (p : ptr) (h h' : list ticket) : Prop :=
  length h' = length h ∧
  (∀ q, q ≠ p → h' !! q = h !! q) ∧
  (∀ t, h !! p = Some t → ∃ c, h' !! p = Some (set_refCnt c t)).

Lemma refCnt_changed_at_refl p h : refCnt_changed_at p h h.
Proof.
  split; [done|]. split; [done|]. intros t Ht. exists (tk_refCnt t).
  rewrite Ht. by destruct t.
Qed.

Lemma refCnt_changed_at_trans p h1 h2 h3 :
  refCnt_changed_at p h1 h2 → refCnt_changed_at p h2 h3 → refCnt_changed_at p h1 h3.
Proof.
  intros (L1 & O1 & P1) (L2 & O2 & P2). split; [congruence|]. split.
  - intros q Hq. rewrite O2, O1; done.
  - intros t Ht. destruct (P1 _ Ht) as [c Hc]. destruct (P2 _ Hc) as [c' Hc'].
    exists c'. rewrite Hc'. done.
Qed.

Lemma refCnt_changed_at_insert p h t c :
  h !! p = Some t → refCnt_changed_at p h (<[p := set_refCnt c t]> h).
Proof.
  intros Ht. split; [apply length_insert|]. split.
  - intros q Hq. by apply list_lookup_insert_ne.
  - intros t' Ht'. exists c. rewrite list_lookup_insert_eq by (by eapply lookup_lt_Some).
    congruence.
Qed.

Section Index.
Context `{GoEnv}.

(** The three ways an iteration of the loop of [add] ends. *)
Lemma add_slot_cases rnd localTime p i topic h s h' s' :
  add_slot rnd localTime p i topic (h, s) = Some (h', s') →
  ∃ t, h !! p = Some t ∧
    ((h' = h ∧ s' = s ∧
      (s_topics s !! topic = None ∨
       ∃ tts, s_topics s !! topic = Some tts ∧ isInRadius tts t = false)) ∨
     ∃ tts tts',
       s_topics s !! topic = Some tts ∧ isInRadius tts t = true ∧
       adjust h localTime (Build_ticketRef p i) (s_minRadius s) tts = Some tts' ∧
       ((h' = h ∧ s' = set_topics (<[topic := tts']> (s_topics s)) s ∧
         (tt_converged tts' = false ∨
          ∃ regTime, tk_regTime t !! i = Some regTime ∧
            (tt_time tts' = None ∨
             F64.ltb (F64.of_Z (u64 (regTime - localTime))) (keepThreshold rnd) = false))) ∨
        ∃ regTime tm,
          tt_converged tts' = true ∧ tk_regTime t !! i = Some regTime ∧
          tt_time tts' = Some tm ∧
          F64.ltb (F64.of_Z (u64 (regTime - localTime))) (keepThreshold rnd) = true ∧
          h' = <[p := set_refCnt (tk_refCnt t + 1) t]> h ∧
          s' = set_topics
                 (<[topic := set_time
                      (Some (<[regTime / ticketGroupTime :=
                               default [] (tm !! (regTime / ticketGroupTime))
                               ++ [Build_ticketRef p i]]> tm)) tts']>
                    (s_topics s)) s)).
Proof.
  unfold add_slot. intros Hs.
  destruct (h !! p) as [t|] eqn:Ht; [|discriminate].
  cbn [mbind option_bind] in Hs. exists t. split; [done|].
  destruct (s_topics s !! topic) as [tts|] eqn:Htts;
    [|injection Hs as <- <-; left; auto].
  destruct (isInRadius tts t) eqn:Hin;
    [|injection Hs as <- <-; left; eauto 6].
  right. exists tts.
  destruct (adjust h localTime _ (s_minRadius s) tts) as [tts'|] eqn:Hadj;
    [|discriminate].
  cbn [mbind option_bind] in Hs. exists tts'. do 3 (split; [done|]).
  destruct (tt_converged tts') eqn:Hconv;
    [|injection Hs as <- <-; left; auto].
  destruct (tk_regTime t !! i) as [regTime|] eqn:Hreg; [|discriminate].
  cbn [mbind option_bind] in Hs.
  destruct (tt_time tts') as [tm|] eqn:Htm;
    [|injection Hs as <- <-; left; eauto 8].
  destruct (F64.ltb _ _) eqn:Hlt; injection Hs as <- <-.
  - right. exists regTime, tm. auto 8.
  - left. eauto 8.
Qed.

Lemma add_slot_heap rnd localTime p i topic h s h' s' :
  add_slot rnd localTime p i topic (h, s) = Some (h', s') →
  refCnt_changed_at p h h' ∧ s_nodes s' = s_nodes s.
Proof.
  intros (t & Ht & [(-> & -> & _)|(tts & tts' & _ & _ & _ & Hr)])%add_slot_cases.
  - split; [apply refCnt_changed_at_refl|done].
  - destruct Hr as [(-> & -> & _)|(regTime & tm & _ & _ & _ & _ & -> & ->)].
    + split; [apply refCnt_changed_at_refl|done].
    + split; [by apply refCnt_changed_at_insert|done].
Qed.

Lemma add_loop_heap rnd localTime p topics : ∀ i h s h' s',
  add_loop rnd localTime p i topics (h, s) = Some (h', s') →
  refCnt_changed_at p h h' ∧ s_nodes s' = s_nodes s.
Proof.
  induction topics as [|topic topics IH]; intros i h s h' s' Hl.
  - injection Hl as <- <-. split; [apply refCnt_changed_at_refl|done].
  - cbn [add_loop] in Hl.
    destruct (add_slot _ _ _ _ _ _) as [[h1 s1]|] eqn:Hs; [|discriminate].
    cbn [mbind option_bind] in Hl.
    apply add_slot_heap in Hs as [Hh Hn]. apply IH in Hl as [Hh' Hn'].
    split; [by eapply refCnt_changed_at_trans|congruence].
Qed.

Lemma idx_inv_add rnd localTime p h s h' s' :
  idx_inv h (s_nodes s) →
  add rnd localTime p (h, s) = Some (h', s') →
  idx_inv h' (s_nodes s').
Proof.
  intros [Hc Hk] Ha. unfold add in Ha.
  destruct (h !! p) as [t|] eqn:Ht; [|discriminate].
  cbn [mbind option_bind] in Ha.
  destruct (s_nodes s !! ID (tk_node t)) as [q|] eqn:Hn;
    [by injection Ha as <- <-|].
  destruct (add_loop _ _ _ _ _ _) as [[h1 s1]|] eqn:Hl; [|discriminate].
  cbn [mbind option_bind] in Ha.
  apply add_loop_heap in Hl as [(Hlen & Hother & Hp) Hnodes].
  assert (s_nodes s1 = s_nodes s) as Hnodes' by (rewrite Hnodes; by destruct (_ =? _)).
  clear Hnodes. destruct (Hp _ Ht) as [c Hc1]. rewrite Hc1 in Ha.
  cbn [mbind option_bind tk_refCnt tk_node set_refCnt] in Ha.
  assert (∀ q t', q ≠ p → h !! q = Some t' → ID (tk_node t') = ID (tk_node t) →
          ¬ 0 < tk_refCnt t') as Hsame.
  { intros q t' Hq Ht' Hid Hpos. apply Hc in Ht'. apply Ht' in Hpos.
    rewrite Hid, Hn in Hpos. discriminate. }
  destruct (0 <? c) eqn:Hpos; injection Ha as <- <-;
    cbn [s_nodes set_nodes].
  - apply Z.ltb_lt in Hpos. rewrite Hnodes'. split.
    + intros q t' Ht'. destruct (decide (q = p)) as [->|Hq].
      * rewrite Hc1 in Ht'. injection Ht' as <-. cbn. rewrite lookup_insert_eq. done.
      * rewrite Hother in Ht' by done.
        destruct (decide (ID (tk_node t') = ID (tk_node t))) as [Hid|Hid].
        -- rewrite Hid, lookup_insert_eq. split; [congruence|].
           intros ?. by destruct (Hsame q t').
        -- rewrite lookup_insert_ne by done. by apply Hc.
    + intros id q. destruct (decide (id = ID (tk_node t))) as [->|Hid].
      * rewrite lookup_insert_eq. intros [= <-]. eauto.
      * rewrite lookup_insert_ne by done. intros Hq.
        destruct (Hk _ _ Hq) as (t' & Ht' & Hid').
        destruct (decide (q = p)) as [->|Hqp]; [congruence|].
        exists t'. by rewrite Hother.
  - apply Z.ltb_ge in Hpos. rewrite Hnodes'. split.
    + intros q t' Ht'. destruct (decide (q = p)) as [->|Hq].
      * rewrite Hc1 in Ht'. injection Ht' as <-. cbn. rewrite Hn. split; [done|lia].
      * rewrite Hother in Ht' by done. by apply Hc.
    + intros id q Hq. destruct (Hk _ _ Hq) as (t' & Ht' & Hid').
      destruct (decide (q = p)) as [->|Hqp]; [congruence|].
      exists t'. by rewrite Hother.
Qed.

Lemma idx_inv_decrement h nodes q tk :
  idx_inv h nodes → h !! q = Some tk →
  let tk' := set_refCnt (tk_refCnt tk - 1) tk in
  idx_inv (<[q := tk']> h)
          (if tk_refCnt tk' =? 0 then delete (ID (tk_node tk')) nodes else nodes).
Proof.
  intros [Hc Hk] Hq tk'. assert (q < length h)%nat as Hlt by (by eapply lookup_lt_Some).
  assert (ID (tk_node tk') = ID (tk_node tk)) as Hid by done.
  assert (tk_refCnt tk' = tk_refCnt tk - 1) as Hcnt by done.
  pose proof (Hc _ _ Hq) as Hcq.
  destruct (tk_refCnt tk' =? 0) eqn:Hz; [apply Z.eqb_eq in Hz|apply Z.eqb_neq in Hz].
  - split.
    + intros p t Hp. destruct (decide (p = q)) as [->|Hne].
      * rewrite list_lookup_insert_eq in Hp by done. injection Hp as <-.
        rewrite lookup_delete_eq. split; [done|lia].
      * rewrite list_lookup_insert_ne in Hp by done.
        destruct (decide (ID (tk_node t) = ID (tk_node tk'))) as [Heq|Hneq].
        -- rewrite Heq, lookup_delete_eq. split; [done|]. intros Hpos.
           apply (Hc _ _ Hp) in Hpos. rewrite Heq, Hid in Hpos.
           assert (0 < tk_refCnt tk) as Hpos' by lia. apply Hcq in Hpos'.
           rewrite Hpos' in Hpos. by injection Hpos as ->.
        -- rewrite lookup_delete_ne by done. by apply Hc.
    + intros id p Hp. apply lookup_delete_Some in Hp as [Hne Hp].
      destruct (Hk _ _ Hp) as (t & Ht & Hidt).
      destruct (decide (p = q)) as [->|Hpq].
      * exists tk'. rewrite list_lookup_insert_eq by done. split; [done|]. congruence.
      * exists t. by rewrite list_lookup_insert_ne.
  - split.
    + intros p t Hp. destruct (decide (p = q)) as [->|Hne].
      * rewrite list_lookup_insert_eq in Hp by done. injection Hp as <-.
        rewrite Hid, Hcq. lia.
      * rewrite list_lookup_insert_ne in Hp by done. by apply Hc.
    + intros id p Hp. destruct (Hk _ _ Hp) as (t & Ht & Hidt).
      destruct (decide (p = q)) as [->|Hpq].
      * exists tk'. rewrite list_lookup_insert_eq by done. split; [done|]. congruence.
      * exists t. by rewrite list_lookup_insert_ne.
Qed.

Lemma fetch_scan_S fuel localTime arr len i res h nodes :
  fetch_scan (S fuel) localTime arr len i res h nodes =
  if (i <? len)%nat then
    t ← arr !! i;
    tk ← h !! ref_t t;
    regTime ← tk_regTime tk !! ref_idx t;
    if regTime <=? localTime then
      let arr := take i arr ++ drop (S i) (take len arr) ++ drop (len - 1) arr in
      let tk := set_refCnt (tk_refCnt tk - 1) tk in
      let h := <[ref_t t := tk]> h in
      let nodes :=
        if tk_refCnt tk =? 0 then delete (ID (tk_node tk)) nodes else nodes in
      fetch_scan fuel localTime arr (len - 1) i (res ++ [ref_t t]) h nodes
    else
      fetch_scan fuel localTime arr len (S i) res h nodes
  else Some (arr, res, h, nodes).
Proof. reflexivity. Qed.

Lemma fetch_scan_idx localTime fuel : ∀ arr len i res h nodes arr' res' h' nodes',
  idx_inv h nodes →
  fetch_scan fuel localTime arr len i res h nodes = Some (arr', res', h', nodes') →
  idx_inv h' nodes'.
Proof.
  induction fuel as [|fuel IH]; intros arr len i res h nodes arr' res' h' nodes' Hinv Hs.
  - by injection Hs as <- <- <- <-.
  - rewrite fetch_scan_S in Hs.
    destruct (i <? len)%nat; [|by injection Hs as <- <- <- <-].
    destruct (arr !! i) as [t|]; [|discriminate]. cbn [mbind option_bind] in Hs.
    destruct (h !! ref_t t) as [tk|] eqn:Htk; [|discriminate].
    cbn [mbind option_bind] in Hs.
    destruct (tk_regTime tk !! ref_idx t) as [regTime|]; [|discriminate].
    cbn [mbind option_bind] in Hs.
    destruct (regTime <=? localTime).
    + eapply IH; [|exact Hs]. by apply idx_inv_decrement.
    + by eapply IH.
Qed.

Lemma fetch_group_idx localTime ltGroup g tts res h nodes tts' res' h' nodes' :
  idx_inv h nodes →
  fetch_group localTime ltGroup g (tts, res, h, nodes) = Some (tts', res', h', nodes') →
  idx_inv h' nodes'.
Proof.
  intros Hinv Hg. unfold fetch_group in Hg.
  destruct (fetch_scan _ _ _ _ _ _ _ _) as [[[[arr res1] h1] nodes1]|] eqn:Hs;
    [|discriminate].
  cbn [mbind option_bind] in Hg. injection Hg as <- <- <- <-.
  by eapply fetch_scan_idx.
Qed.

Lemma fetch_groups_idx localTime ltGroup gs : ∀ tts res h nodes tts' res' h' nodes',
  idx_inv h nodes →
  fetch_groups localTime ltGroup gs (tts, res, h, nodes) = Some (tts', res', h', nodes') →
  idx_inv h' nodes'.
Proof.
  induction gs as [|g gs IH]; intros tts res h nodes tts' res' h' nodes' Hinv Hg.
  - by injection Hg as <- <- <- <-.
  - cbn [fetch_groups] in Hg.
    destruct (fetch_group _ _ _ _) as [[[[tts1 res1] h1] nodes1]|] eqn:Hg1;
      [|discriminate].
    cbn [mbind option_bind] in Hg. eapply IH; [|exact Hg].
    by eapply fetch_group_idx.
Qed.

Lemma fetch_topics_idx localTime ltGroup order : ∀ res h s res' h' s',
  idx_inv h (s_nodes s) →
  fetch_topics localTime ltGroup order res (h, s) = Some (res', (h', s')) →
  idx_inv h' (s_nodes s').
Proof.
  induction order as [|topic order IH]; intros res h s res' h' s' Hinv Hf.
  - by injection Hf as <- <- <-.
  - cbn [fetch_topics] in Hf.
    destruct (s_topics s !! topic) as [tts|]; [|by eapply IH].
    destruct (fetch_groups _ _ _ _) as [[[[tts1 res1] h1] nodes1]|] eqn:Hg;
      [|discriminate].
    cbn [mbind option_bind] in Hf. eapply IH; [|exact Hf].
    cbn [s_nodes set_nodes]. by eapply fetch_groups_idx.
Qed.

Lemma idx_inv_fetch order localTime h s res h' s' :
  idx_inv h (s_nodes s) →
  fetch order localTime (h, s) = Some (res, (h', s')) →
  idx_inv h' (s_nodes s').
Proof.
  intros Hinv Hf. unfold fetch in Hf.
  destruct (fetch_topics _ _ _ _ _) as [[res1 [h1 s1]]|] eqn:Ht; [|discriminate].
  cbn [mbind option_bind] in Hf. injection Hf as <- <- <-.
  cbn [s_nodes set_lastGroupFetched]. by eapply fetch_topics_idx.
Qed.

Lemma adjustMinRadius_frame target found s :
  s_nodes (adjustMinRadius target found s) = s_nodes s.
Proof. unfold adjustMinRadius. by destruct (_ <? _). Qed.

Lemma idx_inv_step o h s h' s' :
  idx_inv h (s_nodes s) → step o (h, s) = Some (h', s') → idx_inv h' (s_nodes s').
Proof.
  intros Hinv Hs. destruct o as [t reg|lt ts n p|rnd lt p|order lt|tg fd]; cbn [step] in Hs.
  - injection Hs as <- <-. cbn [fst snd]. unfold addTopic.
    by destruct (s_topics s !! t).
  - destruct (pongToTicket lt ts n p) as [t|] eqn:Ht; [|discriminate].
    cbn [mbind option_bind fst snd] in Hs. injection Hs as <- <-.
    assert (tk_refCnt t = 0) as Hz.
    { unfold pongToTicket in Ht. destruct (data p); [|discriminate]. by injection Ht as <-. }
    destruct Hinv as [Hc Hk]. split.
    + intros q t' Hq. apply lookup_app_Some in Hq as [Hq|[Hlen Hq]]; [by apply Hc|].
      apply list_lookup_singleton_Some in Hq as [Hq ->]. rewrite Hz. split; [|lia].
      intros Hn. destruct (Hk _ _ Hn) as (t0 & Ht0 & _).
      apply lookup_lt_Some in Ht0. cbn in Hq. lia.
    + intros id q Hq. destruct (Hk _ _ Hq) as (t' & Ht' & Hid). exists t'.
      split; [|done]. by apply lookup_app_l_Some.
  - by eapply idx_inv_add.
  - destruct (fetch order lt (h, s)) as [[res [h1 s1]]|] eqn:Hf; [|discriminate].
    cbn in Hs. injection Hs as <- <-. by eapply idx_inv_fetch.
  - injection Hs as <- <-. cbn [fst snd]. by rewrite adjustMinRadius_frame.
Qed.

Lemma idx_inv_run ops : ∀ h s h' s',
  idx_inv h (s_nodes s) → run ops (h, s) = Some (h', s') → idx_inv h' (s_nodes s').
Proof.
  induction ops as [|o ops IH]; intros h s h' s' Hinv Hr.
  - by injection Hr as <- <-.
  - cbn [run] in Hr. destruct (step o (h, s)) as [[h1 s1]|] eqn:Hs; [|discriminate].
    cbn [mbind option_bind] in Hr. eapply IH; [|exact Hr]. by eapply idx_inv_step.
Qed.

Lemma idx_inv_init : idx_inv init.1 (s_nodes init.2).
Proof. split; [intros p t Hp|intros id p Hp]; cbn in Hp; done. Qed.
End Index.

(** C2.  After any sequence of calls on a fresh store that has run to
    its end, a ticket is held by the NodeID index (under some key) if and
    only if its reference count is positive; a ticket whose count is 0
    is not reachable from the index. *)
Theorem index_iff_refCnt_positive `{GoEnv} ops h s :
  run ops init = Some (h, s) →
  ∀ p t, h !! p = Some t →
    ((∃ id, s_nodes s !! id = Some p) ↔ 0 < tk_refCnt t) ∧
    (tk_refCnt t = 0 → ∀ id, s_nodes s !! id ≠ Some p).
Proof.
  intros Hr p t Hp.
  destruct (idx_inv_run ops _ _ _ _ idx_inv_init Hr) as [Hc Hk].
  assert ((∃ id, s_nodes s !! id = Some p) ↔ 0 < tk_refCnt t) as Hiff.
  { split.
    - intros [id Hid]. destruct (Hk _ _ Hid) as (t' & Ht' & <-).
      rewrite Hp in Ht'. injection Ht' as <-. by apply (Hc _ _ Hp).
    - intros Hpos. exists (ID (tk_node t)). by apply (Hc _ _ Hp). }
  split; [done|]. intros Hz id Hid.
  assert (0 < tk_refCnt t) by (apply Hiff; eauto). lia.
Qed.

Lemma index_iff_refCnt_positive_witness :
  ∃ h s, @run example_env (scenario_once 600000000000) init = Some (h, s) ∧
    ∀ p t, h !! p = Some t →
      ((∃ id, s_nodes s !! id = Some p) ↔ 0 < tk_refCnt t) ∧
      (tk_refCnt t = 0 → ∀ id, s_nodes s !! id ≠ Some p).
Proof.
  eexists _, _. split; [vm_compute; reflexivity|].
  apply (@index_iff_refCnt_positive example_env (scenario_once 600000000000)).
  vm_compute; reflexivity.
Defined.

(** C7.  [add] of a ticket whose registrar already has a ticket in the
    NodeID index changes nothing, in the store or in any ticket; and
    after any sequence of calls the index holds at most one ticket per
    registrar NodeID. *)
Theorem add_duplicate_is_noop `{GoEnv} :
  (∀ rnd localTime p h s t,
     h !! p = Some t → is_Some (s_nodes s !! ID (tk_node t)) →
     add rnd localTime p (h, s) = Some (h, s)) ∧
  (∀ ops h s, run ops init = Some (h, s) →
     ∀ id1 id2 p1 p2 t1 t2,
       s_nodes s !! id1 = Some p1 → s_nodes s !! id2 = Some p2 →
       h !! p1 = Some t1 → h !! p2 = Some t2 →
       ID (tk_node t1) = ID (tk_node t2) → id1 = id2 ∧ p1 = p2).
Proof.
  split.
  - intros rnd localTime p h s t Hp [q Hq]. unfold add. rewrite Hp.
    cbn [mbind option_bind]. by rewrite Hq.
  - intros ops h s Hr id1 id2 p1 p2 t1 t2 H1 H2 Hp1 Hp2 Hid.
    destruct (idx_inv_run ops _ _ _ _ idx_inv_init Hr) as [_ Hk].
    destruct (Hk _ _ H1) as (t1' & Ht1 & <-). destruct (Hk _ _ H2) as (t2' & Ht2 & <-).
    rewrite Hp1 in Ht1. rewrite Hp2 in Ht2. injection Ht1 as <-. injection Ht2 as <-.
    split; [done|]. rewrite Hid in H1. rewrite H1 in H2. by injection H2.
Qed.

Lemma add_duplicate_is_noop_witness :
  ∃ h s t, @run example_env (scenario_once 600000000000) init = Some (h, s) ∧
    h !! 0%nat = Some t ∧ is_Some (s_nodes s !! ID (tk_node t)) ∧
    @add example_env rnd_one 700000000000 0%nat (h, s) = Some (h, s).
Proof.
  eexists _, _, _. split; [vm_compute; reflexivity|].
  split; [vm_compute; reflexivity|]. split; [vm_compute; eauto|].
  eapply (proj1 (@add_duplicate_is_noop example_env)); [vm_compute; reflexivity|vm_compute; eauto].
Defined.

(** ** The radius controller *)

(** The float [radius] of [adjust] after the comparison with the
    maximum: what the convergence filter sees. *)
Definition filteredInput (r : topicTickets) (wait : Z) : spec_float :=
  let radius := proposedRadius r wait in
  if F64.gtb radius (F64.of_Z maxRadius) then F64.of_Z maxRadius else radius.

(** Two states of a topic that differ in the schedule only. *)
Definition same_controller (r r' : topicTickets) : Prop :=
  tt_topic r' = tt_topic r ∧ tt_topicHashPrefix r' = tt_topicHashPrefix r ∧
  tt_radius r' = tt_radius r ∧ tt_filteredRadius r' = tt_filteredRadius r ∧
  tt_converged r' = tt_converged r.

Definition converged_in (s : ticketStore) (t : Topic) : Prop :=
  ∃ r, s_topics s !! t = Some r ∧ tt_converged r = true.

Section Radius.
Context `{GoEnv}.

Lemma u64_range z : 0 <= u64 z <= maxRadius.
Proof. unfold u64, maxRadius. pose proof (Z.mod_pos_bound z (2 ^ 64)). lia. Qed.

Lemma trunc_mag_nonneg m e : 0 <= F64.trunc_mag m e.
Proof.
  unfold F64.trunc_mag. destruct e.
  - apply Z.shiftl_nonneg. lia.
  - apply Z.shiftl_nonneg. lia.
  - apply Z.shiftr_nonneg. lia.
Qed.

Lemma to_uint64_range f : 0 <= F64.to_uint64 f <= maxRadius.
Proof.
  unfold F64.to_uint64. destruct f as [s|s| |[] m e]; try apply u64_range.
  - unfold maxRadius; lia.
  - destruct (_ =? _); [unfold maxRadius; lia|apply u64_range].
  - destruct (_ <? _) eqn:Hlt; [|apply u64_range].
    apply Z.ltb_lt in Hlt. pose proof (trunc_mag_nonneg m e). unfold maxRadius. lia.
Qed.

(** The radius that [adjust] stores. *)
Lemma adjustWith_radius wait minRadius r :
  tt_radius (adjustWith wait minRadius r) =
  if F64.gtb (proposedRadius r wait) (F64.of_Z maxRadius) then maxRadius
  else Z.max (F64.to_uint64 (proposedRadius r wait)) minRadius.
Proof.
  unfold adjustWith. destruct (F64.gtb _ _).
  - by destruct (negb _); [destruct (F64.geb _ _)|].
  - destruct (Z.ltb_spec (F64.to_uint64 (proposedRadius r wait)) minRadius);
      (destruct (negb _); [destruct (F64.geb _ _)|]); cbn [tt_radius]; lia.
Qed.

Lemma adjustWith_filter wait minRadius r :
  tt_converged r = false →
  tt_converged (adjustWith wait minRadius r) =
    F64.geb (filteredInput r wait) (tt_filteredRadius r) ∧
  tt_filteredRadius (adjustWith wait minRadius r) =
    if F64.geb (filteredInput r wait) (tt_filteredRadius r) then tt_filteredRadius r
    else F64.add (tt_filteredRadius r)
           (F64.mul (F64.sub (filteredInput r wait) (tt_filteredRadius r)) F64.c0_05).
Proof.
  intros Hc. unfold adjustWith, filteredInput. rewrite Hc. cbn [negb].
  destruct (F64.gtb _ _); destruct (F64.geb _ _); cbn; auto.
Qed.

Lemma adjustWith_converged wait minRadius r :
  tt_converged r = true →
  tt_converged (adjustWith wait minRadius r) = true ∧
  tt_filteredRadius (adjustWith wait minRadius r) = tt_filteredRadius r.
Proof.
  intros Hc. unfold adjustWith. rewrite Hc. cbn [negb].
  by destruct (F64.gtb _ _).
Qed.

Lemma adjustWith_frame wait minRadius r :
  tt_topic (adjustWith wait minRadius r) = tt_topic r ∧
  tt_topicHashPrefix (adjustWith wait minRadius r) = tt_topicHashPrefix r ∧
  tt_time (adjustWith wait minRadius r) = tt_time r.
Proof.
  unfold adjustWith. destruct (F64.gtb _ _); (destruct (negb _); [destruct (F64.geb _ _)|]); done.
Qed.

Lemma adjustWith_keeps_converged wait minRadius r :
  tt_converged r = true → tt_converged (adjustWith wait minRadius r) = true.
Proof. intros Hc. by apply adjustWith_converged. Qed.

Lemma adjust_keeps_converged h localTime ref minRadius r r' :
  adjust h localTime ref minRadius r = Some r' →
  tt_converged r = true → tt_converged r' = true.
Proof.
  unfold adjust. intros Ha Hc. destruct (waitOf h localTime ref); [|discriminate].
  cbn [mbind option_bind] in Ha. injection Ha as <-. by apply adjustWith_keeps_converged.
Qed.

Lemma add_slot_converged rnd localTime p i topic h s h' s' t :
  add_slot rnd localTime p i topic (h, s) = Some (h', s') →
  converged_in s t → converged_in s' t.
Proof.
  intros (tk & Htk & Hcases)%add_slot_cases (r & Hr & Hc).
  destruct Hcases as [(-> & -> & _)|(tts & tts' & Htts & _ & Hadj & Hcases)];
    [by exists r|].
  assert (∀ tm, converged_in (set_topics (<[topic := set_time tm tts']> (s_topics s)) s) t)
    as Hgen.
  { intros tm. unfold converged_in. cbn [s_topics set_topics].
    destruct (decide (topic = t)) as [->|Hne].
    - rewrite lookup_insert_eq. eexists. split; [done|]. cbn [tt_converged set_time].
      eapply adjust_keeps_converged; [done|]. congruence.
    - rewrite lookup_insert_ne by done. eauto. }
  destruct Hcases as [(-> & -> & _)|(regTime & tm & _ & _ & _ & _ & -> & ->)].
  - specialize (Hgen (tt_time tts')). by destruct tts'.
  - apply Hgen.
Qed.

Lemma add_loop_converged rnd localTime p t topics : ∀ i h s h' s',
  add_loop rnd localTime p i topics (h, s) = Some (h', s') →
  converged_in s t → converged_in s' t.
Proof.
  induction topics as [|topic topics IH]; intros i h s h' s' Hl Hc.
  - by injection Hl as <- <-.
  - cbn [add_loop] in Hl.
    destruct (add_slot _ _ _ _ _ _) as [[h1 s1]|] eqn:Hs; [|discriminate].
    cbn [mbind option_bind] in Hl. eapply IH; [done|]. by eapply add_slot_converged.
Qed.

Lemma add_converged rnd localTime p h s h' s' t :
  add rnd localTime p (h, s) = Some (h', s') →
  converged_in s t → converged_in s' t.
Proof.
  unfold add. intros Ha Hc. destruct (h !! p) as [tk|]; [|discriminate].
  cbn [mbind option_bind] in Ha.
  destruct (s_nodes s !! ID (tk_node tk)); [by injection Ha as <- <-|].
  destruct (add_loop _ _ _ _ _ _) as [[h1 s1]|] eqn:Hl; [|discriminate].
  cbn [mbind option_bind] in Ha.
  assert (converged_in s1 t) as Hc1.
  { eapply add_loop_converged; [done|]. by destruct (_ =? _). }
  destruct (h1 !! p) as [tk1|]; [|discriminate]. cbn [mbind option_bind] in Ha.
  destruct (0 <? _); by injection Ha as <- <-.
Qed.

Lemma fetch_group_controller localTime ltGroup g r res h nodes r' res' h' nodes' :
  fetch_group localTime ltGroup g (r, res, h, nodes) = Some (r', res', h', nodes') →
  same_controller r r'.
Proof.
  unfold fetch_group. intros Hg.
  destruct (fetch_scan _ _ _ _ _ _ _ _) as [[[[arr res1] h1] nodes1]|]; [|discriminate].
  cbn [mbind option_bind] in Hg. by injection Hg as <- <- <- <-.
Qed.

Lemma same_controller_trans r1 r2 r3 :
  same_controller r1 r2 → same_controller r2 r3 → same_controller r1 r3.
Proof. unfold same_controller. intuition congruence. Qed.

Lemma fetch_groups_controller localTime ltGroup gs : ∀ r res h nodes r' res' h' nodes',
  fetch_groups localTime ltGroup gs (r, res, h, nodes) = Some (r', res', h', nodes') →
  same_controller r r'.
Proof.
  induction gs as [|g gs IH]; intros r res h nodes r' res' h' nodes' Hg.
  - by injection Hg as <- <- <- <-.
  - cbn [fetch_groups] in Hg.
    destruct (fetch_group _ _ _ _) as [[[[r1 res1] h1] nodes1]|] eqn:Hg1; [|discriminate].
    cbn [mbind option_bind] in Hg.
    eapply same_controller_trans; [by eapply fetch_group_controller|by eapply IH].
Qed.

Lemma fetch_topics_controller localTime ltGroup order : ∀ res h s res' h' s' t r,
  fetch_topics localTime ltGroup order res (h, s) = Some (res', (h', s')) →
  s_topics s !! t = Some r →
  ∃ r', s_topics s' !! t = Some r' ∧ same_controller r r'.
Proof.
  induction order as [|topic order IH]; intros res h s res' h' s' t r Hf Hr.
  - injection Hf as <- <- <-. exists r. by split.
  - cbn [fetch_topics] in Hf.
    destruct (s_topics s !! topic) as [tts|] eqn:Htts; [|by eapply IH].
    destruct (fetch_groups _ _ _ _) as [[[[r1 res1] h1] nodes1]|] eqn:Hg; [|discriminate].
    cbn [mbind option_bind] in Hf. apply fetch_groups_controller in Hg.
    destruct (decide (topic = t)) as [->|Hne].
    + rewrite Hr in Htts. injection Htts as <-.
      edestruct IH as (r' & Hr' & Hsame); [exact Hf| |].
      { cbn [s_topics set_nodes set_topics]. apply lookup_insert_eq. }
      exists r'. split; [done|]. by eapply same_controller_trans.
    + eapply IH; [exact Hf|]. cbn [s_topics set_nodes set_topics].
      by rewrite lookup_insert_ne.
Qed.

Lemma fetch_controller order localTime h s res h' s' t r :
  fetch order localTime (h, s) = Some (res, (h', s')) →
  s_topics s !! t = Some r →
  ∃ r', s_topics s' !! t = Some r' ∧ same_controller r r'.
Proof.
  unfold fetch. intros Hf Hr.
  destruct (fetch_topics _ _ _ _ _) as [[res1 [h1 s1]]|] eqn:Ht; [|discriminate].
  cbn [mbind option_bind] in Hf. injection Hf as <- <- <-.
  cbn [s_topics set_lastGroupFetched]. by eapply fetch_topics_controller.
Qed.

Lemma step_converged o h s h' s' t :
  step o (h, s) = Some (h', s') → converged_in s t → converged_in s' t.
Proof.
  intros Hs Hc. destruct o as [t0 reg|lt ts n p|rnd lt p|order lt|tg fd]; cbn [step] in Hs.
  - injection Hs as <- <-. cbn [fst snd]. unfold addTopic.
    destruct (s_topics s !! t0) eqn:Ht0; [done|].
    destruct Hc as (r & Hr & Hc). exists r. split; [|done].
    cbn [s_topics set_topics]. rewrite lookup_insert_ne; [done|]. congruence.
  - destruct (pongToTicket lt ts n p); [|discriminate].
    cbn [mbind option_bind] in Hs. by injection Hs as <- <-.
  - by eapply add_converged.
  - destruct (fetch order lt (h, s)) as [[res [h1 s1]]|] eqn:Hf; [|discriminate].
    cbn in Hs. injection Hs as <- <-. destruct Hc as (r & Hr & Hc).
    destruct (fetch_controller _ _ _ _ _ _ _ _ _ Hf Hr) as (r' & Hr' & Hsame).
    exists r'. split; [done|]. destruct Hsame as (_ & _ & _ & _ & ->). done.
  - injection Hs as <- <-. cbn [fst snd]. unfold converged_in, adjustMinRadius.
    by destruct (_ <? _).
Qed.

Lemma run_converged ops : ∀ h s h' s' t,
  run ops (h, s) = Some (h', s') → converged_in s t → converged_in s' t.
Proof.
  induction ops as [|o ops IH]; intros h s h' s' t Hr Hc.
  - by injection Hr as <- <-.
  - cbn [run] in Hr. destruct (step o (h, s)) as [[h1 s1]|] eqn:Hs; [|discriminate].
    cbn [mbind option_bind] in Hr. eapply IH; [exact Hr|]. by eapply step_converged.
Qed.
End Radius.

(** C4, at a failing input.  The first observation of a fresh topic
    (radius [maxRadius]) with a wait of exactly [targetWaitTime]: the
    error is 0 and the proposed radius is [float64(maxRadius)], that is
    2^64, which is above the maximum distance 2^64 - 1 but not above its
    float64 image.  [adjust] does not pin the radius: it converts 2^64
    to [uint64], a conversion out of range whose result the language
    leaves to the implementation, and stores that (raised to
    [minRadius]). *)
Theorem adjust_at_target_wait_leaves_range `{GoEnv} t register minRadius :
  let r := newtopicTickets t register in
  let two64 := S754_finite false (2 ^ 52) 12 in
  proposedRadius r targetWaitTime = two64 ∧
  F64.gtb two64 (F64.of_Z maxRadius) = false ∧
  tt_radius (adjustWith targetWaitTime minRadius r) =
    Z.max (u64 (uint64_out_of_range two64)) minRadius.
Proof.
  intros r two64.
  assert (proposedRadius r targetWaitTime = two64) as Hp by (vm_compute; reflexivity).
  assert (F64.gtb two64 (F64.of_Z maxRadius) = false) as Hg by (vm_compute; reflexivity).
  split; [done|]. split; [done|].
  rewrite adjustWith_radius, Hp, Hg. reflexivity.
Qed.

(** With the conversion of amd64 the radius of the fresh topic falls
    from [maxRadius] to 2^63 on that observation. *)
Example adjust_at_target_wait_amd64 :
  (w ← @run example_env
         [ OpAddTopic "t" true;
           OpPongToTicket 600000000000 ["t"%string] (Build_Node 1) (pongPacket [600]);
           OpAdd rnd_one 600000000000 0%nat ] init;
   tt_radius <$> s_topics w.2 !! "t"%string) = Some (2 ^ 63).
Proof. vm_compute. reflexivity. Qed.

(** A topic held at the floor: the minimum radius is set to 2^63 by
    one far lookup result, and a node at distance 0 from the topic
    offers a ticket that can be used at once (wait 0), [n] times. *)
Definition floor_run (n : nat) : option world :=
  @run example_env
    ([ OpAddTopic "t" true;
       OpAdjustMinRadius (Z.shiftl (2 ^ 63) 448) 0;
       OpPongToTicket 600000000000 ["t"%string]
         (Build_Node (Z.shiftl 0xc5d2460186f7233c 448)) (pongPacket [0]) ]
     ++ replicate n (OpAdd rnd_one 600000000000 0%nat)) init.

(** The state of the topic after that run. *)
Definition floor_topic (n : nat) : option topicTickets :=
  w ← floor_run n; s_topics w.2 !! "t"%string.

(** C5, at a failing input.  After 50 observations the radius is at
    the floor 2^63 and the topic has not converged.  The 51st
    observation stores the radius 2^63 again, which is not below the
    filtered radius of that moment, yet the topic is still not
    converged after it: the comparison is made with the float radius
    from before the floor was applied (0.9 * 2^63), which is not
    brought in line with the stored radius as it is in the branch of the
    maximum.  The topic is not converged after 2000 observations
    either. *)
Theorem floor_held_topic_does_not_converge :
  (w ← floor_run 50; Some (s_minRadius w.2)) = Some (2 ^ 63) ∧
  (r50 ← floor_topic 50; r51 ← floor_topic 51;
   Some (tt_radius r50, tt_converged r50, tt_radius r51,
         F64.geb (F64.of_Z (tt_radius r51)) (tt_filteredRadius r50),
         tt_converged r51))
  = Some (2 ^ 63, false, 2 ^ 63, true, false) ∧
  (r ← floor_topic 2000;
   Some (tt_radius r, F64.geb (F64.of_Z (tt_radius r)) (tt_filteredRadius r), tt_converged r))
  = Some (2 ^ 63, true, false).
Proof. vm_compute. repeat split; reflexivity. Qed.

(** A new topic is not converged.  While a topic is not
    converged, [adjust] compares the float radius it computed (the
    proposed radius, or [float64(maxRadius)] when the proposal is above
    it; before truncation and before the floor) with the filtered
    radius: if it is not below, the topic becomes converged and the
    filter keeps its value, and otherwise the filter moves towards it by
    the factor 0.05.  A converged topic stays converged, in [adjust] and
    through every sequence of calls on the store. *)
Theorem convergence_detection `{GoEnv} :
  (∀ t register, tt_converged (newtopicTickets t register) = false) ∧
  (∀ wait minRadius r, tt_converged r = false →
     tt_converged (adjustWith wait minRadius r) =
       F64.geb (filteredInput r wait) (tt_filteredRadius r) ∧
     tt_filteredRadius (adjustWith wait minRadius r) =
       if F64.geb (filteredInput r wait) (tt_filteredRadius r) then tt_filteredRadius r
       else F64.add (tt_filteredRadius r)
              (F64.mul (F64.sub (filteredInput r wait) (tt_filteredRadius r)) F64.c0_05)) ∧
  (∀ wait minRadius r, tt_converged r = true →
     tt_converged (adjustWith wait minRadius r) = true ∧
     tt_filteredRadius (adjustWith wait minRadius r) = tt_filteredRadius r) ∧
  (∀ ops h s h' s' t, run ops (h, s) = Some (h', s') →
     converged_in s t → converged_in s' t).
Proof.
  split; [done|]. split; [apply adjustWith_filter|].
  split; [apply adjustWith_converged|]. intros ops h s h' s' t. apply run_converged.
Qed.

Lemma convergence_detection_witness :
  let ops := [OpFetch ["t"%string] 1500000000000; OpAdd rnd_one 1500000000000 0%nat] in
  converged_in example_world.2 "t" ∧
  ∃ h' s', @run example_env ops example_world = Some (h', s') ∧ converged_in s' "t".
Proof.
  intros ops.
  assert (converged_in example_world.2 "t") as Hc
    by (eexists; split; vm_compute; reflexivity).
  split; [exact Hc|].
  destruct (@run example_env ops example_world) as [[h' s']|] eqn:Hr;
    [|vm_compute in Hr; discriminate].
  exists h', s'. split; [reflexivity|].
  exact (proj2 (proj2 (proj2 (@convergence_detection example_env)))
           ops example_world.1 example_world.2 h' s' "t" Hr Hc).
Defined.

(** ** Well-formed stores and the calls that cannot panic *)

(** A reference names a ticket of the heap and one of its slots. *)
Definition slot_ok (h : list ticket) (ref : ticketRef) : Prop :=
  ∃ t, h !! ref_t ref = Some t ∧ (ref_idx ref < length (tk_regTime t))%nat.

(** Every ticket has a registration time for each of its topics. *)
Definition heap_ok (h : list ticket) : Prop :=
  ∀ p t, h !! p = Some t → (length (tk_topics t) ≤ length (tk_regTime t))%nat.

Definition topic_ok (h : list ticket) (r : topicTickets) : Prop :=
  ∀ tm g l, tt_time r = Some tm → tm !! g = Some l → Forall (slot_ok h) l.

Definition store_ok (h : list ticket) (s : ticketStore) : Prop :=
  ∀ t r, s_topics s !! t = Some r → topic_ok h r.

Definition wf (w : world) : Prop := heap_ok w.1 ∧ store_ok w.1 w.2.

(** [h'] has the tickets of [h], with other reference counts, and maybe
    more. *)
Definition heap_le (h h' : list ticket) : Prop :=
  ∀ p t, h !! p = Some t → ∃ c, h' !! p = Some (set_refCnt c t).

Lemma heap_le_refl h : heap_le h h.
Proof. intros p t Hp. exists (tk_refCnt t). rewrite Hp. by destruct t. Qed.

Lemma heap_le_trans h1 h2 h3 : heap_le h1 h2 → heap_le h2 h3 → heap_le h1 h3.
Proof.
  intros H12 H23 p t Hp. destruct (H12 _ _ Hp) as [c Hc].
  destruct (H23 _ _ Hc) as [c' Hc']. exists c'. by rewrite Hc'.
Qed.

Lemma heap_le_insert h p t c :
  h !! p = Some t → heap_le h (<[p := set_refCnt c t]> h).
Proof.
  intros Hp q t' Hq. destruct (decide (q = p)) as [->|Hne].
  - exists c. rewrite list_lookup_insert_eq by (by eapply lookup_lt_Some). congruence.
  - exists (tk_refCnt t'). rewrite list_lookup_insert_ne by done. rewrite Hq. by destruct t'.
Qed.

Lemma refCnt_changed_at_le p h h' : refCnt_changed_at p h h' → heap_le h h'.
Proof.
  intros (_ & Ho & Hp) q t Hq. destruct (decide (q = p)) as [->|Hne]; [by apply Hp|].
  exists (tk_refCnt t). rewrite Ho by done. rewrite Hq. by destruct t.
Qed.

Lemma slot_ok_le h h' ref : heap_le h h' → slot_ok h ref → slot_ok h' ref.
Proof.
  intros Hle (t & Ht & Hi). destruct (Hle _ _ Ht) as [c Hc]. by exists (set_refCnt c t).
Qed.

Lemma heap_ok_le h h' : length h' = length h → heap_le h h' → heap_ok h → heap_ok h'.
Proof.
  intros Hlen Hle Hok p t' Hp.
  assert (is_Some (h !! p)) as [t Ht].
  { apply lookup_lt_is_Some. rewrite <- Hlen. by eapply lookup_lt_Some. }
  destruct (Hle _ _ Ht) as [c Hc]. rewrite Hc in Hp. injection Hp as <-.
  by apply (Hok _ _ Ht).
Qed.

Lemma topic_ok_le h h' r : heap_le h h' → topic_ok h r → topic_ok h' r.
Proof.
  intros Hle Hok tm g l Htm Hl. eapply Forall_impl; [by eapply Hok|].
  intros ref. by apply slot_ok_le.
Qed.

Lemma store_ok_le h h' s : heap_le h h' → store_ok h s → store_ok h' s.
Proof. intros Hle Hok t r Hr. eapply topic_ok_le; [done|]. by eapply Hok. Qed.

Lemma topic_ok_set_time h r tm :
  (∀ g l, tm !! g = Some l → Forall (slot_ok h) l) → topic_ok h (set_time (Some tm) r).
Proof. intros Hok tm' g l [= <-] Hl. by eapply Hok. Qed.

Lemma store_ok_insert h s t r :
  store_ok h s → topic_ok h r → store_ok h (set_topics (<[t := r]> (s_topics s)) s).
Proof.
  intros Hs Hr t' r'. cbn [s_topics set_topics].
  destruct (decide (t = t')) as [->|Hne].
  - rewrite lookup_insert_eq. by intros [= <-].
  - rewrite lookup_insert_ne by done. apply Hs.
Qed.

Section Total.
Context `{GoEnv}.

Lemma adjust_total h localTime ref minRadius r :
  slot_ok h ref → is_Some (adjust h localTime ref minRadius r).
Proof.
  intros (t & Ht & Hi). unfold adjust, waitOf. rewrite Ht. cbn [mbind option_bind].
  apply lookup_lt_is_Some in Hi as [regTime ->]. by eexists.
Qed.

Lemma adjust_time h localTime ref minRadius r r' :
  adjust h localTime ref minRadius r = Some r' → tt_time r' = tt_time r.
Proof.
  unfold adjust. destruct (waitOf _ _ _); [|discriminate].
  intros [= <-]. apply adjustWith_frame.
Qed.

Lemma add_slot_total rnd localTime p i topic h s t :
  h !! p = Some t → (i < length (tk_regTime t))%nat →
  is_Some (add_slot rnd localTime p i topic (h, s)).
Proof.
  intros Ht Hi. unfold add_slot. rewrite Ht. cbn [mbind option_bind].
  destruct (s_topics s !! topic) as [tts|]; [|by eexists].
  destruct (isInRadius tts t); [|by eexists].
  destruct (adjust_total h localTime (Build_ticketRef p i) (s_minRadius s) tts)
    as [tts' ->]; [by exists t|].
  cbn [mbind option_bind]. destruct (tt_converged tts'); [|by eexists].
  apply lookup_lt_is_Some in Hi as [regTime ->]. cbn [mbind option_bind].
  destruct (tt_time tts'); [|by eexists]. destruct (F64.ltb _ _); by eexists.
Qed.

Lemma add_slot_wf rnd localTime p i topic h s h' s' :
  add_slot rnd localTime p i topic (h, s) = Some (h', s') →
  store_ok h s → store_ok h' s'.
Proof.
  intros Hs Hok. pose proof (add_slot_heap _ _ _ _ _ _ _ _ _ Hs) as [Hle%refCnt_changed_at_le _].
  apply add_slot_cases in Hs as (t & Ht & Hcases).
  destruct Hcases as [(-> & -> & _)|(tts & tts' & Htts & _ & Hadj & Hcases)]; [done|].
  pose proof (adjust_time _ _ _ _ _ _ Hadj) as Htime.
  assert (topic_ok h tts') as Hok'.
  { intros tm g l Htm. rewrite Htime in Htm. by eapply Hok. }
  destruct Hcases as [(-> & -> & _)|(regTime & tm & _ & Hreg & Htm & _ & -> & ->)].
  - by apply store_ok_insert.
  - apply store_ok_insert; [by eapply store_ok_le|].
    apply topic_ok_set_time. intros g l.
    destruct (decide (g = regTime / ticketGroupTime)) as [->|Hne].
    + rewrite lookup_insert_eq. intros [= <-]. apply Forall_app. split.
      * destruct (tm !! (regTime / ticketGroupTime)) as [l|] eqn:Hl; cbn; [|done].
        eapply Forall_impl; [by eapply Hok'|]. intros ref. by apply slot_ok_le.
      * apply Forall_singleton. eapply slot_ok_le; [done|]. exists t. split; [done|].
        by eapply lookup_lt_Some.
    + rewrite lookup_insert_ne by done. intros Hl.
      eapply Forall_impl; [by eapply Hok'|]. intros ref. by apply slot_ok_le.
Qed.

Lemma add_loop_total rnd localTime p topics : ∀ i h s t,
  h !! p = Some t → (i + length topics ≤ length (tk_regTime t))%nat →
  store_ok h s →
  ∃ h' s', add_loop rnd localTime p i topics (h, s) = Some (h', s') ∧
           store_ok h' s'.
Proof.
  induction topics as [|topic topics IH]; intros i h s t Ht Hlen Hok.
  - by exists h, s.
  - cbn [length] in Hlen. cbn [add_loop].
    destruct (add_slot_total (rnd i) localTime p i topic h s t Ht) as [[h1 s1] Hs]; [lia|].
    rewrite Hs. cbn [mbind option_bind].
    pose proof (add_slot_heap _ _ _ _ _ _ _ _ _ Hs) as [(_ & _ & Hp) _].
    destruct (Hp _ Ht) as [c Hc].
    apply (IH (S i) h1 s1 (set_refCnt c t)); [done|cbn; lia|].
    by eapply add_slot_wf.
Qed.

Lemma add_total rnd localTime p h s :
  (p < length h)%nat → heap_ok h → store_ok h s →
  ∃ h' s', add rnd localTime p (h, s) = Some (h', s') ∧
           heap_ok h' ∧ store_ok h' s' ∧ length h' = length h.
Proof.
  intros Hp Hh Hs. apply lookup_lt_is_Some in Hp as [t Ht].
  unfold add. rewrite Ht. cbn [mbind option_bind].
  destruct (s_nodes s !! ID (tk_node t)); [by exists h, s|].
  set (s0 := if s_lastGroupFetched s =? 0 then _ else s).
  assert (store_ok h s0) as Hs0 by (subst s0; by destruct (_ =? _)).
  destruct (add_loop_total rnd localTime p (tk_topics t) 0 h s0 t Ht) as (h1 & s1 & Hl & Hok1);
    [by apply (Hh _ _ Ht)|done|].
  rewrite Hl. cbn [mbind option_bind].
  pose proof (add_loop_heap _ _ _ _ _ _ _ _ _ Hl) as [Hch _].
  pose proof Hch as (Hlen & _ & Hpp). destruct (Hpp _ Ht) as [c Hc]. rewrite Hc.
  cbn [mbind option_bind].
  assert (heap_ok h1) as Hh1.
  { eapply heap_ok_le; [done| |done]. by eapply refCnt_changed_at_le. }
  destruct (0 <? _); eexists _, _; (split; [done|]); auto.
Qed.

(** *** [fetch] *)

Lemma fetch_scan_total localTime fuel : ∀ arr len i res h nodes,
  Forall (slot_ok h) arr → (len ≤ length arr)%nat →
  ∃ arr' res' h' nodes',
    fetch_scan fuel localTime arr len i res h nodes = Some (arr', res', h', nodes') ∧
    Forall (slot_ok h') arr' ∧ heap_le h h' ∧ length h' = length h ∧
    length arr' = length arr.
Proof.
  induction fuel as [|fuel IH]; intros arr len i res h nodes Harr Hlen.
  - exists arr, res, h, nodes. split; [done|]. auto using heap_le_refl.
  - rewrite fetch_scan_S. destruct (Nat.ltb_spec i len) as [Hi|Hi];
      [|exists arr, res, h, nodes; split; [done|]; auto using heap_le_refl].
    destruct (lookup_lt_is_Some_2 arr i) as [t Ht]; [lia|]. rewrite Ht.
    cbn [mbind option_bind].
    pose proof (proj1 (Forall_lookup _ _) Harr _ _ Ht) as (tk & Htk & Hidx).
    rewrite Htk. cbn [mbind option_bind].
    apply lookup_lt_is_Some in Hidx as [regTime Hreg]. rewrite Hreg.
    cbn [mbind option_bind]. destruct (regTime <=? localTime); [|by apply IH].
    cbn zeta.
    set (arr1 := take i arr ++ drop (S i) (take len arr) ++ drop (len - 1) arr).
    set (h1 := <[ref_t t := set_refCnt (tk_refCnt tk - 1) tk]> h).
    assert (heap_le h h1) as Hle by (by apply heap_le_insert).
    assert (length arr1 = length arr) as Hlen1.
    { subst arr1. rewrite !length_app, !length_drop, !length_take. lia. }
    destruct (IH arr1 (len - 1)%nat i (res ++ [ref_t t]) h1
                (if tk_refCnt (set_refCnt (tk_refCnt tk - 1) tk) =? 0
                 then delete (ID (tk_node (set_refCnt (tk_refCnt tk - 1) tk))) nodes
                 else nodes))
      as (arr' & res' & h' & nodes' & Hs & Harr' & Hle' & Hlenh & Hlena).
    + subst arr1. rewrite !Forall_app. repeat split.
      * apply Forall_take. eapply Forall_impl; [done|]. intros ?. by apply slot_ok_le.
      * apply Forall_drop, Forall_take. eapply Forall_impl; [done|].
        intros ?. by apply slot_ok_le.
      * apply Forall_drop. eapply Forall_impl; [done|]. intros ?. by apply slot_ok_le.
    + lia.
    + exists arr', res', h', nodes'. split; [done|]. split; [done|].
      split; [by eapply heap_le_trans|]. split; [|lia].
      rewrite Hlenh. subst h1. apply length_insert.
Qed.

Lemma fetch_group_total localTime ltGroup g r res h nodes :
  topic_ok h r →
  ∃ r' res' h' nodes',
    fetch_group localTime ltGroup g (r, res, h, nodes) = Some (r', res', h', nodes') ∧
    topic_ok h' r' ∧ heap_le h h' ∧ length h' = length h.
Proof.
  intros Hok. unfold fetch_group.
  assert (Forall (slot_ok h) (bucket r g)) as Hb.
  { unfold bucket. destruct (tt_time r) as [tm|] eqn:Htm; [|done].
    destruct (tm !! g) as [l|] eqn:Hl; [|done]. by eapply Hok. }
  destruct (fetch_scan_total localTime (length (bucket r g)) (bucket r g)
              (length (bucket r g)) 0 res h nodes Hb)
    as (arr' & res' & h' & nodes' & Hs & Harr' & Hle & Hlenh & _); [done|].
  rewrite Hs. cbn [mbind option_bind]. eexists _, _, _, _. split; [done|].
  split; [|done].
  destruct (tt_time r) as [tm|] eqn:Htm; [|by intros ? ? ? [=]].
  apply topic_ok_set_time. intros g' l Hl.
  assert (∀ g0 l0,
            match tm !! g with Some _ => <[g := arr']> tm | None => tm end !! g0 = Some l0 →
            Forall (slot_ok h') l0) as Hins.
  { intros g0 l0. destruct (tm !! g) eqn:Hg.
    - destruct (decide (g = g0)) as [->|Hne].
      + rewrite lookup_insert_eq. by intros [= <-].
      + rewrite lookup_insert_ne by done. intros Hl0.
        eapply Forall_impl; [by eapply Hok|]. intros ?. by apply slot_ok_le.
    - intros Hl0. eapply Forall_impl; [by eapply Hok|]. intros ?. by apply slot_ok_le. }
  destruct (decide (g = ltGroup)); [by eapply Hins|].
  apply lookup_delete_Some in Hl as [_ Hl]. by eapply Hins.
Qed.

Lemma fetch_groups_total localTime ltGroup gs : ∀ r res h nodes,
  topic_ok h r →
  ∃ r' res' h' nodes',
    fetch_groups localTime ltGroup gs (r, res, h, nodes) = Some (r', res', h', nodes') ∧
    topic_ok h' r' ∧ heap_le h h' ∧ length h' = length h.
Proof.
  induction gs as [|g gs IH]; intros r res h nodes Hok.
  - exists r, res, h, nodes. auto using heap_le_refl.
  - cbn [fetch_groups].
    destruct (fetch_group_total localTime ltGroup g r res h nodes Hok)
      as (r1 & res1 & h1 & nodes1 & Hg & Hok1 & Hle1 & Hlen1).
    rewrite Hg. cbn [mbind option_bind].
    destruct (IH r1 res1 h1 nodes1 Hok1) as (r' & res' & h' & nodes' & Hgs & Hok' & Hle' & Hlen').
    exists r', res', h', nodes'. split; [done|]. split; [done|].
    split; [by eapply heap_le_trans|congruence].
Qed.

Lemma fetch_topics_total localTime ltGroup order : ∀ res h s,
  store_ok h s →
  ∃ res' h' s',
    fetch_topics localTime ltGroup order res (h, s) = Some (res', (h', s')) ∧
    store_ok h' s' ∧ heap_le h h' ∧ length h' = length h.
Proof.
  induction order as [|topic order IH]; intros res h s Hok.
  - exists res, h, s. auto using heap_le_refl.
  - cbn [fetch_topics]. destruct (s_topics s !! topic) as [r|] eqn:Hr; [|by apply IH].
    destruct (fetch_groups_total localTime ltGroup
                (seqZ (s_lastGroupFetched s) (ltGroup - s_lastGroupFetched s + 1))
                r res h (s_nodes s))
      as (r1 & res1 & h1 & nodes1 & Hg & Hok1 & Hle1 & Hlen1); [by eapply Hok|].
    rewrite Hg. cbn [mbind option_bind].
    edestruct IH as (res' & h' & s' & Hf & Hok' & Hle' & Hlen').
    2: { exists res', h', s'. split; [exact Hf|]. split; [done|].
         split; [by eapply heap_le_trans|congruence]. }
    intros t r0. cbn [s_topics set_nodes set_topics].
    destruct (decide (topic = t)) as [->|Hne].
    + rewrite lookup_insert_eq. by intros [= <-].
    + rewrite lookup_insert_ne by done. intros Hr0.
      eapply topic_ok_le; [done|]. by eapply Hok.
Qed.

Lemma fetch_total order localTime h s :
  heap_ok h → store_ok h s →
  ∃ res h' s', fetch order localTime (h, s) = Some (res, (h', s')) ∧
               heap_ok h' ∧ store_ok h' s' ∧ length h' = length h.
Proof.
  intros Hh Hs. unfold fetch.
  destruct (fetch_topics_total localTime (localTime / ticketGroupTime) order [] h s Hs)
    as (res & h' & s' & Hf & Hok & Hle & Hlen).
  rewrite Hf. cbn [mbind option_bind]. eexists _, _, _. split; [done|].
  split; [by eapply heap_ok_le|]. split; [|done]. done.
Qed.

Lemma step_total o w :
  wf w → valid_op w o → ∃ w', step o w = Some w' ∧ wf w'.
Proof.
  destruct w as [h s]. intros [Hh Hs] Hv.
  destruct o as [t reg|lt ts n p|rnd lt p|order lt|tg fd]; cbn [step fst snd].
  - eexists. split; [done|]. split; [done|]. cbn [fst snd]. unfold addTopic.
    destruct (s_topics s !! t) eqn:Ht; [done|].
    apply store_ok_insert; [done|]. unfold newtopicTickets. intros tm g l Htm Hl.
    cbn in Htm. destruct reg; [|done]. injection Htm as <-. by rewrite lookup_empty in Hl.
  - destruct Hv as (pg & Hd & Hlen). unfold pongToTicket. rewrite Hd.
    cbn [mbind option_bind]. eexists. split; [done|]. split; cbn [fst snd].
    + intros q t Hq. apply lookup_app_Some in Hq as [Hq|[_ Hq]]; [by eapply Hh|].
      apply list_lookup_singleton_Some in Hq as [_ <-]. cbn. rewrite length_fmap. lia.
    + eapply store_ok_le; [|done]. intros q t Hq. exists (tk_refCnt t).
      cbn [fst] in *. rewrite lookup_app_l by (by eapply lookup_lt_Some). rewrite Hq. by destruct t.
  - destruct (add_total rnd lt p h s) as (h' & s' & Ha & Hh' & Hs' & _); [done..|].
    exists (h', s'). by split.
  - destruct (fetch_total order lt h s) as (res & h' & s' & Hf & Hh' & Hs' & _); [done..|].
    rewrite Hf. exists (h', s'). by split.
  - eexists. split; [done|]. split; [done|]. cbn [fst snd].
    intros t r. unfold adjustMinRadius. destruct (_ <? _); apply Hs.
Qed.

Lemma run_total ops : ∀ w,
  wf w → valid_ops ops w → ∃ w', run ops w = Some w' ∧ wf w'.
Proof.
  induction ops as [|o ops IH]; intros w Hwf Hv.
  - by exists w.
  - destruct Hv as [Hv Hrest]. cbn [run].
    destruct (step_total o w Hwf Hv) as (w1 & Hs & Hwf1). rewrite Hs in *.
    cbn [mbind option_bind]. by apply IH.
Qed.

Lemma wf_init : wf init.
Proof. split; [intros p t Hp|intros t r Hr]; cbn in *; done. Qed.

Lemma nextTarget_is_Some r63 t s :
  is_Some (nextTarget r63 t s) ↔ ∃ r, s_topics s !! t = Some r ∧ 2 <= tt_radius r.
Proof.
  unfold nextTarget, tt_nextTarget. destruct (s_topics s !! t) as [r|]; cbn [mbind option_bind].
  - destruct (Z.ltb_spec 0 (tt_radius r / 2)) as [Hlt|Hge].
    + split; [|by eexists]. intros _. exists r. split; [done|].
      destruct (Z.le_gt_cases 2 (tt_radius r)) as [|Hlt2]; [done|].
      assert (tt_radius r / 2 <= 0); [|lia].
      destruct (Z.le_gt_cases 0 (tt_radius r)).
      * rewrite Z.div_small; lia.
      * assert (tt_radius r / 2 < 0) by (apply Z.div_lt_upper_bound; lia). lia.
    + split; [by intros [? [=]]|]. intros (r' & [= <-] & Hr).
      assert (1 <= tt_radius r / 2) by (apply Z.div_le_lower_bound; lia). lia.
  - split; [by intros [? [=]]|]. by intros (r & [=] & _).
Qed.

Lemma ticketsInWindow_is_Some now t s :
  is_Some (ticketsInWindow now t s) ↔ is_Some (s_topics s !! t).
Proof.
  unfold ticketsInWindow. destruct (s_topics s !! t); cbn [mbind option_bind].
  - split; by eexists.
  - split; by intros [? [=]].
Qed.

(** Fuel beyond [len - i] changes nothing: the scan has ended by
    then. *)
Lemma fetch_scan_fuel localTime fuel : ∀ arr len i res h nodes,
  (len - i ≤ fuel)%nat →
  fetch_scan (S fuel) localTime arr len i res h nodes =
  fetch_scan fuel localTime arr len i res h nodes.
Proof.
  induction fuel as [|fuel IH]; intros arr len i res h nodes Hf.
  - rewrite fetch_scan_S. destruct (Nat.ltb_spec i len); [lia|reflexivity].
  - rewrite (fetch_scan_S (S fuel) localTime arr len i res h nodes),
      (fetch_scan_S fuel localTime arr len i res h nodes).
    destruct (Nat.ltb_spec i len); [|reflexivity].
    destruct (arr !! i) as [t|]; [|reflexivity]. cbn [mbind option_bind].
    destruct (h !! ref_t t) as [tk|]; [|reflexivity]. cbn [mbind option_bind].
    destruct (tk_regTime tk !! ref_idx t) as [regTime|]; [|reflexivity].
    cbn [mbind option_bind]. destruct (regTime <=? localTime); apply IH; lia.
Qed.

(** What [add] does with a slot whose topic is not tracked or whose
    node is out of radius: nothing. *)
Lemma add_slot_skips rnd localTime p i topic h s t :
  h !! p = Some t →
  (s_topics s !! topic = None ∨
   ∃ r, s_topics s !! topic = Some r ∧ isInRadius r t = false) →
  add_slot rnd localTime p i topic (h, s) = Some (h, s).
Proof.
  intros Ht Hskip. unfold add_slot. rewrite Ht. cbn [mbind option_bind].
  destruct Hskip as [->|(r & -> & ->)]; done.
Qed.
End Total.

(** C6, amended.  Every sequence of calls whose inputs the transport
    layer has validated (a pong payload with one wait period per topic,
    and for [add] a ticket made by [pongToTicket]) runs to its end
    without a panic: [addTopic], [pongToTicket], [add], [fetch] and
    [adjustMinRadius] all return.  In the store it reaches, a slot of a
    ticket whose topic is not tracked or whose node is out of radius is
    skipped by [add] without any change, and [getNodeTicket] is a plain
    lookup.  [nextTarget] returns exactly when the topic is tracked with
    a radius of at least 2, and [ticketsInWindow] exactly when the topic
    is tracked: on a topic that is not tracked both panic. *)
Theorem validated_calls_return `{GoEnv} ops :
  valid_ops ops init →
  ∃ h s, run ops init = Some (h, s) ∧
    (∀ rnd localTime p i topic t,
       h !! p = Some t →
       (s_topics s !! topic = None ∨
        ∃ r, s_topics s !! topic = Some r ∧ isInRadius r t = false) →
       add_slot rnd localTime p i topic (h, s) = Some (h, s)) ∧
    (∀ o, valid_op (h, s) o → is_Some (step o (h, s))) ∧
    (∀ id, getNodeTicket id s = s_nodes s !! id) ∧
    (∀ r63 t, is_Some (nextTarget r63 t s) ↔
              ∃ r, s_topics s !! t = Some r ∧ 2 <= tt_radius r) ∧
    (∀ now t, is_Some (ticketsInWindow now t s) ↔ is_Some (s_topics s !! t)).
Proof.
  intros Hv. destruct (run_total ops init wf_init Hv) as ([h s] & Hr & Hwf).
  exists h, s. split; [done|]. split; [intros; by eapply add_slot_skips|].
  split; [|split; [done|split; intros; [apply nextTarget_is_Some|apply ticketsInWindow_is_Some]]].
  intros o Ho. destruct (step_total o (h, s) Hwf Ho) as (w' & -> & _). by eexists.
Qed.

Lemma validated_calls_return_witness :
  let ops := scenario_once 600000000000 ++ [OpFetch ["t"%string] 1500000000000] in
  @valid_ops example_env ops init ∧
  ∃ h s, @run example_env ops init = Some (h, s) ∧
    (∀ rnd localTime p i topic t,
       h !! p = Some t →
       (s_topics s !! topic = None ∨
        ∃ r, s_topics s !! topic = Some r ∧ isInRadius r t = false) →
       @add_slot example_env rnd localTime p i topic (h, s) = Some (h, s)) ∧
    (∀ o, valid_op (h, s) o → is_Some (@step example_env o (h, s))) ∧
    (∀ id, getNodeTicket id s = s_nodes s !! id) ∧
    (∀ r63 t, is_Some (nextTarget r63 t s) ↔
              ∃ r, s_topics s !! t = Some r ∧ 2 <= tt_radius r) ∧
    (∀ now t, is_Some (ticketsInWindow now t s) ↔ is_Some (s_topics s !! t)).
Proof.
  intros ops.
  assert (@valid_ops example_env ops init) as Hv.
  { vm_compute. repeat split; try lia. eexists. split; reflexivity. }
  split; [exact Hv|]. exact (@validated_calls_return example_env ops Hv).
Defined.

(** ** Rounding to binary64

    What the threshold of [add] and the estimator of [adjustMinRadius]
    need of round-to-nearest: it is exact on representable numbers and
    never crosses one. *)

Module Round.

Definition fexp64 (e : Z) : Z := Z.max (e - 53) (-1074).

(** The number of binary digits of a positive mantissa. *)
Definition digits (m : positive) : Z := Zpos (digits2_pos m).

Lemma fexp_eq e : fexp 53 1024 e = fexp64 e.
Proof. reflexivity. Qed.

Lemma digits_bounds m : 2 ^ (digits m - 1) <= Zpos m < 2 ^ digits m.
Proof.
  unfold digits. induction m as [m IH|m IH|]; cbn [digits2_pos].
  - rewrite Pos2Z.inj_succ. replace (Z.succ (Zpos (digits2_pos m)) - 1) with (Zpos (digits2_pos m)) by lia.
    rewrite Z.pow_succ_r by lia.
    replace (2 ^ Zpos (digits2_pos m)) with (2 * 2 ^ (Zpos (digits2_pos m) - 1)) in *
      by (rewrite <- Z.pow_succ_r by lia; f_equal; lia).
    lia.
  - rewrite Pos2Z.inj_succ. replace (Z.succ (Zpos (digits2_pos m)) - 1) with (Zpos (digits2_pos m)) by lia.
    rewrite Z.pow_succ_r by lia.
    replace (2 ^ Zpos (digits2_pos m)) with (2 * 2 ^ (Zpos (digits2_pos m) - 1)) in *
      by (rewrite <- Z.pow_succ_r by lia; f_equal; lia).
    lia.
  - cbn. lia.
Qed.

Lemma digits_pos m : 1 <= digits m.
Proof. unfold digits. lia. Qed.

(** [digits] is the only [d] with [2^(d-1) <= m < 2^d]. *)
Lemma digits_unique m d : 2 ^ (d - 1) <= Zpos m < 2 ^ d → digits m = d.
Proof.
  intros [Hlo Hhi]. pose proof (digits_bounds m) as [Hl Hh]. pose proof (digits_pos m).
  assert (0 <= d). { destruct (Z.le_gt_cases 0 d); [done|]. rewrite Z.pow_neg_r in Hhi; lia. }
  assert (digits m - 1 < d).
  { apply (Z.pow_lt_mono_r_iff 2); [lia|lia|]. lia. }
  assert (d - 1 < digits m).
  { destruct (Z.le_gt_cases 1 d).
    - apply (Z.pow_lt_mono_r_iff 2); [lia|lia|]. lia.
    - lia. }
  lia.
Qed.

Lemma iter_pos_nat {A} (f : A → A) p : ∀ x, SpecFloat.iter_pos f p x = Nat.iter (Pos.to_nat p) f x.
Proof.
  pose proof (λ n, Nat.iter_swap n A f) as Hswap.
  induction p as [p IH|p IH|]; intros x; cbn [SpecFloat.iter_pos].
  - rewrite !IH, Pos2Nat.inj_xI. rewrite Nat.iter_succ, !Hswap.
    replace (2 * Pos.to_nat p)%nat with (Pos.to_nat p + Pos.to_nat p)%nat by lia.
    by rewrite Nat.iter_add.
  - rewrite !IH, Pos2Nat.inj_xO.
    replace (2 * Pos.to_nat p)%nat with (Pos.to_nat p + Pos.to_nat p)%nat by lia.
    by rewrite Nat.iter_add.
  - done.
Qed.

Lemma shr_1_spec mrs :
  0 <= shr_m mrs →
  shr_m (shr_1 mrs) = shr_m mrs / 2 ∧
  shr_r (shr_1 mrs) = Z.odd (shr_m mrs) ∧
  shr_s (shr_1 mrs) = shr_r mrs || shr_s mrs.
Proof.
  destruct mrs as [m r s]. cbn [shr_m shr_r shr_s]. intros Hm.
  destruct m as [|[p|p|]|p]; cbn [shr_1 shr_m shr_r shr_s]; try lia.
  - done.
  - split; [|done]. rewrite Pos2Z.inj_xI. apply Z.div_unique with 1; lia.
  - split; [|done]. rewrite Pos2Z.inj_xO. apply Z.div_unique with 0; lia.
  - done.
Qed.

Lemma shr_iter_spec m k :
  0 <= m →
  shr_m (Nat.iter k shr_1 (Build_shr_record m false false)) = m / 2 ^ Z.of_nat k ∧
  (m mod 2 ^ Z.of_nat k = 0 →
   shr_r (Nat.iter k shr_1 (Build_shr_record m false false)) = false ∧
   shr_s (Nat.iter k shr_1 (Build_shr_record m false false)) = false).
Proof.
  intros Hm. induction k as [|k IH].
  - cbn. rewrite Z.div_1_r. auto.
  - destruct IH as [IHm IHrs]. rewrite Nat.iter_succ.
    set (res := Nat.iter k shr_1 _) in *.
    assert (0 <= shr_m res) as Hres by (rewrite IHm; apply Z.div_pos; lia).
    destruct (shr_1_spec res Hres) as (Hm1 & Hr1 & Hs1).
    rewrite Nat2Z.inj_succ, Z.pow_succ_r by lia. split.
    + rewrite Hm1, IHm, Z.div_div by lia. f_equal. lia.
    + intros Hmod.
      assert (m mod 2 ^ Z.of_nat k = 0) as Hmodk.
      { apply Z.mod_divide in Hmod as [q Hq]; [|lia].
        apply Z.mod_divide; [lia|]. exists (q * 2). lia. }
      destruct (IHrs Hmodk) as [Hr Hs]. rewrite Hr1, Hs1, Hr, Hs, IHm. split; [|done].
      apply Z.mod_divide in Hmod as [q Hq]; [|lia].
      replace m with ((2 * q) * 2 ^ Z.of_nat k) by lia.
      rewrite Z.div_mul by lia. rewrite Z.odd_mul. done.
Qed.

Lemma round_nearest_even_bounds m l :
  m <= round_nearest_even m l <= m + 1 ∧ round_nearest_even m loc_Exact = m.
Proof.
  split; [|done]. destruct l as [|[]]; cbn; try lia. destruct (Z.even m); lia.
Qed.

(** The first shift of [binary_round_aux] on an exact input. *)
Lemma shr_fexp_spec (M : positive) e :
  let n := fexp64 (digits M + e) - e in
  0 <= n →
  ∃ mrs, shr_fexp 53 1024 (Zpos M) e loc_Exact = (mrs, e + n) ∧
         shr_m mrs = Zpos M / 2 ^ n ∧
         (Zpos M mod 2 ^ n = 0 → loc_of_shr_record mrs = loc_Exact).
Proof.
  intros n Hn. unfold shr_fexp. cbn [Zdigits2 shr_record_of_loc].
  rewrite fexp_eq. fold (digits M). fold n. unfold shr.
  destruct n as [|p|p] eqn:Hp; [| |lia].
  - eexists. split; [f_equal; lia|]. cbn. rewrite Z.div_1_r. auto.
  - rewrite iter_pos_nat.
    destruct (shr_iter_spec (Zpos M) (Pos.to_nat p)) as [Hm Hrs]; [lia|].
    rewrite positive_nat_Z in *. eexists. split; [done|]. split; [done|].
    intros Hmod. destruct (Hrs Hmod) as [Hr Hs].
    destruct (Nat.iter _ _ _) as [m' r' s']. cbn in *. by subst.
Qed.

(** The result of [binary_round_aux] once the first shift and the
    rounding gave the mantissa [m2] at exponent [e1]. *)
Definition finish (sx : bool) (m2 e1 : Z) : spec_float :=
  if m2 <? 2 ^ 53 then
    match m2 with
    | Z0 => S754_zero sx
    | Zpos m => if e1 <=? 971 then S754_finite sx m e1 else S754_infinity sx
    | Zneg _ => S754_nan
    end
  else if e1 + 1 <=? 971 then S754_finite sx (2 ^ 52)%positive (e1 + 1)
  else S754_infinity sx.

Lemma shr_fexp_id m e :
  0 <= m → fexp64 (Zdigits2 m + e) - e <= 0 →
  shr_fexp 53 1024 m e loc_Exact = (Build_shr_record m false false, e).
Proof.
  intros Hm Hn. unfold shr_fexp. rewrite fexp_eq. cbn [shr_record_of_loc].
  unfold shr. destruct (fexp64 _ - e); [done|lia|done].
Qed.

Lemma div_pow_lt (M : positive) n :
  0 <= n → digits M - 53 <= n → Zpos M / 2 ^ n < 2 ^ 53.
Proof.
  intros Hn Hd. pose proof (digits_bounds M) as [_ Hhi]. pose proof (digits_pos M).
  apply Z.div_lt_upper_bound; [lia|]. rewrite <- Z.pow_add_r by lia.
  eapply Z.lt_le_trans; [exact Hhi|]. apply Z.pow_le_mono_r; lia.
Qed.

Lemma binary_round_aux_spec sx (M : positive) e :
  let n := fexp64 (digits M + e) - e in
  0 <= n →
  ∃ m2, Zpos M / 2 ^ n <= m2 <= Zpos M / 2 ^ n + 1 ∧ m2 <= 2 ^ 53 ∧
        (Zpos M mod 2 ^ n = 0 → m2 = Zpos M / 2 ^ n) ∧
        binary_round_aux 53 1024 sx (Zpos M) e loc_Exact = finish sx m2 (e + n).
Proof.
  intros n Hn. destruct (shr_fexp_spec M e Hn) as (mrs & Hshr & Hm & Hex).
  fold n in Hshr, Hm, Hex.
  assert (n = Z.max (digits M + e - 53) (-1074) - e) as Hndef by reflexivity.
  pose proof (round_nearest_even_bounds (shr_m mrs) (loc_of_shr_record mrs)) as [Hb _].
  set (m2 := round_nearest_even (shr_m mrs) (loc_of_shr_record mrs)) in *.
  assert (Zpos M / 2 ^ n < 2 ^ 53) as Hlt by (apply div_pow_lt; lia).
  assert (0 <= Zpos M / 2 ^ n) as Hge by (apply Z.div_pos; lia).
  assert (-1074 <= e + n) as Hemin by lia.
  exists m2. split; [lia|]. split; [lia|]. split.
  { intros Hmod. unfold m2. rewrite (Hex Hmod). cbn. done. }
  unfold binary_round_aux. rewrite Hshr. fold m2. unfold finish.
  destruct (Z.ltb_spec m2 (2 ^ 53)) as [Hsmall|Hbig].
  - rewrite shr_fexp_id; [| lia |].
    + cbn [shr_m]. destruct m2; [done|done|lia].
    + destruct m2 as [|q|q]; [cbn [Zdigits2]; unfold fexp64; lia | | lia].
      cbn [Zdigits2]. fold (digits q). pose proof (digits_bounds q) as [Hlo _].
      pose proof (digits_pos q).
      assert (digits q - 1 < 53) by (apply (Z.pow_lt_mono_r_iff 2); lia).
      unfold fexp64. lia.
  - assert (m2 = 2 ^ 53) as -> by lia.
    unfold shr_fexp. rewrite fexp_eq.
    replace (fexp64 (Zdigits2 (2 ^ 53) + (e + n)) - (e + n)) with 1
      by (change (Zdigits2 (2 ^ 53)) with 54; unfold fexp64; lia).
    cbn. done.
Qed.

(** Order of two positive finite numbers as [SFcompare] decides it: by
    exponent, then by mantissa. *)
Definition fle (m : positive) (e : Z) (m' : positive) (e' : Z) : Prop :=
  e < e' ∨ (e = e' ∧ Zpos m <= Zpos m').

(** Order of the values [M * 2^e] and [M' * 2^e']. *)
Definition vle (M e M' e' : Z) : Prop :=
  M * 2 ^ (e - Z.min e e') <= M' * 2 ^ (e' - Z.min e e').

Lemma vle_scale lo M e M' e' :
  lo <= e → lo <= e' →
  vle M e M' e' ↔ M * 2 ^ (e - lo) <= M' * 2 ^ (e' - lo).
Proof.
  intros H1 H2. unfold vle. set (mn := Z.min e e').
  assert (lo <= mn) by (unfold mn; lia).
  replace (e - lo) with ((e - mn) + (mn - lo)) by lia.
  replace (e' - lo) with ((e' - mn) + (mn - lo)) by lia.
  rewrite !Z.pow_add_r by (unfold mn; lia).
  assert (0 < 2 ^ (mn - lo)) by (apply Z.pow_pos_nonneg; lia).
  rewrite !Z.mul_assoc. split; intros Hle.
  - apply Z.mul_le_mono_nonneg_r; lia.
  - apply Z.mul_le_mono_pos_r in Hle; lia.
Qed.

Lemma vle_scale_1 lo M e M' e' :
  lo <= e → lo <= e' → vle M e M' e' → M * 2 ^ (e - lo) <= M' * 2 ^ (e' - lo).
Proof. intros H1 H2. apply (proj1 (vle_scale lo M e M' e' H1 H2)). Qed.

Lemma vle_scale_2 lo M e M' e' :
  lo <= e → lo <= e' → M * 2 ^ (e - lo) <= M' * 2 ^ (e' - lo) → vle M e M' e'.
Proof. intros H1 H2. apply (proj2 (vle_scale lo M e M' e' H1 H2)). Qed.

Lemma vle_trans M1 e1 M2 e2 M3 e3 :
  vle M1 e1 M2 e2 → vle M2 e2 M3 e3 → vle M1 e1 M3 e3.
Proof.
  set (lo := Z.min e1 (Z.min e2 e3)). intros H12 H23.
  apply (vle_scale_1 lo) in H12; [|unfold lo; lia..].
  apply (vle_scale_1 lo) in H23; [|unfold lo; lia..].
  apply (vle_scale_2 lo); [unfold lo; lia..|]. lia.
Qed.

(** On mantissas of at most 53 digits, against a normal number, the
    order of [SFcompare] is the order of the values. *)
Lemma fle_vle m e m' e' :
  Zpos m < 2 ^ 53 → 2 ^ 52 <= Zpos m' → fle m e m' e' → vle (Zpos m) e (Zpos m') e'.
Proof.
  intros Hm Hm' [Hlt|[-> Hle]].
  - apply (vle_scale_2 e); [lia..|]. rewrite Z.sub_diag, Z.pow_0_r.
    assert (2 ^ 1 <= 2 ^ (e' - e)) by (apply Z.pow_le_mono_r; lia).
    change (2 ^ 1) with 2 in *. nia.
  - apply (vle_scale_2 e'); [lia..|]. rewrite Z.sub_diag, Z.pow_0_r. lia.
Qed.

Lemma digits_53 (m : positive) : digits m = 53 → 2 ^ 52 <= Zpos m < 2 ^ 53.
Proof. intros Hd. pose proof (digits_bounds m) as Hb. rewrite Hd in Hb. exact Hb. Qed.

(** Rounding does not cross a normal number from below. *)
Lemma binary_round_aux_le sx (M : positive) e mc ec :
  0 <= fexp64 (digits M + e) - e →
  digits mc = 53 → -1074 <= ec <= 971 →
  vle (Zpos M) e (Zpos mc) ec →
  match binary_round_aux 53 1024 sx (Zpos M) e loc_Exact with
  | S754_zero _ => True
  | S754_finite s m e' => s = sx ∧ Zpos m < 2 ^ 53 ∧ fle m e' mc ec
  | _ => False
  end.
Proof.
  intros Hn Hdc Hec Hv. apply digits_53 in Hdc as [Hc1 Hc2].
  destruct (binary_round_aux_spec sx M e Hn) as (m2 & Hm2 & Hm2' & Hex & ->).
  set (n := fexp64 (digits M + e) - e) in *.
  assert (n = Z.max (digits M + e - 53) (-1074) - e) as Hndef by reflexivity.
  pose proof (digits_bounds M) as [HMlo HMhi]. pose proof (digits_pos M) as Hd1.
  set (d := digits M) in *.
  assert (0 <= Zpos M / 2 ^ n) as Hge by (apply Z.div_pos; lia).
  assert (e + n <= ec) as He1.
  { destruct (Z.le_gt_cases (e + n) ec) as [|Hgt]; [done|exfalso].
    assert (ec + 54 <= d + e) by lia.
    set (lo := Z.min e ec).
    apply (vle_scale_1 lo) in Hv; [|unfold lo; lia..].
    assert (2 ^ (d - 1) * 2 ^ (e - lo) <= Zpos M * 2 ^ (e - lo)) as H1.
    { apply Z.mul_le_mono_nonneg_r; [apply Z.pow_nonneg|]; lia. }
    assert (Zpos mc * 2 ^ (ec - lo) < 2 ^ 53 * 2 ^ (ec - lo)) as H2.
    { apply Z.mul_lt_mono_pos_r; [apply Z.pow_pos_nonneg; unfold lo|]; lia. }
    rewrite <- Z.pow_add_r in H1, H2 by (unfold lo; lia).
    assert (2 ^ (53 + (ec - lo)) <= 2 ^ (d - 1 + (e - lo))) by (apply Z.pow_le_mono_r; lia).
    lia. }
  assert (e + n = ec → m2 <= Zpos mc) as Hsame.
  { intros Heq. apply (vle_scale_1 e) in Hv; [|lia..].
    rewrite Z.sub_diag, Z.pow_0_r, Z.mul_1_r in Hv.
    replace (ec - e) with n in Hv by lia.
    assert (0 < 2 ^ n) by (apply Z.pow_pos_nonneg; lia).
    assert (Zpos M / 2 ^ n <= Zpos mc) as Hq.
    { apply Z.div_le_upper_bound; lia. }
    destruct (Z.eq_dec (Zpos M / 2 ^ n) (Zpos mc)) as [Hqe|]; [|lia].
    rewrite Hex; [lia|].
    pose proof (Z.div_mod (Zpos M) (2 ^ n) ltac:(lia)) as Hdm.
    pose proof (Z.mod_pos_bound (Zpos M) (2 ^ n) ltac:(lia)).
    rewrite Hqe in Hdm. lia. }
  unfold finish.
  destruct (Z.ltb_spec m2 (2 ^ 53)) as [Hsmall|Hbig].
  - destruct m2 as [|q|q]; [done| |lia].
    destruct (Z.leb_spec (e + n) 971); [|lia].
    split; [done|]. split; [done|].
    destruct (Z.eq_dec (e + n) ec) as [Heq|]; [|left; lia]. right. split; [done|].
    apply Hsame, Heq.
  - assert (e + n <> ec) as Hne by (intros Heq; specialize (Hsame Heq); lia).
    destruct (Z.leb_spec (e + n + 1) 971) as [|Hover]; [|lia].
    split; [done|]. split; [done|].
    destruct (Z.eq_dec (e + n + 1) ec); [right|left]; [|lia]. split; [done|].
    change (Zpos (2 ^ 52)) with (2 ^ 52). lia.
Qed.

(** Rounding does not cross a normal number from above. *)
Lemma binary_round_aux_ge sx (M : positive) e mc ec :
  0 <= fexp64 (digits M + e) - e →
  digits mc = 53 → -1074 <= ec →
  vle (Zpos mc) ec (Zpos M) e →
  match binary_round_aux 53 1024 sx (Zpos M) e loc_Exact with
  | S754_finite s m e' => s = sx ∧ Zpos m < 2 ^ 53 ∧ fle mc ec m e'
  | S754_infinity s => s = sx
  | _ => False
  end.
Proof.
  intros Hn Hdc Hec Hv. apply digits_53 in Hdc as [Hc1 Hc2].
  destruct (binary_round_aux_spec sx M e Hn) as (m2 & Hm2 & Hm2' & Hex & ->).
  set (n := fexp64 (digits M + e) - e) in *.
  assert (n = Z.max (digits M + e - 53) (-1074) - e) as Hndef by reflexivity.
  pose proof (digits_bounds M) as [HMlo HMhi]. pose proof (digits_pos M) as Hd1.
  set (d := digits M) in *.
  assert (ec + 53 <= d + e) as Hde.
  { set (lo := Z.min e ec).
    apply (vle_scale_1 lo) in Hv; [|unfold lo; lia..].
    assert (Zpos M * 2 ^ (e - lo) < 2 ^ d * 2 ^ (e - lo)) as H1.
    { apply Z.mul_lt_mono_pos_r; [apply Z.pow_pos_nonneg; unfold lo|]; lia. }
    assert (2 ^ 52 * 2 ^ (ec - lo) <= Zpos mc * 2 ^ (ec - lo)) as H2.
    { apply Z.mul_le_mono_nonneg_r; [apply Z.pow_nonneg|]; lia. }
    rewrite <- Z.pow_add_r in H1, H2 by (unfold lo; lia).
    assert (52 + (ec - lo) < d + (e - lo)); [|lia].
    apply (Z.pow_lt_mono_r_iff 2); [lia|unfold lo; lia|lia]. }
  assert (n = d - 53) as Hnd by lia.
  assert (0 < 2 ^ n) as H2n by (apply Z.pow_pos_nonneg; lia).
  assert (2 ^ 52 <= Zpos M / 2 ^ n) as Hnormal.
  { apply Z.div_le_lower_bound; [lia|]. rewrite <- Z.pow_add_r by lia.
    replace (n + 52) with (d - 1) by lia. lia. }
  assert (e + n = ec → Zpos mc <= Zpos M / 2 ^ n) as Hsame.
  { intros Heq. apply (vle_scale_1 e) in Hv; [|lia..].
    rewrite Z.sub_diag, Z.pow_0_r, Z.mul_1_r in Hv.
    replace (ec - e) with n in Hv by lia.
    apply Z.div_le_lower_bound; lia. }
  unfold finish.
  destruct (Z.ltb_spec m2 (2 ^ 53)) as [Hsmall|Hbig].
  - destruct m2 as [|q|q]; [lia| |lia].
    destruct (Z.leb_spec (e + n) 971); [|done].
    split; [done|]. split; [done|].
    destruct (Z.eq_dec (e + n) ec) as [Heq|]; [|left; lia]. right. split; [done|].
    specialize (Hsame Heq). lia.
  - destruct (Z.leb_spec (e + n + 1) 971); [|done].
    split; [done|]. split; [done|]. left. lia.
Qed.

(** Rounding is exact on a representable number. *)
Lemma binary_round_aux_exact sx (M : positive) e (q : positive) :
  let n := fexp64 (digits M + e) - e in
  0 <= n → Zpos M = Zpos q * 2 ^ n → e + n <= 971 →
  binary_round_aux 53 1024 sx (Zpos M) e loc_Exact = S754_finite sx q (e + n).
Proof.
  intros n Hn HM He.
  destruct (binary_round_aux_spec sx M e Hn) as (m2 & Hm2 & Hm2' & Hex & ->).
  fold n in Hm2, Hex |- *.
  assert (n = Z.max (digits M + e - 53) (-1074) - e) as Hndef by reflexivity.
  assert (0 < 2 ^ n) as H2n by (apply Z.pow_pos_nonneg; lia).
  assert (Zpos M / 2 ^ n = Zpos q) as Hq by (rewrite HM; apply Z.div_mul; lia).
  assert (Zpos M mod 2 ^ n = 0) as Hmod by (rewrite HM; apply Z.mod_mul; lia).
  rewrite (Hex Hmod), Hq. unfold finish.
  assert (Zpos q < 2 ^ 53) as Hlt.
  { rewrite <- Hq. apply div_pow_lt; lia. }
  destruct (Z.ltb_spec (Zpos q) (2 ^ 53)); [|lia].
  destruct (Z.leb_spec (e + n) 971); [done|lia].
Qed.

Lemma iter_xO_spec (M p : positive) : Zpos (Pos.iter xO M p) = Zpos M * 2 ^ Zpos p.
Proof.
  pose proof (shift_pos_correct p M) as H. unfold shift_pos in H. rewrite H.
  rewrite Zpower_pos_nat, Zpower_nat_Z, positive_nat_Z. lia.
Qed.

Lemma digits_shift (M M' : positive) k :
  0 <= k → Zpos M' = Zpos M * 2 ^ k → digits M' = digits M + k.
Proof.
  intros Hk HM. apply digits_unique. pose proof (digits_bounds M) as [Hlo Hhi].
  pose proof (digits_pos M). rewrite HM.
  replace (digits M + k - 1) with (digits M - 1 + k) by lia.
  rewrite !Z.pow_add_r by lia.
  assert (0 < 2 ^ k) by (apply Z.pow_pos_nonneg; lia). nia.
Qed.

(** [binary_round] aligns the mantissa first, so that the rounding
    proper never has to shift left. *)
Lemma binary_round_align sx (M : positive) e :
  ∃ (M' : positive) e',
    binary_round 53 1024 sx M e = binary_round_aux 53 1024 sx (Zpos M') e' loc_Exact ∧
    e' <= e ∧ Zpos M' = Zpos M * 2 ^ (e - e') ∧
    0 <= fexp64 (digits M' + e') - e'.
Proof.
  unfold binary_round, shl_align. rewrite fexp_eq. fold (digits M).
  destruct (fexp64 (digits M + e) - e) as [|p|p] eqn:Hp.
  - exists M, e. rewrite Z.sub_diag, Z.pow_0_r. repeat split; lia.
  - exists M, e. rewrite Z.sub_diag, Z.pow_0_r. repeat split; lia.
  - exists (Pos.iter xO M p), (fexp64 (digits M + e)).
    assert (e - fexp64 (digits M + e) = Zpos p) as Hk by lia.
    split; [done|]. split; [lia|]. rewrite Hk. split; [apply iter_xO_spec|].
    rewrite (digits_shift M _ (Zpos p)); [|lia|apply iter_xO_spec].
    replace (digits M + Zpos p + fexp64 (digits M + e)) with (digits M + e) by lia. lia.
Qed.

Lemma vle_align M e M' e' N f :
  e' <= e → M' = M * 2 ^ (e - e') → vle M e N f ↔ vle M' e' N f.
Proof.
  intros He ->. set (lo := Z.min e' f).
  assert (M * 2 ^ (e - e') * 2 ^ (e' - lo) = M * 2 ^ (e - lo)) as Heq.
  { rewrite <- Z.mul_assoc, <- Z.pow_add_r by (unfold lo; lia). do 2 f_equal. lia. }
  split; intros Hv.
  - apply (vle_scale_2 lo); [unfold lo; lia..|]. rewrite Heq.
    apply (vle_scale_1 lo) in Hv; [done|unfold lo; lia..].
  - apply (vle_scale_2 lo); [unfold lo; lia..|].
    apply (vle_scale_1 lo) in Hv; [|unfold lo; lia..]. by rewrite Heq in Hv.
Qed.

Lemma vle_align_r M e M' e' N f :
  e' <= e → M' = M * 2 ^ (e - e') → vle N f M e ↔ vle N f M' e'.
Proof.
  intros He ->. set (lo := Z.min e' f).
  assert (M * 2 ^ (e - e') * 2 ^ (e' - lo) = M * 2 ^ (e - lo)) as Heq.
  { rewrite <- Z.mul_assoc, <- Z.pow_add_r by (unfold lo; lia). do 2 f_equal. lia. }
  split; intros Hv.
  - apply (vle_scale_2 lo); [unfold lo; lia..|]. rewrite Heq.
    apply (vle_scale_1 lo) in Hv; [done|unfold lo; lia..].
  - apply (vle_scale_2 lo); [unfold lo; lia..|].
    apply (vle_scale_1 lo) in Hv; [|unfold lo; lia..]. by rewrite Heq in Hv.
Qed.

Lemma binary_round_le sx (M : positive) e mc ec :
  digits mc = 53 → -1074 <= ec <= 971 →
  vle (Zpos M) e (Zpos mc) ec →
  match binary_round 53 1024 sx M e with
  | S754_zero _ => True
  | S754_finite s m e' => s = sx ∧ Zpos m < 2 ^ 53 ∧ fle m e' mc ec
  | _ => False
  end.
Proof.
  intros Hd Hec Hv. destruct (binary_round_align sx M e) as (M' & e' & -> & He & HM & Hn).
  apply binary_round_aux_le; [done..|]. by apply (vle_align (Zpos M) e).
Qed.

Lemma binary_round_ge sx (M : positive) e mc ec :
  digits mc = 53 → -1074 <= ec →
  vle (Zpos mc) ec (Zpos M) e →
  match binary_round 53 1024 sx M e with
  | S754_finite s m e' => s = sx ∧ Zpos m < 2 ^ 53 ∧ fle mc ec m e'
  | S754_infinity s => s = sx
  | _ => False
  end.
Proof.
  intros Hd Hec Hv. destruct (binary_round_align sx M e) as (M' & e' & -> & He & HM & Hn).
  apply binary_round_aux_ge; [done..|]. by apply (vle_align_r (Zpos M) e).
Qed.

Lemma vle_refl M e : vle M e M e.
Proof. unfold vle. lia. Qed.

Lemma vle_mul k M e M' e' e0 :
  0 <= k → vle M e M' e' → vle (k * M) (e0 + e) (k * M') (e0 + e').
Proof.
  intros Hk Hv. unfold vle in *.
  replace (e0 + e - Z.min (e0 + e) (e0 + e')) with (e - Z.min e e') by lia.
  replace (e0 + e' - Z.min (e0 + e) (e0 + e')) with (e' - Z.min e e') by lia.
  rewrite <- !Z.mul_assoc. apply Z.mul_le_mono_nonneg_l; lia.
Qed.

Lemma digits_ge (M : positive) k : 0 <= k → 2 ^ k <= Zpos M → k + 1 <= digits M.
Proof.
  intros Hk HM. pose proof (digits_bounds M) as [_ Hhi]. pose proof (digits_pos M).
  assert (k < digits M); [|lia]. apply (Z.pow_lt_mono_r_iff 2); lia.
Qed.

Lemma digits_le_53 (m : positive) e : bounded 53 1024 m e = true → Zpos m < 2 ^ 53.
Proof.
  unfold bounded, canonical_mantissa. rewrite fexp_eq. fold (digits m).
  intros [Hc _]%andb_prop. apply Z.eqb_eq in Hc.
  pose proof (digits_bounds m) as [_ Hhi]. pose proof (digits_pos m).
  eapply Z.lt_le_trans; [exact Hhi|]. apply Z.pow_le_mono_r; unfold fexp64 in Hc; lia.
Qed.

(** A positive number that is at most the normal number [mc * 2^ec],
    or zero. *)
Definition below (f : spec_float) (mc : positive) (ec : Z) : Prop :=
  match f with
  | S754_zero _ => True
  | S754_finite s m e => s = false ∧ Zpos m < 2 ^ 53 ∧ fle m e mc ec
  | _ => False
  end.

(** A positive number that is at least the normal number [mc * 2^ec],
    or plus infinity. *)
Definition above (f : spec_float) (mc : positive) (ec : Z) : Prop :=
  match f with
  | S754_finite s m e => s = false ∧ Zpos m < 2 ^ 53 ∧ fle mc ec m e
  | S754_infinity s => s = false
  | _ => False
  end.

Lemma compare_cont_Eq_le p q : Pos.compare_cont Eq p q ≠ Lt → Zpos q <= Zpos p.
Proof.
  rewrite Pos.compare_cont_spec. unfold Pos.switch_Eq.
  destruct (Pos.compare_spec p q); [lia|done|lia].
Qed.

Lemma ltb_above_below x y mc ec mc' ec' :
  above x mc' ec' → below y mc ec → fle mc ec mc' ec' → SFltb x y = false.
Proof.
  unfold SFltb, SFcompare.
  destruct x as [sx|sx| |sx mx ex], y as [sy|sy| |sy my ey];
    cbn [above below]; intros Hx Hy Hc; try done;
    repeat match goal with H : _ ∧ _ |- _ => destruct H end; subst; try done.
  unfold fle in *.
  destruct (Z.compare_spec ex ey) as [->|Hlt|Hgt]; [|lia|done].
  destruct (Pos.compare_cont Eq mx my) eqn:Hp; [done| |done].
  rewrite Pos.compare_cont_spec in Hp. unfold Pos.switch_Eq in Hp.
  destruct (Pos.compare_spec mx my); [done|lia|done].
Qed.

Lemma mul_below (mx : positive) ex (my : positive) ey (mc : positive) ec (mz : positive) ez :
  2 ^ 52 <= Zpos mx →
  vle (Zpos my) ey (Zpos mc) ec →
  ex + ec <= ez → Zpos mx * Zpos mc = Zpos mz * 2 ^ (ez - (ex + ec)) →
  digits mz = 53 → -1074 <= ez <= 971 →
  below (SFmul 53 1024 (S754_finite false mx ex) (S754_finite false my ey)) mz ez.
Proof.
  intros Hx Hv He Hprod Hdz Hez. unfold SFmul. cbn [xorb].
  apply (binary_round_aux_le false); [|done..|].
  - assert (53 <= digits (mx * my)); [|unfold fexp64; lia].
    apply (digits_ge _ 52); [lia|]. rewrite Pos2Z.inj_mul. nia.
  - rewrite Pos2Z.inj_mul.
    apply (vle_trans _ _ (Zpos mx * Zpos mc) (ex + ec)); [apply vle_mul; [lia|done]|].
    apply (vle_align_r (Zpos mz) ez (Zpos mx * Zpos mc) (ex + ec)); [done|lia|apply vle_refl].
Qed.

Lemma shl_align_fst (m : positive) e ez :
  ez <= e → Zpos (fst (shl_align m e ez)) = Zpos m * 2 ^ (e - ez).
Proof.
  intros He. unfold shl_align. destruct (ez - e) as [|p|p] eqn:Hp; cbn [fst]; [|lia|].
  - replace (e - ez) with 0 by lia. lia.
  - rewrite iter_xO_spec. do 2 f_equal. lia.
Qed.

Lemma add_below (mx : positive) ex y (mb : positive) eb (mc : positive) ec :
  below y mb eb → 2 ^ 52 <= Zpos mb →
  Zpos mx < 2 ^ 53 → fle mx ex mc ec →
  (∀ lo, lo <= ex → lo <= eb → lo <= ec →
     Zpos mx * 2 ^ (ex - lo) + Zpos mb * 2 ^ (eb - lo) <= Zpos mc * 2 ^ (ec - lo)) →
  digits mc = 53 → -1074 <= ec <= 971 →
  below (SFadd 53 1024 (S754_finite false mx ex) y) mc ec.
Proof.
  intros Hy Hb Hx Hxc Hsum Hdc Hec.
  destruct y as [sy|sy| |sy my ey]; cbn [below SFadd] in *; try done.
  destruct Hy as (-> & Hmy & Hyb). cbn [cond_Zopp].
  change (Zpos (fst (shl_align mx ex (Z.min ex ey))) + Zpos (fst (shl_align my ey (Z.min ex ey))))
    with (Zpos (fst (shl_align mx ex (Z.min ex ey)) + fst (shl_align my ey (Z.min ex ey)))).
  cbn [binary_normalize].
  apply (binary_round_le false); [done..|].
  rewrite Pos2Z.inj_add, !shl_align_fst by lia.
  set (ez := Z.min ex ey). set (lo := Z.min ez (Z.min eb ec)).
  apply (vle_scale_2 lo); [unfold lo; lia..|].
  apply fle_vle in Hyb; [|done..]. apply (vle_scale_1 lo) in Hyb; [|unfold lo, ez; lia..].
  specialize (Hsum lo ltac:(unfold lo, ez; lia) ltac:(unfold lo; lia) ltac:(unfold lo; lia)).
  rewrite Z.mul_add_distr_r, <- !Z.mul_assoc, <- !Z.pow_add_r by (unfold lo, ez; lia).
  replace (ex - ez + (ez - lo)) with (ex - lo) by lia.
  replace (ey - ez + (ez - lo)) with (ey - lo) by lia. lia.
Qed.

Lemma of_Z_above w (mc : positive) ec :
  digits mc = 53 → -1074 <= ec <= 0 → Zpos mc <= w * 2 ^ (- ec) →
  above (F64.of_Z w) mc ec.
Proof.
  intros Hd Hec Hw. unfold F64.of_Z, binary_normalize.
  assert (0 < 2 ^ (- ec)) by (apply Z.pow_pos_nonneg; lia).
  destruct w as [|p|p]; [lia| |lia].
  apply (binary_round_ge false); [done|lia|].
  apply (vle_scale_2 ec); [lia..|]. rewrite Z.sub_diag, Z.pow_0_r, Z.sub_0_l. lia.
Qed.
End Round.

(** ** Expired slots *)

Section Expired.
Import Round.

(** The threshold of [add] is at most [keepTicketConst + 10 *
    keepTicketExp], whatever positive number [rand.ExpFloat64] draws. *)
Lemma keepThreshold_below m e :
  bounded 53 1024 m e = true →
  below (keepThreshold (S754_finite false m e)) 6758400000000000 (-9).
Proof.
  intros Hb. pose proof (digits_le_53 m e Hb) as Hm. unfold keepThreshold.
  set (rnd := if F64.gtb _ _ then _ else _).
  assert (∃ m' e', rnd = S754_finite false m' e' ∧ Zpos m' < 2 ^ 53 ∧
                   fle m' e' 5629499534213120 (-49)) as (m' & e' & -> & Hm' & Hle).
  { unfold rnd. destruct (F64.gtb _ F64.ten) eqn:Hgt.
    - eexists _, _. split; [reflexivity|]. split; [done|]. right. split; lia.
    - exists m, e. split; [done|]. split; [done|].
      unfold F64.gtb, F64.ten, SFltb, SFcompare in Hgt. unfold fle.
      destruct (Z.compare_spec (-49) e) as [<-|Hlt|Hgt']; [|done|lia].
      right. split; [done|].
      apply compare_cont_Eq_le. by destruct (Pos.compare_cont _ _ _). }
  change (F64.of_Z keepTicketConst) with (S754_finite false 4915200000000000 (-12)).
  change (F64.of_Z keepTicketExp) with (S754_finite false 4915200000000000 (-12)).
  unfold F64.add, F64.mul, F64.prec, F64.emax.
  apply (add_below _ _ _ 6144000000000000 (-9)); [|lia|lia|left; lia| |done|lia].
  - apply (mul_below _ _ _ _ 5629499534213120 (-49)); [lia| |lia|reflexivity|done|lia].
    apply fle_vle; [done|lia|done].
  - intros lo H1 H2 H3. replace (-9 - lo) with (3 + (-12 - lo)) by lia.
    rewrite Z.pow_add_r by lia. set (P := 2 ^ (-12 - lo)).
    assert (0 <= P) by (apply Z.pow_nonneg; lia). lia.
Qed.

(** The wrapped wait of an expired slot is not below the threshold. *)
Lemma expired_wait_not_kept m e wait :
  bounded 53 1024 m e = true →
  keepTicketConst + 10 * keepTicketExp < wait →
  F64.ltb (F64.of_Z wait) (keepThreshold (S754_finite false m e)) = false.
Proof.
  intros Hb Hw. unfold F64.ltb.
  apply (ltb_above_below _ _ 6758400000000000 (-9) 6758400000000512 (-9)).
  - apply of_Z_above; [done|lia|].
    change keepTicketConst with 1200000000000 in Hw.
    change keepTicketExp with 1200000000000 in Hw. change (2 ^ (- -9)) with 512. lia.
  - by apply keepThreshold_below.
  - right. split; lia.
Qed.
End Expired.

Section Scheduling.
Context `{GoEnv}.

(** [ref] is in the bucket [g] of [topic]. *)
Definition scheduled (s : ticketStore) (topic : Topic) (g : Z) (ref : ticketRef) : Prop :=
  ∃ r, s_topics s !! topic = Some r ∧ ref ∈ bucket r g.

(** What [rand.ExpFloat64] returns: a positive finite binary64 number. *)
Definition positive_finite (f : spec_float) : bool :=
  match f with
  | S754_finite false m e => bounded 53 1024 m e
  | _ => false
  end.

Lemma expired_slot_not_kept rnd localTime regTime :
  positive_finite rnd = true →
  0 <= regTime < localTime → localTime < 2 ^ 64 →
  localTime - regTime < 2 ^ 64 - (keepTicketConst + 10 * keepTicketExp) →
  keepTicketConst + 10 * keepTicketExp < u64 (regTime - localTime) ∧
  F64.ltb (F64.of_Z (u64 (regTime - localTime))) (keepThreshold rnd) = false.
Proof.
  intros Hrnd Hreg Hlt Hbound.
  assert (u64 (regTime - localTime) = regTime - localTime + 2 ^ 64) as ->.
  { unfold u64. symmetry. apply Z.mod_unique with (-1); lia. }
  split; [lia|].
  destruct rnd as [| | |[] m e]; try discriminate.
  apply expired_wait_not_kept; [done|lia].
Qed.

Lemma bucket_time r r' g : tt_time r' = tt_time r → bucket r' g = bucket r g.
Proof. unfold bucket. by intros ->. Qed.

Lemma add_slot_new_refs rnd localTime p i topic h s h' s' t :
  h !! p = Some t →
  add_slot rnd localTime p i topic (h, s) = Some (h', s') →
  ∀ topic' g ref, scheduled s' topic' g ref →
    scheduled s topic' g ref ∨
    (ref = Build_ticketRef p i ∧ ∃ regTime, tk_regTime t !! i = Some regTime ∧
       F64.ltb (F64.of_Z (u64 (regTime - localTime))) (keepThreshold rnd) = true).
Proof.
  intros Ht (t0 & Ht0 & Hc)%add_slot_cases topic' g ref (r & Hr & Hin).
  assert (t0 = t) as -> by congruence.
  destruct Hc as [(-> & -> & _)|(tts & tts' & Htts & _ & Hadj & Hc)]; [left; by exists r|].
  apply adjust_time in Hadj.
  destruct Hc as [(-> & -> & _)|(regTime & tm & _ & Hreg & Htm & Hkeep & -> & ->)].
  - left. cbn in Hr. destruct (decide (topic' = topic)) as [->|Hne].
    + rewrite lookup_insert_eq in Hr. injection Hr as <-. exists tts. split; [done|].
      by rewrite <- (bucket_time tts tts' g).
    + rewrite lookup_insert_ne in Hr by done. by exists r.
  - cbn in Hr. destruct (decide (topic' = topic)) as [->|Hne].
    + rewrite lookup_insert_eq in Hr. injection Hr as <-.
      unfold bucket in Hin. cbn in Hin.
      destruct (decide (g = regTime / ticketGroupTime)) as [->|Hg].
      * rewrite lookup_insert_eq in Hin. cbn in Hin.
        apply elem_of_app in Hin as [Hin|Hin%list_elem_of_singleton].
        -- left. exists tts. split; [done|]. unfold bucket. by rewrite <- Hadj, Htm.
        -- right. split; [done|]. by exists regTime.
      * rewrite lookup_insert_ne in Hin by done.
        left. exists tts. split; [done|]. unfold bucket. by rewrite <- Hadj, Htm.
    + rewrite lookup_insert_ne in Hr by done. left. by exists r.
Qed.

Lemma add_loop_new_refs rnd localTime p topics : ∀ i h s h' s' t,
  h !! p = Some t →
  add_loop rnd localTime p i topics (h, s) = Some (h', s') →
  ∀ topic g ref, scheduled s' topic g ref →
    scheduled s topic g ref ∨
    (ref_t ref = p ∧ ∃ regTime, tk_regTime t !! ref_idx ref = Some regTime ∧
       F64.ltb (F64.of_Z (u64 (regTime - localTime)))
               (keepThreshold (rnd (ref_idx ref))) = true).
Proof.
  induction topics as [|tp topics IH]; intros i h s h' s' t Ht Hl topic g ref Hsch.
  - injection Hl as <- <-. by left.
  - cbn [add_loop] in Hl.
    destruct (add_slot _ _ _ _ _ _) as [[h1 s1]|] eqn:Hs; [|discriminate].
    cbn [mbind option_bind] in Hl.
    pose proof (add_slot_heap _ _ _ _ _ _ _ _ _ Hs) as [(_ & _ & Hp) _].
    destruct (Hp _ Ht) as [c Hc].
    destruct (IH _ _ _ _ _ _ Hc Hl _ _ _ Hsch) as [Hs1|(Hp1 & regTime & Hreg & Hk)].
    + destruct (add_slot_new_refs _ _ _ _ _ _ _ _ _ _ Ht Hs _ _ _ Hs1)
        as [?|(-> & regTime & Hreg & Hk)]; [by left|right].
      split; [done|]. by exists regTime.
    + right. split; [done|]. exists regTime. split; [|done]. by destruct t.
Qed.
End Scheduling.

(** C10.  A call of [add] never schedules a slot that has already
    expired.  Let the variates be positive finite numbers, as
    [rand.ExpFloat64] returns them, and let every registration time of
    the ticket be less than [2^64 - (keepTicketConst + 10 *
    keepTicketExp)] behind the local time.  For a slot whose
    registration time is before the local time the subtraction wraps,
    the wrapped wait is above [keepTicketConst + 10 * keepTicketExp] and
    is not below the threshold, and the loop body leaves the heap (so
    the reference count) and every time map as they are.  Hence every
    reference that the call puts in a bucket is a slot of the added
    ticket whose registration time is at least the local time. *)
Theorem expired_slots_never_scheduled `{GoEnv} rnd localTime p h s h' s' t :
  (∀ i, positive_finite (rnd i) = true) →
  0 <= localTime < 2 ^ 64 →
  h !! p = Some t →
  (∀ i regTime, tk_regTime t !! i = Some regTime →
     0 <= regTime ∧
     localTime - regTime < 2 ^ 64 - (keepTicketConst + 10 * keepTicketExp)) →
  add rnd localTime p (h, s) = Some (h', s') →
  (∀ i regTime, tk_regTime t !! i = Some regTime → regTime < localTime →
     keepTicketConst + 10 * keepTicketExp < u64 (regTime - localTime) ∧
     F64.ltb (F64.of_Z (u64 (regTime - localTime))) (keepThreshold (rnd i)) = false ∧
     ∀ topic h1 s1 h2 s2 t1,
       h1 !! p = Some t1 → tk_regTime t1 = tk_regTime t →
       add_slot (rnd i) localTime p i topic (h1, s1) = Some (h2, s2) →
       h2 = h1 ∧ ∀ topic', tt_time <$> s_topics s2 !! topic' = tt_time <$> s_topics s1 !! topic') ∧
  (∀ topic g ref, scheduled s' topic g ref →
     scheduled s topic g ref ∨
     (ref_t ref = p ∧ ∃ regTime, tk_regTime t !! ref_idx ref = Some regTime ∧
        localTime <= regTime)).
Proof.
  intros Hrnd Hlt Ht Hreg Hadd.
  assert (∀ i regTime, tk_regTime t !! i = Some regTime → regTime < localTime →
            keepTicketConst + 10 * keepTicketExp < u64 (regTime - localTime) ∧
            F64.ltb (F64.of_Z (u64 (regTime - localTime))) (keepThreshold (rnd i)) = false)
    as Hexp.
  { intros i regTime Hi Hlt'. destruct (Hreg _ _ Hi).
    apply expired_slot_not_kept; [done|lia..]. }
  split.
  - intros i regTime Hi Hlt'. destruct (Hexp _ _ Hi Hlt') as [Hw Hk].
    split; [done|]. split; [done|].
    intros topic h1 s1 h2 s2 t1 Ht1 Hsame (t0 & Ht0 & Hc)%add_slot_cases.
    assert (t0 = t1) as -> by congruence.
    destruct Hc as [(-> & -> & _)|(tts & tts' & Htts & _ & Hadj & Hc)]; [done|].
    apply adjust_time in Hadj.
    destruct Hc as [(-> & -> & _)|(regTime' & tm & _ & Hreg' & _ & Hkeep & _)].
    + split; [done|]. intros topic'. cbn. destruct (decide (topic' = topic)) as [->|Hne].
      * rewrite lookup_insert_eq, Htts. cbn. by rewrite Hadj.
      * by rewrite lookup_insert_ne.
    + rewrite Hsame, Hi in Hreg'. injection Hreg' as <-. congruence.
  - intros topic g ref Hsch. unfold add in Hadd. rewrite Ht in Hadd.
    cbn [mbind option_bind] in Hadd.
    destruct (s_nodes s !! ID (tk_node t)); [injection Hadd as <- <-; by left|].
    set (s0 := if s_lastGroupFetched s =? 0 then _ else s) in Hadd.
    assert (s_topics s0 = s_topics s) as Hs0 by (subst s0; by destruct (_ =? _)).
    destruct (add_loop _ _ _ _ _ _) as [[h1 s1]|] eqn:Hl; [|discriminate].
    cbn [mbind option_bind] in Hadd.
    destruct (h1 !! p) as [t1|]; [|discriminate]. cbn [mbind option_bind] in Hadd.
    assert (s_topics s' = s_topics s1) as Hs1.
    { destruct (0 <? tk_refCnt t1); by injection Hadd as <- <-. }
    assert (scheduled s1 topic g ref) as Hsch1.
    { destruct Hsch as (r & Hr & Hin). exists r. by rewrite <- Hs1. }
    destruct (add_loop_new_refs _ _ _ _ _ _ _ _ _ _ Ht Hl _ _ _ Hsch1)
      as [(r & Hr & Hin)|(Hp & regTime & Hi & Hk)].
    + left. exists r. by rewrite <- Hs0.
    + right. split; [done|]. exists regTime. split; [done|].
      destruct (Z.le_gt_cases localTime regTime) as [|Hlt']; [done|].
      destruct (Hexp _ _ Hi ltac:(lia)) as [_ Hk']. congruence.
Qed.

Lemma expired_slots_never_scheduled_witness :
  let w := default init
             (@run example_env
                [OpAddTopic "t" true;
                 OpPongToTicket 600000000000 ["t"%string] (Build_Node 1) (pongPacket [900])]
                init) in
  let localTime := 2000000000000 in
  ∃ t h' s',
    w.1 !! 0%nat = Some t ∧ tk_regTime t = [1500000000000] ∧
    @add example_env rnd_one localTime 0%nat (w.1, w.2) = Some (h', s') ∧
    (∀ i regTime, tk_regTime t !! i = Some regTime → regTime < localTime →
       keepTicketConst + 10 * keepTicketExp < u64 (regTime - localTime) ∧
       F64.ltb (F64.of_Z (u64 (regTime - localTime))) (keepThreshold (rnd_one i)) = false ∧
       ∀ topic h1 s1 h2 s2 t1,
         h1 !! 0%nat = Some t1 → tk_regTime t1 = tk_regTime t →
         @add_slot example_env (rnd_one i) localTime 0%nat i topic (h1, s1) = Some (h2, s2) →
         h2 = h1 ∧
         ∀ topic', tt_time <$> s_topics s2 !! topic' = tt_time <$> s_topics s1 !! topic') ∧
    (∀ topic g ref, scheduled s' topic g ref →
       scheduled w.2 topic g ref ∨
       (ref_t ref = 0%nat ∧ ∃ regTime, tk_regTime t !! ref_idx ref = Some regTime ∧
          localTime <= regTime)).
Proof.
  intros w localTime.
  destruct (w.1 !! 0%nat) as [t|] eqn:Ht; [|vm_compute in Ht; discriminate].
  assert (tk_regTime t = [1500000000000]) as Hreg.
  { vm_compute in Ht. by injection Ht as <-. }
  destruct (@add example_env rnd_one localTime 0%nat (w.1, w.2)) as [[h' s']|] eqn:Hadd;
    [|vm_compute in Hadd; discriminate].
  exists t, h', s'. split; [done|]. split; [done|]. split; [done|].
  apply (@expired_slots_never_scheduled example_env rnd_one localTime 0%nat w.1 w.2 h' s' t).
  - intros i. reflexivity.
  - unfold localTime. lia.
  - exact Ht.
  - intros i regTime. rewrite Hreg. unfold localTime.
    destruct i as [|i]; [|destruct i; discriminate].
    intros [= <-]. vm_compute. split; [discriminate|reflexivity].
  - exact Hadd.
Defined.

(** ** Integers in binary64 *)

Section Exact.
Import Round.

(** [f] is the binary64 number of the integer [z]: the positive zero
    for [z = 0], and otherwise a positive normal number of the value
    [z] (below [2^128]). *)
Definition is_val (f : spec_float) (z : Z) : Prop :=
  match f with
  | S754_zero s => s = false ∧ z = 0
  | S754_finite s m e =>
      s = false ∧ digits m = 53 ∧ -52 <= e <= 75 ∧ Zpos m * 2 ^ (e + 52) = z * 2 ^ 52
  | _ => False
  end.

(** The integer [z] is a binary64 number: conversion to float64 does
    not round it. *)
Definition representable (z : Z) : Prop := ∃ f, is_val f z.

Lemma mul_pow2_cancel X Y a b : 0 <= a <= b → X * 2 ^ a = Y * 2 ^ b → X = Y * 2 ^ (b - a).
Proof.
  intros Hab Heq. replace b with (b - a + a) in Heq by lia.
  rewrite Z.pow_add_r, Z.mul_assoc in Heq by lia.
  apply Z.mul_cancel_r in Heq; [done|]. apply Z.pow_nonzero; lia.
Qed.

Lemma is_val_finite_pos (m : positive) e z : Zpos m * 2 ^ (e + 52) = z * 2 ^ 52 → -52 <= e → 0 < z.
Proof.
  intros Hm He. assert (0 < 2 ^ (e + 52)) by (apply Z.pow_pos_nonneg; lia). nia.
Qed.

Lemma is_val_nonneg f z : is_val f z → 0 <= z.
Proof.
  destruct f as [s|s| |s m e]; cbn [is_val]; try done.
  - intros [_ ->]. lia.
  - intros (_ & _ & He & Hm). pose proof (is_val_finite_pos m e z Hm). lia.
Qed.

Lemma is_val_zero f : is_val f 0 → f = S754_zero false.
Proof.
  destruct f as [s|s| |s m e]; cbn [is_val]; try done.
  - by intros [-> _].
  - intros (_ & _ & He & Hm). pose proof (is_val_finite_pos m e 0 Hm). lia.
Qed.

Lemma is_val_unique f f' z : is_val f z → is_val f' z → f = f'.
Proof.
  destruct f as [s|s| |s m e]; cbn [is_val]; try done.
  - intros [-> ->] Hf'. symmetry. by apply is_val_zero.
  - intros (-> & Hd & He & Hm) Hf'.
    pose proof (is_val_finite_pos m e z Hm ltac:(lia)) as Hz.
    destruct f' as [s'|s'| |s' m' e']; cbn [is_val] in Hf'; try done; [lia|].
    destruct Hf' as (-> & Hd' & He' & Hm'). rewrite <- Hm' in Hm.
    assert (e = e') as <-.
    { destruct (Z.le_gt_cases e e') as [Hle|Hgt].
      - apply mul_pow2_cancel in Hm; [|lia]. replace (e' + 52 - (e + 52)) with (e' - e) in Hm by lia.
        pose proof (digits_shift m' m (e' - e) ltac:(lia) Hm). lia.
      - symmetry in Hm. apply mul_pow2_cancel in Hm; [|lia].
        replace (e + 52 - (e' + 52)) with (e - e') in Hm by lia.
        pose proof (digits_shift m m' (e - e') ltac:(lia) Hm). lia. }
    apply Z.mul_cancel_r in Hm; [|apply Z.pow_nonzero; lia]. congruence.
Qed.

(** Rounding a number that is given with more digits than it needs. *)
Lemma round_aux_val (M : positive) E (m : positive) e :
  digits m = 53 → -1074 <= e <= 971 → E <= e → Zpos M = Zpos m * 2 ^ (e - E) →
  binary_round_aux 53 1024 false (Zpos M) E loc_Exact = S754_finite false m e.
Proof.
  intros Hd He HE HM.
  pose proof (digits_shift m M (e - E) ltac:(lia) HM) as HdM.
  pose proof (binary_round_aux_exact false M E m) as Hx. cbv zeta in Hx.
  assert (fexp64 (digits M + E) - E = e - E) as Hn by (unfold fexp64; lia).
  rewrite Hn in Hx. rewrite Hx; [f_equal; lia|lia|done|lia].
Qed.

Lemma round_val (M : positive) E (m : positive) e lo :
  digits m = 53 → -1074 <= e <= 971 → lo <= E → lo <= e →
  Zpos M * 2 ^ (E - lo) = Zpos m * 2 ^ (e - lo) →
  binary_round 53 1024 false M E = S754_finite false m e.
Proof.
  intros Hd He Hlo1 Hlo2 Hv.
  destruct (binary_round_align false M E) as (M' & E' & -> & HE' & HM' & Hn).
  set (lo' := Z.min lo E').
  assert (Zpos M' * 2 ^ (E' - lo') = Zpos m * 2 ^ (e - lo')) as Hv'.
  { rewrite HM', <- Z.mul_assoc, <- Z.pow_add_r by (unfold lo'; lia).
    replace (E - E' + (E' - lo')) with (E - lo + (lo - lo')) by lia.
    replace (e - lo') with (e - lo + (lo - lo')) by lia.
    rewrite !Z.pow_add_r, !Z.mul_assoc by (unfold lo'; lia). by rewrite Hv. }
  assert (E' <= e) as HE'e.
  { destruct (Z.le_gt_cases E' e) as [|Hgt]; [done|exfalso].
    symmetry in Hv'. apply mul_pow2_cancel in Hv'; [|unfold lo'; lia].
    replace (E' - lo' - (e - lo')) with (E' - e) in Hv' by lia.
    pose proof (digits_shift M' m (E' - e) ltac:(lia) Hv').
    unfold fexp64 in Hn. lia. }
  apply mul_pow2_cancel in Hv'; [|unfold lo'; lia].
  replace (e - lo' - (E' - lo')) with (e - E') in Hv' by lia.
  by apply round_aux_val.
Qed.

Lemma of_Z_val f z : is_val f z → F64.of_Z z = f.
Proof.
  destruct f as [s|s| |s m e]; cbn [is_val]; try done.
  - by intros [-> ->].
  - intros (-> & Hd & He & Hm).
    pose proof (is_val_finite_pos m e z Hm ltac:(lia)) as Hz.
    destruct z as [|p|p]; [lia| |lia].
    unfold F64.of_Z, binary_normalize.
    apply (round_val _ _ _ _ (-52)); [done|lia|lia|lia|].
    replace (e - -52) with (e + 52) by lia. change (0 - -52) with 52. by rewrite Hm.
Qed.

Lemma mul_val x y f a b :
  is_val x a → is_val y b → is_val f (a * b) → F64.mul x y = f.
Proof.
  unfold F64.mul.
  destruct x as [sx|sx| |sx mx ex], y as [sy|sy| |sy my ey]; cbn [is_val SFmul]; try done.
  - intros [-> ->] [-> ->] Hf. symmetry. by apply is_val_zero.
  - intros [-> ->] (-> & _) Hf. symmetry. by apply is_val_zero.
  - intros (-> & _) [-> ->] Hf. rewrite Z.mul_0_r in Hf. symmetry. by apply is_val_zero.
  - intros (-> & Hdx & Hex & Hmx) (-> & Hdy & Hey & Hmy) Hf. cbn [xorb].
    pose proof (is_val_finite_pos _ _ _ Hmx ltac:(lia)) as Ha.
    pose proof (is_val_finite_pos _ _ _ Hmy ltac:(lia)) as Hb.
    destruct f as [s|s| |s m e]; cbn [is_val] in Hf; try done; [destruct Hf; nia|].
    destruct Hf as (-> & Hd & He & Hm).
    pose proof (digits_53 mx Hdx) as [Hx1 Hx2]. pose proof (digits_53 my Hdy) as [Hy1 Hy2].
    pose proof (digits_53 m Hd) as [Hm1 Hm2].
    assert (Zpos (mx * my) * 2 ^ (ex + ey + 104) = Zpos m * 2 ^ (e + 104)) as Hv.
    { rewrite Pos2Z.inj_mul.
      replace (ex + ey + 104) with ((ex + 52) + (ey + 52)) by lia.
      replace (e + 104) with ((e + 52) + 52) by lia.
      rewrite !Z.pow_add_r by lia.
      transitivity ((Zpos mx * 2 ^ (ex + 52)) * (Zpos my * 2 ^ (ey + 52))); [ring|].
      rewrite Hmx, Hmy. transitivity ((a * b * 2 ^ 52) * 2 ^ 52); [ring|].
      rewrite <- Hm. rewrite (Z.pow_add_r 2 (e + 52) 52) by lia. ring. }
    assert (2 ^ 104 <= Zpos (mx * my)) as Hbig.
    { rewrite Pos2Z.inj_mul. change (2 ^ 104) with (2 ^ 52 * 2 ^ 52).
      apply Z.mul_le_mono_nonneg; lia. }
    assert (ex + ey <= e) as Hle.
    { destruct (Z.le_gt_cases (ex + ey) e) as [|Hgt]; [done|exfalso].
      symmetry in Hv. apply mul_pow2_cancel in Hv; [|lia].
      assert (0 < 2 ^ (ex + ey + 104 - (e + 104))) by (apply Z.pow_pos_nonneg; lia).
      change (2 ^ 104) with 20282409603651670423947251286016 in Hbig.
      change (2 ^ 53) with 9007199254740992 in Hm2. nia. }
    apply mul_pow2_cancel in Hv; [|lia].
    replace (e + 104 - (ex + ey + 104)) with (e - (ex + ey)) in Hv by lia.
    apply round_aux_val; [done|lia|done|done].
Qed.

Lemma add_val x y f a b :
  is_val x a → is_val y b → is_val f (a + b) → F64.add x y = f.
Proof.
  unfold F64.add.
  destruct x as [sx|sx| |sx mx ex], y as [sy|sy| |sy my ey]; cbn [is_val SFadd]; try done.
  - intros [-> ->] [-> ->] Hf. symmetry. by apply is_val_zero.
  - intros [-> ->] Hy Hf. by apply (is_val_unique _ _ b).
  - intros Hx [-> ->] Hf. rewrite Z.add_0_r in Hf. by apply (is_val_unique _ _ a).
  - intros (-> & Hdx & Hex & Hmx) (-> & Hdy & Hey & Hmy) Hf. cbn [cond_Zopp].
    pose proof (is_val_finite_pos _ _ _ Hmx ltac:(lia)) as Ha.
    pose proof (is_val_finite_pos _ _ _ Hmy ltac:(lia)) as Hb.
    destruct f as [s|s| |s m e]; cbn [is_val] in Hf; try done; [destruct Hf; lia|].
    destruct Hf as (-> & Hd & He & Hm).
    change (Zpos (fst (shl_align mx ex (Z.min ex ey))) + Zpos (fst (shl_align my ey (Z.min ex ey))))
      with (Zpos (fst (shl_align mx ex (Z.min ex ey)) + fst (shl_align my ey (Z.min ex ey)))).
    cbn [binary_normalize].
    apply (round_val _ _ _ _ (-52)); [done|lia|lia|lia|].
    rewrite Pos2Z.inj_add, !shl_align_fst by lia.
    rewrite Z.mul_add_distr_r, <- !Z.mul_assoc, <- !Z.pow_add_r by lia.
    replace (ex - Z.min ex ey + (Z.min ex ey - -52)) with (ex + 52) by lia.
    replace (ey - Z.min ex ey + (Z.min ex ey - -52)) with (ey + 52) by lia.
    replace (e - -52) with (e + 52) by lia. rewrite Hmx, Hmy, Hm. ring.
Qed.

Lemma sub_val x y f a b :
  is_val x a → is_val y b → is_val f (a - b) → F64.sub x y = f.
Proof.
  unfold F64.sub. intros Hx Hy Hf. pose proof (is_val_nonneg _ _ Hf) as Hge.
  destruct x as [sx|sx| |sx mx ex], y as [sy|sy| |sy my ey]; cbn [is_val SFsub] in *; try done.
  - destruct Hx as [-> ->], Hy as [-> ->]. symmetry. by apply is_val_zero.
  - destruct Hx as [-> ->], Hy as (-> & _ & Hey & Hmy).
    pose proof (is_val_finite_pos _ _ _ Hmy ltac:(lia)). lia.
  - destruct Hy as [-> ->]. rewrite Z.sub_0_r in Hf.
    by apply (is_val_unique _ _ a).
  - destruct Hx as (-> & Hdx & Hex & Hmx), Hy as (-> & Hdy & Hey & Hmy). cbn [cond_Zopp].
    set (ez := Z.min ex ey).
    assert ((Zpos (fst (shl_align mx ex ez)) - Zpos (fst (shl_align my ey ez))) * 2 ^ (ez + 52)
            = (a - b) * 2 ^ 52) as Hv.
    { rewrite !shl_align_fst by (unfold ez; lia).
      rewrite Z.mul_sub_distr_r, <- !Z.mul_assoc, <- !Z.pow_add_r by (unfold ez; lia).
      replace (ex - ez + (ez + 52)) with (ex + 52) by lia.
      replace (ey - ez + (ez + 52)) with (ey + 52) by lia. rewrite Hmx, Hmy. ring. }
    assert (0 < 2 ^ (ez + 52)) by (apply Z.pow_pos_nonneg; unfold ez; lia).
    destruct (Zpos (fst (shl_align mx ex ez)) - Zpos (fst (shl_align my ey ez)))
      as [|p|p] eqn:Hp; cbn [binary_normalize].
    + assert (a - b = 0) as Hz by lia. rewrite Hz in Hf. symmetry. by apply is_val_zero.
    + destruct f as [s|s| |s m e]; cbn [is_val] in Hf; try done; [destruct Hf; nia|].
      destruct Hf as (-> & Hd & He & Hm).
      apply (round_val _ _ _ _ (-52)); [done|lia|unfold ez; lia|lia|].
      replace (ez - -52) with (ez + 52) by lia.
      replace (e - -52) with (e + 52) by lia. by rewrite Hv, Hm.
    + nia.
Qed.
End Exact.

Section Conversions.
Import Round.

Lemma div_val x y f q b :
  is_val x (q * b) → is_val y b → 0 < b → is_val f q → F64.div x y = f.
Proof.
  unfold F64.div. intros Hx Hy Hb Hf. pose proof (is_val_nonneg _ _ Hf) as Hq0.
  destruct y as [sy|sy| |sy my ey]; cbn [is_val] in Hy; try done; [destruct Hy; lia|].
  destruct Hy as (-> & Hdy & Hey & Hmy).
  destruct x as [sx|sx| |sx mx ex]; cbn [is_val SFdiv] in *; try done.
  - destruct Hx as [-> Hz]. assert (q = 0) as -> by nia.
    symmetry. by apply is_val_zero.
  - destruct Hx as (-> & Hdx & Hex & Hmx). cbn [xorb].
    pose proof (is_val_finite_pos _ _ _ Hmx ltac:(lia)) as Hqb.
    assert (0 < q) as Hq by nia.
    destruct f as [s|s| |s m e]; cbn [is_val] in Hf; try done; [destruct Hf; lia|].
    destruct Hf as (-> & Hd & He & Hm).
    pose proof (digits_53 mx Hdx) as [Hx1 Hx2]. pose proof (digits_53 my Hdy) as [Hy1 Hy2].
    pose proof (digits_53 m Hd) as [Hm1 Hm2].
    assert (Zpos mx * 2 ^ (ex + 104) = Zpos m * Zpos my * 2 ^ (e + ey + 104)) as Hv.
    { replace (ex + 104) with ((ex + 52) + 52) by lia.
      replace (e + ey + 104) with ((e + 52) + (ey + 52)) by lia.
      rewrite (Z.pow_add_r 2 (ex + 52) 52), (Z.pow_add_r 2 (e + 52) (ey + 52)) by lia.
      transitivity ((Zpos mx * 2 ^ (ex + 52)) * 2 ^ 52); [ring|]. rewrite Hmx.
      transitivity ((q * 2 ^ 52) * (b * 2 ^ 52)); [ring|]. rewrite <- Hm, <- Hmy. ring. }
    set (t := e + ey - ex + 53).
    assert (0 <= t) as Ht.
    { destruct (Z.le_gt_cases 0 t) as [|Hneg]; [done|exfalso].
      symmetry in Hv. apply mul_pow2_cancel in Hv; [|unfold t in Hneg; lia].
      assert (2 ^ 54 <= 2 ^ (ex + 104 - (e + ey + 104))) as Hp
        by (apply Z.pow_le_mono_r; unfold t in Hneg; lia).
      assert (Zpos m * Zpos my < 2 ^ 53 * 2 ^ 53) by (apply Z.mul_lt_mono_nonneg; lia).
      change (2 ^ 53 * 2 ^ 53) with (2 ^ 52 * 2 ^ 54) in *.
      assert (2 ^ 52 * 2 ^ 54 <= Zpos mx * 2 ^ (ex + 104 - (e + ey + 104)))
        by (apply Z.mul_le_mono_nonneg; lia).
      lia. }
    assert (0 < 2 ^ t) as H2t by (apply Z.pow_pos_nonneg; lia).
    assert (Z.shiftl (Zpos mx) 53 = (Zpos m * 2 ^ t) * Zpos my) as Hshift.
    { rewrite Z.shiftl_mul_pow2 by lia.
      apply (Z.mul_cancel_r _ _ (2 ^ (ex + 104))); [apply Z.pow_nonzero; lia|].
      transitivity (Zpos mx * 2 ^ (ex + 104) * 2 ^ 53); [ring|]. rewrite Hv.
      transitivity (Zpos m * Zpos my * (2 ^ t * 2 ^ (ex + 104))); [|ring].
      rewrite <- !Z.mul_assoc, <- !Z.pow_add_r by lia. do 3 f_equal. unfold t. lia. }
    unfold SFdiv_core_binary. cbn [Zdigits2]. fold (digits mx) (digits my).
    rewrite Hdx, Hdy, fexp_eq.
    replace (Z.min (fexp64 (53 + ex - (53 + ey))) (ex - ey)) with (ex - ey - 53)
      by (unfold fexp64; lia).
    replace (ex - ey - (ex - ey - 53)) with 53 by lia. cbv iota beta.
    assert (Z.shiftl (Zpos mx) 53 / Zpos my = Zpos m * 2 ^ t) as Hdiv
      by (rewrite Hshift; apply Z.div_mul; lia).
    assert (Z.shiftl (Zpos mx) 53 mod Zpos my = 0) as Hmod
      by (rewrite Hshift; apply Z.mod_mul; lia).
    unfold Z.div in Hdiv. unfold Z.modulo in Hmod.
    destruct (Z.div_eucl (Z.shiftl (Zpos mx) 53) (Zpos my)) as [q0 r] eqn:Hde.
    subst q0 r.
    assert (new_location (Zpos my) 0 = loc_Exact) as ->.
    { unfold new_location, new_location_even, new_location_odd.
      by destruct (Z.even (Zpos my)). }
    destruct (Zpos m * 2 ^ t) as [|pQ|pQ] eqn:HQ; [lia| |lia].
    apply round_aux_val; [done|lia|unfold t in Ht; lia|].
    rewrite <- HQ. do 2 f_equal. unfold t. lia.
Qed.

Lemma to_uint64_val `{GoEnv} f z : is_val f z → z < 2 ^ 64 → F64.to_uint64 f = z.
Proof.
  destruct f as [s|s| |s m e]; cbn [is_val]; try done.
  - by intros [_ ->].
  - intros (-> & Hd & He & Hm) Hz. unfold F64.to_uint64.
    assert (F64.trunc_mag m e = z) as ->.
    { unfold F64.trunc_mag. destruct e as [|pe|pe].
      - rewrite Z.shiftl_0_r. cbn in Hm. lia.
      - rewrite Z.shiftl_mul_pow2 by lia.
        rewrite Z.pow_add_r, Z.mul_assoc in Hm by lia. lia.
      - rewrite Z.shiftr_div_pow2 by lia.
        apply mul_pow2_cancel in Hm; [|lia].
        replace (52 - (Zneg pe + 52)) with (Zpos pe) in Hm by lia.
        rewrite Hm. apply Z.div_mul. apply Z.pow_nonzero; lia. }
    destruct (Z.ltb_spec z (2 ^ 64)); [done|lia].
Qed.

(** The test of the cap: [mrAdjust > maxRadius/2], the constant being
    [2^63] as a float64. *)
Lemma gtb_half_val f z :
  is_val f z → F64.gtb f (F64.of_Z (maxRadius / 2)) = (2 ^ 63 <? z).
Proof.
  change (F64.of_Z (maxRadius / 2)) with (S754_finite false 4503599627370496 11).
  unfold F64.gtb, SFltb, SFcompare.
  destruct f as [s|s| |s m e]; cbn [is_val]; try done.
  - intros [-> ->]. done.
  - intros (-> & Hd & He & Hm). pose proof (digits_53 m Hd) as [Hm1 Hm2].
    assert (0 < 2 ^ 52) by done.
    destruct (Z.compare_spec 11 e) as [<-|Hlt|Hgt].
    + assert (z = Zpos m * 2 ^ 11) as ->.
      { replace (11 + 52) with (52 + 11) in Hm by lia.
        rewrite (Z.pow_add_r 2 52 11) in Hm by lia. lia. }
      rewrite Pos.compare_cont_spec. unfold Pos.switch_Eq.
      destruct (Z.ltb_spec (2 ^ 63) (Zpos m * 2 ^ 11)) as [Hbig|Hsmall].
      * assert ((4503599627370496 < m)%positive) as Hlt%Pos.compare_lt_iff by lia.
        by rewrite Hlt.
      * assert (m = 4503599627370496%positive) as -> by lia.
        by rewrite Pos.compare_refl.
    + symmetry. apply Z.ltb_lt.
      assert (2 ^ (12 + 52) <= 2 ^ (e + 52)) as Hp by (apply Z.pow_le_mono_r; lia).
      assert (2 ^ 12 * 2 ^ 52 <= 2 ^ (e + 52)) as Hp' by exact Hp.
      assert (2 ^ 52 * (2 ^ 12 * 2 ^ 52) <= z * 2 ^ 52); [|lia].
      rewrite <- Hm. apply Z.mul_le_mono_nonneg; lia.
    + symmetry. apply Z.ltb_ge.
      assert (2 ^ (e + 52) <= 2 ^ (10 + 52)) as Hp by (apply Z.pow_le_mono_r; lia).
      assert (0 < 2 ^ (e + 52)) by (apply Z.pow_pos_nonneg; lia).
      assert (z * 2 ^ 52 <= 2 ^ 53 * 2 ^ (10 + 52)); [|lia].
      rewrite <- Hm. apply Z.mul_le_mono_nonneg; lia.
Qed.

Lemma representable_small z : 0 <= z <= 2 ^ 53 → representable z.
Proof.
  intros Hz. destruct z as [|p|p]; [by exists (S754_zero false)| |lia].
  destruct (Z.eq_dec (Zpos p) (2 ^ 53)) as [Heq|Hne].
  { exists (S754_finite false (2 ^ 52) 1). cbn [is_val]. rewrite Heq. by repeat split. }
  pose proof (digits_bounds p) as [Hlo Hhi]. pose proof (digits_pos p) as Hd1.
  assert (digits p <= 53) as Hd.
  { assert (digits p - 1 < 53); [|lia]. apply (Z.pow_lt_mono_r_iff 2); lia. }
  assert (0 < 2 ^ (53 - digits p)) by (apply Z.pow_pos_nonneg; lia).
  set (m := Z.to_pos (Zpos p * 2 ^ (53 - digits p))).
  assert (Zpos m = Zpos p * 2 ^ (53 - digits p)) as Hm by (unfold m; rewrite Z2Pos.id; lia).
  exists (S754_finite false m (digits p - 53)). cbn [is_val]. split; [done|].
  split; [rewrite (digits_shift p m (53 - digits p)); lia|]. split; [lia|].
  rewrite Hm, <- Z.mul_assoc, <- Z.pow_add_r by lia. do 2 f_equal. lia.
Qed.

Lemma representable_shift z k :
  representable z → 0 <= k → z * 2 ^ k < 2 ^ 128 → representable (z * 2 ^ k).
Proof.
  intros [f Hf] Hk Hlt. destruct f as [s|s| |s m e]; cbn [is_val] in Hf; try done.
  - destruct Hf as [-> ->]. by exists (S754_zero false).
  - destruct Hf as (-> & Hd & He & Hm). pose proof (digits_53 m Hd) as [Hm1 _].
    exists (S754_finite false m (e + k)). cbn [is_val]. split; [done|]. split; [done|].
    assert (Zpos m * 2 ^ (e + k + 52) = z * 2 ^ k * 2 ^ 52) as Hv.
    { replace (e + k + 52) with (e + 52 + k) by lia. rewrite Z.pow_add_r, Z.mul_assoc, Hm by lia.
      ring. }
    split; [|done]. split; [lia|].
    assert (e + k + 52 < 128); [|lia]. apply (Z.pow_lt_mono_r_iff 2); [lia|lia|].
    assert (0 < 2 ^ (e + k + 52)) by (apply Z.pow_pos_nonneg; lia).
    change (2 ^ 128) with (2 ^ 76 * 2 ^ 52) in *. nia.
Qed.

(** A distance of at least [2^59] converts to a normal number of
    exponent 7 to 12. *)
Lemma of_Z_big d :
  2 ^ 59 <= d < 2 ^ 64 →
  ∃ m e, F64.of_Z d = S754_finite false m e ∧ digits m = 53 ∧ 7 <= e <= 12.
Proof.
  intros Hd. destruct d as [|p|p]; [lia| |lia].
  pose proof (digits_bounds p) as [Hlo Hhi]. pose proof (digits_pos p) as Hd1.
  assert (60 <= digits p <= 64) as Hdp.
  { split.
    - assert (59 < digits p); [|lia]. apply (Z.pow_lt_mono_r_iff 2); lia.
    - assert (digits p - 1 < 64); [|lia]. apply (Z.pow_lt_mono_r_iff 2); lia. }
  unfold F64.of_Z, F64.prec, F64.emax, binary_normalize, binary_round, shl_align.
  rewrite fexp_eq. fold (digits p).
  assert (fexp64 (digits p + 0) - 0 = digits p - 53) as Hn by (unfold fexp64; lia).
  pose proof (binary_round_aux_spec false p 0) as Hspec. cbv zeta in Hspec.
  rewrite Hn in *. destruct (digits p - 53) as [|k|k] eqn:Hk; [lia| |lia]. cbv iota beta.
  destruct Hspec as (m2 & Hm2 & Hm2' & _ & ->); [lia|]. rewrite Z.add_0_l.
  assert (0 < 2 ^ Zpos k) by (apply Z.pow_pos_nonneg; lia).
  assert (2 ^ 52 <= Zpos p / 2 ^ Zpos k) as Hq.
  { apply Z.div_le_lower_bound; [lia|]. rewrite <- Z.pow_add_r by lia.
    replace (Zpos k + 52) with (digits p - 1) by lia. lia. }
  unfold finish. destruct (Z.ltb_spec m2 (2 ^ 53)) as [Hsmall|Hbig].
  - destruct m2 as [|q|q]; [lia| |lia].
    destruct (Z.leb_spec (Zpos k) 971); [|lia].
    exists q, (Zpos k). split; [done|]. split; [apply digits_unique; lia|lia].
  - destruct (Z.leb_spec (Zpos k + 1) 971); [|lia].
    exists (2 ^ 52)%positive, (Zpos k + 1). split; [done|]. split; [done|lia].
Qed.
End Conversions.

(** ** The estimator of the minimum radius *)

(** The sample [mrAdjust] that [adjustMinRadius] computes for the
    prefix distance [dist]: [float64(dist) * 16], replaced by the
    constant [maxRadius / 2] (as a float64: [2^63]) when it is above
    that. *)
Definition sampleOf (dist : Z) : spec_float :=
  let mrAdjust := F64.mul (F64.of_Z dist) (F64.of_Z 16) in
  if F64.gtb mrAdjust (F64.of_Z (maxRadius / 2)) then F64.of_Z (maxRadius / 2)
  else mrAdjust.

Section MinRadius.
Context `{GoEnv}.
Import Round.

(** What one call does, in the words of the code. *)
Lemma adjustMinRadius_call target found s :
  let d := Z.lxor (idPrefix target) (idPrefix found) in
  let s' := adjustMinRadius target found s in
  s_minRadCnt s' =
    (if s_minRadCnt s <? minRadAverage then u64 (s_minRadCnt s + 1) else s_minRadCnt s) ∧
  s_minRadSum s' =
    F64.add (if s_minRadCnt s <? minRadAverage then s_minRadSum s
             else F64.sub (s_minRadSum s)
                    (F64.div (s_minRadSum s) (F64.of_Z minRadAverage)))
            (sampleOf d) ∧
  s_minRadius s' = F64.to_uint64 (F64.div (s_minRadSum s') (F64.of_Z (s_minRadCnt s'))) ∧
  s_topics s' = s_topics s ∧ s_nodes s' = s_nodes s ∧
  s_lastGroupFetched s' = s_lastGroupFetched s.
Proof. unfold adjustMinRadius, sampleOf. by destruct (_ <? _). Qed.

Lemma sampleOf_exact d :
  representable d → 0 <= d → 16 * d <= 2 ^ 63 → is_val (sampleOf d) (16 * d).
Proof.
  intros [fd Hfd] Hd0 Hd.
  destruct (representable_small 16 ltac:(lia)) as [f16 Hf16].
  destruct (representable_shift d 4 (ex_intro _ fd Hfd) ltac:(lia) ltac:(lia)) as [f Hf].
  change (2 ^ 4) with 16 in Hf.
  unfold sampleOf. cbv zeta.
  rewrite (of_Z_val _ _ Hfd), (of_Z_val _ _ Hf16), (mul_val _ _ _ _ _ Hfd Hf16 Hf).
  rewrite (gtb_half_val _ _ Hf).
  destruct (Z.ltb_spec (2 ^ 63) (d * 16)); [lia|]. by rewrite Z.mul_comm.
Qed.

Lemma sampleOf_capped d :
  2 ^ 59 <= d < 2 ^ 64 → sampleOf d = S754_finite false (2 ^ 52) 11.
Proof.
  intros Hd. destruct (of_Z_big d Hd) as (m & e & Hof & Hdm & He).
  pose proof (digits_53 m Hdm) as [Hm1 Hm2].
  unfold sampleOf. cbv zeta. rewrite Hof.
  change (F64.of_Z 16) with (S754_finite false (2 ^ 52) (-48)).
  assert (F64.mul (S754_finite false m e) (S754_finite false (2 ^ 52) (-48))
          = S754_finite false m (e + 4)) as ->.
  { unfold F64.mul, F64.prec, F64.emax, SFmul. cbn [xorb].
    apply round_aux_val; [done|lia|lia|].
    rewrite Pos2Z.inj_mul. replace (e + 4 - (e + -48)) with 52 by lia. done. }
  change (F64.of_Z (maxRadius / 2)) with (S754_finite false (2 ^ 52) 11).
  unfold F64.gtb, SFltb, SFcompare.
  destruct (Z.compare_spec 11 (e + 4)) as [Heq|Hlt|Hgt]; [|done|lia].
  rewrite Pos.compare_cont_spec. unfold Pos.switch_Eq.
  destruct (Pos.compare_spec (2 ^ 52) m) as [<-|Hc|Hc]; [|done|].
  - by rewrite <- Heq.
  - assert (Zpos m < 2 ^ 52) by exact Hc. lia.
Qed.

Lemma is_val_two63 : is_val (S754_finite false (2 ^ 52) 11) (2 ^ 63).
Proof. by repeat split. Qed.

(** One call at a distance whose sample is the float64 of the integer
    [v]: the sums stay exact while the multiples of [v] are
    representable. *)
Lemma adjustMinRadius_exact target found s v k :
  is_val (sampleOf (Z.lxor (idPrefix target) (idPrefix found))) v → v < 2 ^ 64 →
  0 <= k <= 1024 → s_minRadCnt s = k → is_val (s_minRadSum s) (v * k) →
  (∀ j, 1 <= j <= Z.min (k + 1) 1024 → representable (v * j)) →
  let s' := adjustMinRadius target found s in
  s_minRadCnt s' = Z.min (k + 1) 1024 ∧
  is_val (s_minRadSum s') (v * Z.min (k + 1) 1024) ∧
  s_minRadius s' = v.
Proof.
  intros HS HS64 Hk Hcnt Hsum Hrep.
  destruct (adjustMinRadius_call target found s) as (Hc & Hs & Hr & _).
  cbv zeta. rewrite Hr, Hs, Hc, Hcnt. change minRadAverage with 1024.
  set (fS := sampleOf _) in *.
  destruct (Z.ltb_spec k 1024) as [Hlt|Hge].
  - assert (u64 (k + 1) = k + 1) as -> by (unfold u64; apply Z.mod_small; lia).
    rewrite Z.min_l by lia.
    destruct (Hrep (k + 1) ltac:(lia)) as [f Hf].
    destruct (representable_small (k + 1) ltac:(lia)) as [fk Hfk].
    assert (F64.add (s_minRadSum s) fS = f) as ->.
    { apply (add_val _ _ _ (v * k) v); [done..|]. by replace (v * k + v) with (v * (k + 1)) by lia. }
    split; [done|]. split; [done|].
    rewrite (of_Z_val _ _ Hfk), (div_val _ _ fS v (k + 1) Hf Hfk ltac:(lia) HS).
    by apply to_uint64_val.
  - assert (k = 1024) as -> by lia. rewrite Z.min_r by lia.
    destruct (Hrep 1023 ltac:(lia)) as [f' Hf'].
    destruct (representable_small 1024 ltac:(lia)) as [fk Hfk].
    rewrite (of_Z_val _ _ Hfk), (div_val _ _ fS v 1024 Hsum Hfk ltac:(lia) HS).
    assert (F64.sub (s_minRadSum s) fS = f') as ->.
    { apply (sub_val _ _ _ (v * 1024) v); [done..|].
      by replace (v * 1024 - v) with (v * 1023) by lia. }
    assert (F64.add f' fS = s_minRadSum s) as ->.
    { apply (add_val _ _ _ (v * 1023) v); [done..|].
      by replace (v * 1023 + v) with (v * 1024) by lia. }
    split; [done|]. split; [done|].
    rewrite (div_val _ _ fS v 1024 Hsum Hfk ltac:(lia) HS). by apply to_uint64_val.
Qed.

Lemma adjustMinRadius_iter target found v (n : nat) :
  is_val (sampleOf (Z.lxor (idPrefix target) (idPrefix found))) v → v < 2 ^ 64 →
  (∀ j, 1 <= j <= Z.min (Z.of_nat n) 1024 → representable (v * j)) →
  let s := Nat.iter n (adjustMinRadius target found) newTicketStore in
  s_minRadCnt s = Z.min (Z.of_nat n) 1024 ∧
  is_val (s_minRadSum s) (v * Z.min (Z.of_nat n) 1024) ∧
  ((1 ≤ n)%nat → s_minRadius s = v).
Proof.
  intros HS HS64. induction n as [|n IH]; intros Hrep.
  - cbn. split; [done|]. split; [split; [done|lia]|lia].
  - rewrite Nat.iter_succ. cbv zeta in IH.
    destruct IH as (Hc & Hs & _); [intros j Hj; apply Hrep; lia|].
    destruct (adjustMinRadius_exact target found _ v (Z.min (Z.of_nat n) 1024)
                HS HS64 ltac:(lia) Hc Hs) as (Hc' & Hs' & Hr').
    { intros j Hj. apply Hrep. lia. }
    replace (Z.min (Z.of_nat (S n)) 1024) with (Z.min (Z.min (Z.of_nat n) 1024 + 1) 1024) by lia.
    split; [exact Hc'|]. split; [exact Hs'|]. intros _. exact Hr'.
Qed.
End MinRadius.

(** C8, amended.  Each call of [adjustMinRadius] computes the sample
    [float64(dist) * 16] in float64, [dist] being the XOR of the
    leading 64-bit prefixes, and caps it at [2^63] (the constant
    [maxRadius / 2] as a float64); while the count is below 1024 the
    count goes up by one and the sample is added to the sum, and at
    1024 the sum first loses the 1024th part of itself; the minimum
    radius is then [uint64(sum / float64(count))].  After [n >= 1]
    calls on a new store, all at the same prefix distance [d], the
    count is [min n 1024], the sum is the float64 of [S * min n 1024]
    and the minimum radius is [S], where [S = min (16 * d) 2^63]:
    provided that [d >= 2^59] (every sample is capped) or that the
    conversion to float64 rounds none of the multiples [d * k], [1 <= k
    <= min n 1024] (all of them are at most [2^53], say). *)
Theorem adjustMinRadius_constant_distance `{GoEnv} target found d (n : nat) :
  Z.lxor (idPrefix target) (idPrefix found) = d →
  (1 ≤ n)%nat →
  (d < 2 ^ 59 → ∀ k, 1 <= k <= Z.min (Z.of_nat n) minRadAverage → representable (d * k)) →
  (∀ s, let s' := adjustMinRadius target found s in
     s_minRadCnt s' =
       (if s_minRadCnt s <? minRadAverage then u64 (s_minRadCnt s + 1) else s_minRadCnt s) ∧
     s_minRadSum s' =
       F64.add (if s_minRadCnt s <? minRadAverage then s_minRadSum s
                else F64.sub (s_minRadSum s)
                       (F64.div (s_minRadSum s) (F64.of_Z minRadAverage)))
               (sampleOf d) ∧
     s_minRadius s' = F64.to_uint64 (F64.div (s_minRadSum s') (F64.of_Z (s_minRadCnt s')))) ∧
  is_val (sampleOf d) (Z.min (16 * d) (2 ^ 63)) ∧
  let s := Nat.iter n (adjustMinRadius target found) newTicketStore in
  s_minRadCnt s = Z.min (Z.of_nat n) minRadAverage ∧
  is_val (s_minRadSum s) (Z.min (16 * d) (2 ^ 63) * Z.min (Z.of_nat n) minRadAverage) ∧
  s_minRadius s = Z.min (16 * d) (2 ^ 63).
Proof.
  intros Hd Hn Hrep. split.
  { intros s. destruct (adjustMinRadius_call target found s) as (Hc & Hs & Hr & _).
    rewrite Hd in Hs. done. }
  assert (0 <= d < 2 ^ 64) as Hrange.
  { rewrite <- Hd. unfold idPrefix, u64.
    pose proof (Z.mod_pos_bound (Z.shiftr target (NodeIDBits - 64)) (2 ^ 64) ltac:(lia)) as H1.
    pose proof (Z.mod_pos_bound (Z.shiftr found (NodeIDBits - 64)) (2 ^ 64) ltac:(lia)) as H2.
    split; [apply Z.lxor_nonneg; lia|].
    destruct (Z.eq_dec (Z.lxor (Z.shiftr target (NodeIDBits - 64) mod 2 ^ 64)
                              (Z.shiftr found (NodeIDBits - 64) mod 2 ^ 64)) 0) as [->|Hne];
      [done|].
    apply Z.log2_lt_pow2; [|].
    - assert (0 <= Z.lxor (Z.shiftr target (NodeIDBits - 64) mod 2 ^ 64)
                       (Z.shiftr found (NodeIDBits - 64) mod 2 ^ 64))
        by (apply Z.lxor_nonneg; lia). lia.
    - eapply Z.le_lt_trans; [apply Z.log2_lxor; lia|].
      apply Z.max_lub_lt.
      + destruct (Z.eq_dec (Z.shiftr target (NodeIDBits - 64) mod 2 ^ 64) 0) as [->|];
          [done|apply Z.log2_lt_pow2; lia].
      + destruct (Z.eq_dec (Z.shiftr found (NodeIDBits - 64) mod 2 ^ 64) 0) as [->|];
          [done|apply Z.log2_lt_pow2; lia]. }
  change minRadAverage with 1024 in *.
  assert (is_val (sampleOf d) (Z.min (16 * d) (2 ^ 63)) ∧
          ∀ j, 1 <= j <= Z.min (Z.of_nat n) 1024 →
               representable (Z.min (16 * d) (2 ^ 63) * j)) as [HS HrepS].
  { destruct (Z.le_gt_cases (2 ^ 59) d) as [Hbig|Hsmall].
    - rewrite Z.min_r by lia. rewrite sampleOf_capped by lia. split; [apply is_val_two63|].
      intros j Hj. rewrite Z.mul_comm.
      apply representable_shift; [apply representable_small; lia|lia|].
      change (2 ^ 128) with (2 ^ 65 * 2 ^ 63). apply Z.mul_lt_mono_pos_r; lia.
    - rewrite Z.min_l by lia. split.
      + apply sampleOf_exact; [|lia|lia].
        rewrite <- (Z.mul_1_r d). apply Hrep; lia.
      + intros j Hj. replace (16 * d * j) with (d * j * 2 ^ 4) by (change (2 ^ 4) with 16; lia).
        apply representable_shift; [by apply Hrep|lia|].
        change (2 ^ 4) with 16. nia. }
  split; [done|]. subst d.
  destruct (adjustMinRadius_iter target found _ n HS ltac:(lia) HrepS) as (Hc & Hs & Hr).
  cbv zeta. split; [exact Hc|]. split; [exact Hs|]. exact (Hr Hn).
Qed.

Lemma adjustMinRadius_constant_distance_witness :
  (∀ s, let s' := @adjustMinRadius example_env (Z.shiftl 5 448) 0 s in
     s_minRadCnt s' =
       (if s_minRadCnt s <? minRadAverage then u64 (s_minRadCnt s + 1) else s_minRadCnt s) ∧
     s_minRadSum s' =
       F64.add (if s_minRadCnt s <? minRadAverage then s_minRadSum s
                else F64.sub (s_minRadSum s)
                       (F64.div (s_minRadSum s) (F64.of_Z minRadAverage)))
               (sampleOf 5) ∧
     s_minRadius s' = @F64.to_uint64 example_env
                        (F64.div (s_minRadSum s') (F64.of_Z (s_minRadCnt s')))) ∧
  is_val (sampleOf 5) (Z.min (16 * 5) (2 ^ 63)) ∧
  let s := Nat.iter 2000 (@adjustMinRadius example_env (Z.shiftl 5 448) 0) newTicketStore in
  s_minRadCnt s = Z.min (Z.of_nat 2000) minRadAverage ∧
  is_val (s_minRadSum s) (Z.min (16 * 5) (2 ^ 63) * Z.min (Z.of_nat 2000) minRadAverage) ∧
  s_minRadius s = Z.min (16 * 5) (2 ^ 63).
Proof.
  apply (@adjustMinRadius_constant_distance example_env (Z.shiftl 5 448) 0 5 2000).
  - vm_compute. reflexivity.
  - lia.
  - intros _ k Hk. apply representable_small. unfold minRadAverage in Hk. lia.
Defined.

(** ** What [fetch] returns *)

Section Fetched.

(** How often [fetch] returned the ticket at [p]. *)
Definition occurrences (p : ptr) (res : list ptr) : Z :=
  Z.of_nat (length (filter (λ q, q = p) res)).

(** The ticket at [p] has a slot that can be used at [localTime]. *)
Definition due (h : list ticket) (localTime : Z) (p : ptr) : Prop :=
  ∃ t i regTime, h !! p = Some t ∧ tk_regTime t !! i = Some regTime ∧ regTime <= localTime.

(** [h'] is [h] after the tickets [new] were handed out at [localTime]:
    each hand-out is of a due ticket and takes one from its reference
    count. *)
Definition fetched (localTime : Z) (h h' : list ticket) (new : list ptr) : Prop :=
  length h' = length h ∧
  (∀ p t, h !! p = Some t →
     h' !! p = Some (set_refCnt (tk_refCnt t - occurrences p new) t)) ∧
  Forall (due h localTime) new.

Lemma set_refCnt_id t : set_refCnt (tk_refCnt t) t = t.
Proof. by destruct t. Qed.

Lemma set_refCnt_twice c c' t : set_refCnt c (set_refCnt c' t) = set_refCnt c t.
Proof. by destruct t. Qed.

Lemma occurrences_app p l1 l2 : occurrences p (l1 ++ l2) = occurrences p l1 + occurrences p l2.
Proof. unfold occurrences. rewrite filter_app, length_app. lia. Qed.

Lemma occurrences_one p q : occurrences p [q] = if decide (q = p) then 1 else 0.
Proof. unfold occurrences. rewrite filter_cons, filter_nil. by destruct (decide (q = p)). Qed.

Lemma fetched_nil localTime h : fetched localTime h h [].
Proof.
  split; [done|]. split; [|done]. intros p t Hp.
  change (occurrences p []) with 0. by rewrite Z.sub_0_r, set_refCnt_id.
Qed.

Lemma fetched_one localTime h q tk i regTime :
  h !! q = Some tk → tk_regTime tk !! i = Some regTime → regTime <= localTime →
  fetched localTime h (<[q := set_refCnt (tk_refCnt tk - 1) tk]> h) [q].
Proof.
  intros Hq Hi Hle. split; [apply length_insert|]. split.
  - intros p t Hp. rewrite occurrences_one. destruct (decide (q = p)) as [<-|Hne].
    + rewrite list_lookup_insert_eq by (by eapply lookup_lt_Some). congruence.
    + rewrite list_lookup_insert_ne by done. by rewrite Z.sub_0_r, set_refCnt_id.
  - apply Forall_singleton. by exists tk, i, regTime.
Qed.

Lemma fetched_app localTime h1 h2 h3 l1 l2 :
  fetched localTime h1 h2 l1 → fetched localTime h2 h3 l2 →
  fetched localTime h1 h3 (l1 ++ l2).
Proof.
  intros (L1 & R1 & D1) (L2 & R2 & D2). split; [congruence|]. split.
  - intros p t Hp. rewrite (R2 _ _ (R1 _ _ Hp)), set_refCnt_twice, occurrences_app.
    do 2 f_equal. destruct t; cbn. lia.
  - apply Forall_app. split; [done|]. eapply Forall_impl; [exact D2|].
    intros p (t2 & i & regTime & Hp2 & Hi & Hle).
    destruct (lookup_lt_is_Some_2 h1 p) as [t1 Hp1].
    { rewrite <- L1. by eapply lookup_lt_Some. }
    exists t1, i, regTime. split; [done|]. split; [|done].
    rewrite (R1 _ _ Hp1) in Hp2. injection Hp2 as <-. by destruct t1.
Qed.

Lemma fetch_scan_fetched localTime fuel : ∀ arr len i res h nodes arr' res' h' nodes',
  fetch_scan fuel localTime arr len i res h nodes = Some (arr', res', h', nodes') →
  ∃ new, res' = res ++ new ∧ fetched localTime h h' new.
Proof.
  induction fuel as [|fuel IH]; intros arr len i res h nodes arr' res' h' nodes' Hs.
  - injection Hs as <- <- <- <-. exists []. rewrite app_nil_r. auto using fetched_nil.
  - rewrite fetch_scan_S in Hs.
    destruct (i <? len)%nat;
      [|injection Hs as <- <- <- <-; exists []; rewrite app_nil_r; auto using fetched_nil].
    destruct (arr !! i) as [t|]; [|discriminate]. cbn [mbind option_bind] in Hs.
    destruct (h !! ref_t t) as [tk|] eqn:Htk; [|discriminate].
    cbn [mbind option_bind] in Hs.
    destruct (tk_regTime tk !! ref_idx t) as [regTime|] eqn:Hreg; [|discriminate].
    cbn [mbind option_bind] in Hs.
    destruct (Z.leb_spec regTime localTime) as [Hle|Hgt].
    + apply IH in Hs as (new & -> & Hf). exists (ref_t t :: new).
      split; [by rewrite <- app_assoc|].
      change (ref_t t :: new) with ([ref_t t] ++ new).
      eapply fetched_app; [|exact Hf]. by eapply fetched_one.
    + by apply IH in Hs.
Qed.

Lemma fetch_group_fetched localTime ltGroup g tts res h nodes tts' res' h' nodes' :
  fetch_group localTime ltGroup g (tts, res, h, nodes) = Some (tts', res', h', nodes') →
  ∃ new, res' = res ++ new ∧ fetched localTime h h' new.
Proof.
  intros Hg. unfold fetch_group in Hg.
  destruct (fetch_scan _ _ _ _ _ _ _ _) as [[[[arr res1] h1] nodes1]|] eqn:Hs;
    [|discriminate].
  cbn [mbind option_bind] in Hg. injection Hg as <- <- <- <-.
  by eapply fetch_scan_fetched.
Qed.

Lemma fetch_groups_fetched localTime ltGroup gs : ∀ tts res h nodes tts' res' h' nodes',
  fetch_groups localTime ltGroup gs (tts, res, h, nodes) = Some (tts', res', h', nodes') →
  ∃ new, res' = res ++ new ∧ fetched localTime h h' new.
Proof.
  induction gs as [|g gs IH]; intros tts res h nodes tts' res' h' nodes' Hg.
  - injection Hg as <- <- <- <-. exists []. rewrite app_nil_r. auto using fetched_nil.
  - cbn [fetch_groups] in Hg.
    destruct (fetch_group _ _ _ _) as [[[[tts1 res1] h1] nodes1]|] eqn:H1; [|discriminate].
    cbn [mbind option_bind] in Hg.
    apply fetch_group_fetched in H1 as (new1 & -> & Hf1).
    apply IH in Hg as (new2 & -> & Hf2). exists (new1 ++ new2).
    split; [by rewrite app_assoc|]. by eapply fetched_app.
Qed.

Lemma fetch_topics_fetched localTime ltGroup order : ∀ res h s res' h' s',
  fetch_topics localTime ltGroup order res (h, s) = Some (res', (h', s')) →
  ∃ new, res' = res ++ new ∧ fetched localTime h h' new.
Proof.
  induction order as [|topic order IH]; intros res h s res' h' s' Hf.
  - injection Hf as <- <- <-. exists []. rewrite app_nil_r. auto using fetched_nil.
  - cbn [fetch_topics] in Hf.
    destruct (s_topics s !! topic) as [tts|]; [|by eapply IH].
    destruct (fetch_groups _ _ _ _) as [[[[tts1 res1] h1] nodes1]|] eqn:Hg;
      [|discriminate].
    cbn [mbind option_bind] in Hf.
    apply fetch_groups_fetched in Hg as (new1 & -> & Hf1).
    apply IH in Hf as (new2 & -> & Hf2). exists (new1 ++ new2).
    split; [by rewrite app_assoc|]. by eapply fetched_app.
Qed.

Lemma fetch_fetched order localTime h s res h' s' :
  fetch order localTime (h, s) = Some (res, (h', s')) → fetched localTime h h' res.
Proof.
  unfold fetch. intros Hf.
  destruct (fetch_topics _ _ _ _ _) as [[res1 [h1 s1]]|] eqn:Ht; [|discriminate].
  cbn [mbind option_bind] in Hf. injection Hf as <- <- <-.
  by apply fetch_topics_fetched in Ht as (new & -> & Hf).
Qed.
End Fetched.

(** [fetch] returns due tickets only: every ticket of the result has a
    slot whose registration time is not after the local time. *)
Theorem fetch_returns_due_tickets order localTime h s res h' s' :
  fetch order localTime (h, s) = Some (res, (h', s')) →
  Forall (due h localTime) res.
Proof. intros Hf. by destruct (fetch_fetched _ _ _ _ _ _ _ Hf) as (_ & _ & Hd). Qed.

Lemma fetch_returns_due_tickets_witness :
  ∃ res h' s',
    fetch ["t"%string] 1500000000000 (example_world.1, example_world.2) = Some (res, (h', s')) ∧
    res = [0%nat] ∧ Forall (due example_world.1 1500000000000) res.
Proof.
  destruct (fetch ["t"%string] 1500000000000 (example_world.1, example_world.2))
    as [[res [h' s']]|] eqn:Hf; [|vm_compute in Hf; discriminate].
  exists res, h', s'. split; [done|]. split.
  - vm_compute in Hf. by injection Hf as <- _ _.
  - exact (fetch_returns_due_tickets _ _ _ _ _ _ _ Hf).
Defined.

(** The reference counts after [fetch]: the heap keeps its tickets, and
    the count of each ticket has gone down by the number of times the
    ticket is in the result; nothing else of a ticket changes. *)
Theorem fetch_refCnt_accounting order localTime h s res h' s' :
  fetch order localTime (h, s) = Some (res, (h', s')) →
  length h' = length h ∧
  ∀ p t, h !! p = Some t →
    h' !! p = Some (set_refCnt (tk_refCnt t - occurrences p res) t).
Proof. intros Hf. by destruct (fetch_fetched _ _ _ _ _ _ _ Hf) as (? & ? & _). Qed.

Lemma fetch_refCnt_accounting_witness :
  ∃ res h' s',
    fetch ["t"%string] 1500000000000 (example_world.1, example_world.2) = Some (res, (h', s')) ∧
    length h' = length example_world.1 ∧
    ∀ p t, example_world.1 !! p = Some t →
      h' !! p = Some (set_refCnt (tk_refCnt t - occurrences p res) t).
Proof.
  destruct (fetch ["t"%string] 1500000000000 (example_world.1, example_world.2))
    as [[res [h' s']]|] eqn:Hf; [|vm_compute in Hf; discriminate].
  exists res, h', s'. split; [done|].
  exact (fetch_refCnt_accounting _ _ _ _ _ _ _ Hf).
Defined.

(** ** What the calls leave alone *)

Section Frames.
Context `{GoEnv}.

(** The fields of the store that only [adjustMinRadius] writes. *)
Definition same_estimator (s s' : ticketStore) : Prop :=
  s_minRadSum s' = s_minRadSum s ∧ s_minRadCnt s' = s_minRadCnt s ∧
  s_minRadius s' = s_minRadius s.

Lemma fetch_topics_frame localTime ltGroup order : ∀ res h s res' h' s',
  fetch_topics localTime ltGroup order res (h, s) = Some (res', (h', s')) →
  s_lastGroupFetched s' = s_lastGroupFetched s ∧ same_estimator s s' ∧
  ∀ t, s_topics s' !! t = None ↔ s_topics s !! t = None.
Proof.
  induction order as [|topic order IH]; intros res h s res' h' s' Hf.
  - injection Hf as <- <- <-. by repeat split.
  - cbn [fetch_topics] in Hf.
    destruct (s_topics s !! topic) as [tts|] eqn:Htts; [|by eapply IH].
    destruct (fetch_groups _ _ _ _) as [[[[r1 res1] h1] nodes1]|] eqn:Hg; [|discriminate].
    cbn [mbind option_bind] in Hf. apply IH in Hf as (Hl & He & Ht).
    split; [done|]. split; [done|]. intros t. rewrite Ht. cbn.
    destruct (decide (topic = t)) as [->|Hne].
    + rewrite lookup_insert_eq, Htts. split; discriminate.
    + by rewrite lookup_insert_ne.
Qed.

Lemma add_slot_frame rnd localTime p i topic h s h' s' t :
  h !! p = Some t →
  add_slot rnd localTime p i topic (h, s) = Some (h', s') →
  length h' = length h ∧ (∀ q, q ≠ p → h' !! q = h !! q) ∧
  (∃ c, h' !! p = Some (set_refCnt c t) ∧ tk_refCnt t <= c <= tk_refCnt t + 1) ∧
  s_nodes s' = s_nodes s ∧ s_lastGroupFetched s' = s_lastGroupFetched s ∧
  same_estimator s s'.
Proof.
  intros Ht (t0 & Ht0 & Hc)%add_slot_cases. assert (t0 = t) as -> by congruence.
  assert (∃ c, h !! p = Some (set_refCnt c t) ∧ tk_refCnt t <= c <= tk_refCnt t + 1) as Hsame.
  { exists (tk_refCnt t). rewrite set_refCnt_id. split; [done|lia]. }
  destruct Hc as [(-> & -> & _)|(tts & tts' & _ & _ & _ & Hc)]; [by repeat split|].
  destruct Hc as [(-> & -> & _)|(regTime & tm & _ & _ & _ & _ & -> & ->)];
    [by repeat split|].
  split; [apply length_insert|]. split; [intros q Hq; by apply list_lookup_insert_ne|].
  split; [|by repeat split].
  exists (tk_refCnt t + 1). split; [|lia].
  apply list_lookup_insert_eq. by eapply lookup_lt_Some.
Qed.

Lemma add_loop_frame rnd localTime p topics : ∀ i h s h' s' t,
  h !! p = Some t →
  add_loop rnd localTime p i topics (h, s) = Some (h', s') →
  length h' = length h ∧ (∀ q, q ≠ p → h' !! q = h !! q) ∧
  (∃ c, h' !! p = Some (set_refCnt c t) ∧
        tk_refCnt t <= c <= tk_refCnt t + Z.of_nat (length topics)) ∧
  s_nodes s' = s_nodes s ∧ s_lastGroupFetched s' = s_lastGroupFetched s ∧
  same_estimator s s'.
Proof.
  induction topics as [|topic topics IH]; intros i h s h' s' t Ht Hl.
  - injection Hl as <- <-. split; [done|]. split; [done|]. split; [|by repeat split].
    exists (tk_refCnt t). rewrite set_refCnt_id. cbn. split; [done|lia].
  - cbn [add_loop] in Hl.
    destruct (add_slot _ _ _ _ _ _) as [[h1 s1]|] eqn:Hs; [|discriminate].
    cbn [mbind option_bind] in Hl.
    destruct (add_slot_frame _ _ _ _ _ _ _ _ _ _ Ht Hs)
      as (L1 & O1 & (c1 & Hc1 & Hb1) & N1 & G1 & E1a & E1b & E1c).
    destruct (IH _ _ _ _ _ _ Hc1 Hl)
      as (L2 & O2 & (c2 & Hc2 & Hb2) & N2 & G2 & E2a & E2b & E2c).
    split; [congruence|]. split; [intros q Hq; rewrite O2, O1; done|]. split.
    + exists c2. rewrite Hc2, set_refCnt_twice. split; [done|].
      destruct t; cbn in *. lia.
    + repeat split; congruence.
Qed.
End Frames.

(** [fetch] records the group of the local time as the last group
    fetched; it leaves the estimator of the minimum radius and the set
    of tracked topics as they are, and of a topic it changes the
    schedule only: radius, filtered radius and convergence flag stay. *)
Theorem fetch_frame order localTime h s res h' s' :
  fetch order localTime (h, s) = Some (res, (h', s')) →
  s_lastGroupFetched s' = localTime / ticketGroupTime ∧
  same_estimator s s' ∧
  (∀ t, s_topics s' !! t = None ↔ s_topics s !! t = None) ∧
  (∀ t r, s_topics s !! t = Some r →
     ∃ r', s_topics s' !! t = Some r' ∧ same_controller r r').
Proof.
  intros Hf. split; [|split; [|split]].
  - unfold fetch in Hf.
    destruct (fetch_topics _ _ _ _ _) as [[res1 [h1 s1]]|]; [|discriminate].
    cbn [mbind option_bind] in Hf. by injection Hf as <- <- <-.
  - unfold fetch in Hf.
    destruct (fetch_topics _ _ _ _ _) as [[res1 [h1 s1]]|] eqn:Ht; [|discriminate].
    cbn [mbind option_bind] in Hf. injection Hf as <- <- <-.
    by apply fetch_topics_frame in Ht as (_ & He & _).
  - unfold fetch in Hf.
    destruct (fetch_topics _ _ _ _ _) as [[res1 [h1 s1]]|] eqn:Ht; [|discriminate].
    cbn [mbind option_bind] in Hf. injection Hf as <- <- <-.
    by apply fetch_topics_frame in Ht as (_ & _ & Hd).
  - intros t r. by eapply fetch_controller.
Qed.

Lemma fetch_frame_witness :
  ∃ res h' s',
    fetch ["t"%string] 1500000000000 (example_world.1, example_world.2) = Some (res, (h', s')) ∧
    s_lastGroupFetched s' = 1500000000000 / ticketGroupTime ∧
    same_estimator example_world.2 s' ∧
    (∀ t, s_topics s' !! t = None ↔ s_topics example_world.2 !! t = None) ∧
    (∀ t r, s_topics example_world.2 !! t = Some r →
       ∃ r', s_topics s' !! t = Some r' ∧ same_controller r r').
Proof.
  destruct (fetch ["t"%string] 1500000000000 (example_world.1, example_world.2))
    as [[res [h' s']]|] eqn:Hf; [|vm_compute in Hf; discriminate].
  exists res, h', s'. split; [done|].
  exact (fetch_frame _ _ _ _ _ _ _ Hf).
Defined.

(** [add] touches one ticket only, the one it is given, and of that
    ticket the reference count only, which it raises by at most the
    number of the ticket's topics.  In the NodeID index it can change
    the entry of the ticket's registrar only; it leaves the estimator of
    the minimum radius alone; and it writes [lastGroupFetched] only when
    that is 0, with the group of the local time. *)
Theorem add_frame `{GoEnv} rnd localTime p h s h' s' t :
  h !! p = Some t →
  add rnd localTime p (h, s) = Some (h', s') →
  length h' = length h ∧ (∀ q, q ≠ p → h' !! q = h !! q) ∧
  (∃ c, h' !! p = Some (set_refCnt c t) ∧
        tk_refCnt t <= c <= tk_refCnt t + Z.of_nat (length (tk_topics t))) ∧
  (∀ id, id ≠ ID (tk_node t) → s_nodes s' !! id = s_nodes s !! id) ∧
  same_estimator s s' ∧
  (s_lastGroupFetched s' = s_lastGroupFetched s ∨
   s_lastGroupFetched s = 0 ∧ s_lastGroupFetched s' = localTime / ticketGroupTime).
Proof.
  intros Ht Ha. unfold add in Ha. rewrite Ht in Ha. cbn [mbind option_bind] in Ha.
  destruct (s_nodes s !! ID (tk_node t)).
  { injection Ha as <- <-. split; [done|]. split; [done|]. split; [|by repeat split; auto].
    exists (tk_refCnt t). rewrite set_refCnt_id. split; [done|lia]. }
  set (s0 := if s_lastGroupFetched s =? 0 then _ else s) in Ha.
  destruct (add_loop _ _ _ _ _ _) as [[h1 s1]|] eqn:Hl; [|discriminate].
  cbn [mbind option_bind] in Ha.
  destruct (add_loop_frame _ _ _ _ _ _ _ _ _ _ Ht Hl)
    as (L & O & (c & Hc & Hb) & N & G & Ea & Eb & Ec).
  rewrite Hc in Ha. cbn [mbind option_bind] in Ha.
  assert (s_nodes s0 = s_nodes s ∧ same_estimator s s0 ∧
          (s_lastGroupFetched s0 = s_lastGroupFetched s ∨
           s_lastGroupFetched s = 0 ∧ s_lastGroupFetched s0 = localTime / ticketGroupTime))
    as (N0 & (E0a & E0b & E0c) & G0).
  { unfold s0. destruct (Z.eqb_spec (s_lastGroupFetched s) 0); by repeat split; auto. }
  assert (h' = h1 ∧ (∀ id, id ≠ ID (tk_node t) → s_nodes s' !! id = s_nodes s1 !! id) ∧
          same_estimator s1 s' ∧ s_lastGroupFetched s' = s_lastGroupFetched s1)
    as (-> & N1 & (E1a & E1b & E1c) & G1).
  { destruct (0 <? _); injection Ha as <- <-; [|by repeat split].
    split; [done|]. split; [|by repeat split].
    intros id Hid. cbn. rewrite lookup_insert_ne; [done|]. by destruct t. }
  split; [done|]. split; [done|]. split; [by exists c|]. split.
  - intros id Hid. rewrite N1 by done. congruence.
  - split; [repeat split; congruence|]. rewrite G1, G. exact G0.
Qed.

Lemma add_frame_witness :
  let w := default init
             (@run example_env
                [OpAddTopic "t" true;
                 OpPongToTicket 600000000000 ["t"%string] (Build_Node 1) (pongPacket [900])]
                init) in
  ∃ t h' s',
    w.1 !! 0%nat = Some t ∧
    @add example_env rnd_one 600000000000 0%nat (w.1, w.2) = Some (h', s') ∧
    length h' = length w.1 ∧ (∀ q, q ≠ 0%nat → h' !! q = w.1 !! q) ∧
    (∃ c, h' !! 0%nat = Some (set_refCnt c t) ∧
          tk_refCnt t <= c <= tk_refCnt t + Z.of_nat (length (tk_topics t))) ∧
    (∀ id, id ≠ ID (tk_node t) → s_nodes s' !! id = s_nodes w.2 !! id) ∧
    same_estimator w.2 s' ∧
    (s_lastGroupFetched s' = s_lastGroupFetched w.2 ∨
     s_lastGroupFetched w.2 = 0 ∧ s_lastGroupFetched s' = 600000000000 / ticketGroupTime).
Proof.
  intros w.
  destruct (w.1 !! 0%nat) as [t|] eqn:Ht; [|vm_compute in Ht; discriminate].
  destruct (@add example_env rnd_one 600000000000 0%nat (w.1, w.2)) as [[h' s']|] eqn:Hadd;
    [|vm_compute in Hadd; discriminate].
  exists t, h', s'. split; [done|]. split; [done|].
  exact (@add_frame example_env rnd_one 600000000000 0%nat w.1 w.2 h' s' t Ht Hadd).
Defined.

(** [addTopic] is idempotent, and a second call with another [register]
    flag changes nothing: a tracked topic keeps its state.  The call
    tracks the topic, and it leaves the other topics and the rest of the
    store alone. *)
Theorem addTopic_idempotent `{GoEnv} t register register' s :
  addTopic t register' (addTopic t register s) = addTopic t register s ∧
  is_Some (s_topics (addTopic t register s) !! t) ∧
  (∀ r, s_topics s !! t = Some r → addTopic t register s = s) ∧
  (∀ t', t' ≠ t → s_topics (addTopic t register s) !! t' = s_topics s !! t') ∧
  s_nodes (addTopic t register s) = s_nodes s ∧
  s_lastGroupFetched (addTopic t register s) = s_lastGroupFetched s ∧
  same_estimator s (addTopic t register s).
Proof.
  unfold addTopic at 2 3 4 5 6 7 8 9.
  destruct (s_topics s !! t) as [r|] eqn:Ht.
  - unfold addTopic. rewrite Ht. by repeat split; eauto.
  - unfold addTopic. cbn. rewrite lookup_insert_eq. split; [done|]. split; [by eexists|].
    split; [done|]. split; [|by repeat split].
    intros t' Hne. by rewrite lookup_insert_ne.
Qed.

(** The target of a lookup is within the radius of its topic: its
    leading eight bytes differ from the topic's hash prefix by an even
    number below the radius, so [isInRadius] accepts every node whose
    identifier begins with these bytes. *)
Theorem nextTarget_within_radius r63 t s target :
  nextTarget r63 t s = Some target →
  ∃ r rnd, s_topics s !! t = Some r ∧
    target = Z.shiftl (Z.lxor (tt_topicHashPrefix r) rnd) 192 ∧
    Z.even rnd = true ∧ 0 <= rnd < tt_radius r ∧
    ∀ tk, idPrefix (ID (tk_node tk)) = Z.shiftr target 192 → isInRadius r tk = true.
Proof.
  unfold nextTarget, tt_nextTarget. intros Hn.
  destruct (s_topics s !! t) as [r|]; [|discriminate]. cbn [mbind option_bind] in Hn.
  destruct (Z.ltb_spec 0 (tt_radius r / 2)) as [Hpos|]; [|discriminate].
  injection Hn as <-. set (n := tt_radius r / 2) in *.
  set (rnd := u64 (r63 mod n * 2)).
  pose proof (Z.mod_pos_bound r63 n Hpos) as Hmod.
  assert (2 * n <= tt_radius r) as Hn2.
  { unfold n. pose proof (Z.mul_div_le (tt_radius r) 2 ltac:(lia)). lia. }
  assert (rnd = 2 * ((r63 mod n) mod 2 ^ 63)) as Hrnd.
  { unfold rnd, u64. rewrite (Z.mul_comm _ 2). change (2 ^ 64) with (2 * 2 ^ 63).
    apply Z.mul_mod_distr_l; lia. }
  assert (0 <= rnd <= r63 mod n * 2) as Hle.
  { unfold rnd, u64. split; [apply Z.mod_pos_bound; lia|]. apply Z.mod_le; lia. }
  exists r, rnd. split; [done|]. split; [done|]. split.
  { rewrite Hrnd, Z.even_mul. done. }
  split; [lia|]. intros tk Htk. unfold isInRadius. rewrite Htk.
  rewrite Z.shiftr_shiftl_l by lia. rewrite Z.sub_diag, Z.shiftl_0_r.
  rewrite (Z.lxor_comm (tt_topicHashPrefix r)), Z.lxor_assoc, Z.lxor_nilpotent, Z.lxor_0_r.
  apply Z.ltb_lt. lia.
Qed.

Lemma nextTarget_within_radius_witness :
  ∃ target r rnd,
    nextTarget 12345 "t" example_world.2 = Some target ∧
    s_topics example_world.2 !! "t"%string = Some r ∧
    target = Z.shiftl (Z.lxor (tt_topicHashPrefix r) rnd) 192 ∧
    Z.even rnd = true ∧ 0 <= rnd < tt_radius r ∧
    ∀ tk, idPrefix (ID (tk_node tk)) = Z.shiftr target 192 → isInRadius r tk = true.
Proof.
  destruct (nextTarget 12345 "t" example_world.2) as [target|] eqn:Hn;
    [|vm_compute in Hn; discriminate].
  destruct (nextTarget_within_radius _ _ _ _ Hn) as (r & rnd & Hr).
  exists target, r, rnd. split; [reflexivity|]. exact Hr.
Defined.

(** The sample count of the estimator saturates at [minRadAverage]:
    after [n] more calls it is [min (count + n) 1024].  The calls leave
    the topics, the NodeID index and [lastGroupFetched] alone. *)
Theorem adjustMinRadius_count_saturates `{GoEnv} target found s (n : nat) :
  0 <= s_minRadCnt s <= minRadAverage →
  let s' := Nat.iter n (adjustMinRadius target found) s in
  s_minRadCnt s' = Z.min (s_minRadCnt s + Z.of_nat n) minRadAverage ∧
  s_topics s' = s_topics s ∧ s_nodes s' = s_nodes s ∧
  s_lastGroupFetched s' = s_lastGroupFetched s.
Proof.
  intros Hc. induction n as [|n IH].
  - cbn. repeat split. lia.
  - rewrite Nat.iter_succ. cbv zeta in IH. destruct IH as (Hn & Ht & Hi & Hg).
    set (s1 := Nat.iter n _ s) in *. cbv zeta.
    assert (s_minRadCnt (adjustMinRadius target found s1)
            = if s_minRadCnt s1 <? minRadAverage then u64 (s_minRadCnt s1 + 1)
              else s_minRadCnt s1) as Hstep.
    { unfold adjustMinRadius. by destruct (_ <? _). }
    assert (s_topics (adjustMinRadius target found s1) = s_topics s1 ∧
            s_nodes (adjustMinRadius target found s1) = s_nodes s1 ∧
            s_lastGroupFetched (adjustMinRadius target found s1) = s_lastGroupFetched s1)
      as (Ht1 & Hi1 & Hg1).
    { unfold adjustMinRadius. by destruct (_ <? _). }
    split; [|repeat split; congruence].
    rewrite Hstep, Hn. change minRadAverage with 1024 in *.
    destruct (Z.ltb_spec (Z.min (s_minRadCnt s + Z.of_nat n) 1024) 1024).
    + unfold u64. rewrite Z.mod_small by lia. lia.
    + lia.
Qed.

Lemma adjustMinRadius_count_saturates_witness :
  let s' := Nat.iter 2000 (@adjustMinRadius example_env (Z.shiftl 5 448) 0) newTicketStore in
  s_minRadCnt s' = Z.min (s_minRadCnt newTicketStore + Z.of_nat 2000) minRadAverage ∧
  s_topics s' = s_topics newTicketStore ∧ s_nodes s' = s_nodes newTicketStore ∧
  s_lastGroupFetched s' = s_lastGroupFetched newTicketStore.
Proof.
  apply (@adjustMinRadius_count_saturates example_env (Z.shiftl 5 448) 0 newTicketStore 2000).
  cbn. unfold minRadAverage. lia.
Defined.

(** After [adjust] the radius lies between the minimum radius it was
    given and [maxRadius], whatever the conversion of an out-of-range
    float gives; topic, hash prefix and schedule are as before. *)
Theorem adjust_radius_between `{GoEnv} h localTime ref minRadius r r' :
  0 <= minRadius <= maxRadius →
  adjust h localTime ref minRadius r = Some r' →
  minRadius <= tt_radius r' <= maxRadius ∧
  tt_topic r' = tt_topic r ∧ tt_topicHashPrefix r' = tt_topicHashPrefix r ∧
  tt_time r' = tt_time r.
Proof.
  intros Hm Ha. unfold adjust in Ha.
  destruct (waitOf h localTime ref) as [wait|]; [|discriminate].
  cbn [mbind option_bind] in Ha. injection Ha as <-.
  split; [|apply adjustWith_frame]. rewrite adjustWith_radius.
  destruct (F64.gtb _ _); [lia|].
  pose proof (to_uint64_range (proposedRadius r wait)). lia.
Qed.

Lemma adjust_radius_between_witness :
  ∃ r r', s_topics example_world.2 !! "t"%string = Some r ∧
    @adjust example_env example_world.1 600000000000 (Build_ticketRef 0 0) 1000 r = Some r' ∧
    1000 <= tt_radius r' <= maxRadius ∧
    tt_topic r' = tt_topic r ∧ tt_topicHashPrefix r' = tt_topicHashPrefix r ∧
    tt_time r' = tt_time r.
Proof.
  destruct (s_topics example_world.2 !! "t"%string) as [r|] eqn:Hr;
    [|vm_compute in Hr; discriminate].
  destruct (@adjust example_env example_world.1 600000000000 (Build_ticketRef 0 0) 1000 r)
    as [r'|] eqn:Ha.
  - exists r, r'. split; [done|]. split; [done|].
    apply (@adjust_radius_between example_env example_world.1 600000000000
             (Build_ticketRef 0 0) 1000 r r'); [unfold maxRadius; lia|exact Ha].
  - exfalso. unfold adjust in Ha.
    assert (waitOf example_world.1 600000000000 (Build_ticketRef 0 0) = Some 900000000000)
      as Hw by (vm_compute; reflexivity).
    rewrite Hw in Ha. cbn [mbind option_bind] in Ha. inversion Ha.
Defined.

(** ** Wait periods and registration times *)

(** While the clock is far from the end of its range, [pongToTicket]
    adds each wait period to the local time without wrapping, so no
    registration time is before the local time; and [ticketToPong]
    writes the issue time in whole seconds as the expiration and, for
    each slot, the wait period plus the whole seconds of the issue time,
    reduced to 32 bits.  So it gives back the wait periods of the pong
    exactly when the whole seconds of the issue time are a multiple of
    2^32. *)
Theorem ticketToPong_adds_issue_seconds `{GoEnv} localTime topics node p pg t pg0 :
  data p = PongPacket pg →
  0 <= localTime →
  Forall (λ wp, 0 <= wp < 2 ^ 32) (WaitPeriods pg) →
  localTime + 2 ^ 32 * Second <= 2 ^ 63 →
  pongToTicket localTime topics node p = Some t →
  tk_regTime t = (λ wp, localTime + wp * Second) <$> WaitPeriods pg ∧
  Forall (λ regTime, localTime <= regTime) (tk_regTime t) ∧
  Expiration (ticketToPong t pg0) = localTime / Second ∧
  WaitPeriods (ticketToPong t pg0) =
    (λ wp, u32 (wp + localTime / Second)) <$> WaitPeriods pg ∧
  (WaitPeriods pg ≠ [] →
   WaitPeriods (ticketToPong t pg0) = WaitPeriods pg ↔ (localTime / Second) mod 2 ^ 32 = 0).
Proof.
  intros Hd Hlt Hwps Hmax Ht. unfold pongToTicket in Ht. rewrite Hd in Ht.
  injection Ht as <-. cbn [tk_regTime tk_issueTime ticketToPong Expiration WaitPeriods].
  change Second with 1000000000 in *.
  assert (∀ x, 0 <= x < 2 ^ 63 → durationSeconds x = x / 1000000000) as Hdur.
  { intros x Hx. unfold durationSeconds, int64_of_u64.
    destruct (Z.ltb_spec x (2 ^ 63)); [|lia].
    change Second with 1000000000. apply Z.quot_div_nonneg; lia. }
  assert (∀ wp, 0 <= wp < 2 ^ 32 →
            u64 (localTime + u64 (u64 wp * 1000000000)) = localTime + wp * 1000000000) as Hreg.
  { intros wp Hwp. unfold u64. rewrite (Z.mod_small wp) by lia.
    rewrite (Z.mod_small (wp * 1000000000)) by lia. apply Z.mod_small. lia. }
  assert ((λ regTime, u32 (durationSeconds regTime)) <$>
            ((λ wp, u64 (localTime + u64 (u64 wp * 1000000000))) <$> WaitPeriods pg)
          = (λ wp, u32 (wp + localTime / 1000000000)) <$> WaitPeriods pg) as Hwp.
  { induction Hwps as [|wp wps Hwp _ IH]; [done|]. cbn [fmap list_fmap].
    f_equal; [|exact IH]. rewrite Hreg by done. rewrite Hdur by lia.
    f_equal. rewrite Z.div_add by lia. lia. }
  split; [|split; [|split; [|split]]].
  - clear Hwp. induction Hwps as [|wp wps Hwp' _ IH]; [done|]. cbn [fmap list_fmap].
    rewrite Hreg by done. f_equal. exact IH.
  - clear Hwp. induction Hwps as [|wp wps Hwp' _ IH]; [done|]. cbn [fmap list_fmap].
    constructor; [|exact IH]. rewrite Hreg by done. lia.
  - rewrite Hdur by lia. unfold u64. apply Z.mod_small.
    split; [apply Z.div_pos; lia|]. apply Z.div_lt_upper_bound; lia.
  - exact Hwp.
  - intros Hne. rewrite Hwp. set (k := localTime / 1000000000).
    assert (0 <= k) by (apply Z.div_pos; lia). split.
    + intros Heq. destruct Hwps as [|wp wps Hwp' _]; [done|].
      cbn [fmap list_fmap] in Heq. injection Heq as Heq _. unfold u32 in Heq.
      pose proof (Z.div_mod (wp + k) (2 ^ 32) ltac:(lia)) as Hdm. rewrite Heq in Hdm.
      assert (k = (wp + k) / 2 ^ 32 * 2 ^ 32) as -> by lia.
      apply Z.mod_mul. lia.
    + intros Hk. clear Hwp Hne. induction Hwps as [|wp wps Hwp' _ IH]; [done|].
      cbn [fmap list_fmap]. f_equal; [|exact IH].
      unfold u32. rewrite Z.add_mod, Hk, Z.add_0_r, Z.mod_mod by lia.
      apply Z.mod_small. lia.
Qed.

Lemma ticketToPong_adds_issue_seconds_witness :
  ∃ t, pongToTicket 5000000000 ["t"%string] (Build_Node 1) (pongPacket [3]) = Some t ∧
    tk_regTime t = (λ wp, 5000000000 + wp * Second) <$> [3] ∧
    Forall (λ regTime, 5000000000 <= regTime) (tk_regTime t) ∧
    Expiration (@ticketToPong example_env t (Build_pong 0 0 0 [])) = 5000000000 / Second ∧
    WaitPeriods (@ticketToPong example_env t (Build_pong 0 0 0 [])) =
      (λ wp, u32 (wp + 5000000000 / Second)) <$> [3] ∧
    ([3] ≠ [] →
     WaitPeriods (@ticketToPong example_env t (Build_pong 0 0 0 [])) = [3] ↔
     (5000000000 / Second) mod 2 ^ 32 = 0).
Proof.
  eexists. split; [reflexivity|].
  apply (@ticketToPong_adds_issue_seconds example_env 5000000000 ["t"%string] (Build_Node 1)
           (pongPacket [3]) (Build_pong 0 0 0 [3])).
  - reflexivity.
  - lia.
  - repeat constructor; lia.
  - unfold Second. lia.
  - reflexivity.
Defined.

(** ** Slots that can be used soon *)

Section Near.
Import Round.

Lemma capped_variate m e :
  bounded 53 1024 m e = true →
  ∃ m' e', (if F64.gtb (S754_finite false m e) F64.ten then F64.ten
            else S754_finite false m e) = S754_finite false m' e' ∧
           Zpos m' < 2 ^ 53 ∧ fle m' e' 5629499534213120 (-49).
Proof.
  intros Hb. pose proof (digits_le_53 m e Hb) as Hm.
  destruct (F64.gtb _ F64.ten) eqn:Hgt.
  - eexists _, _. split; [reflexivity|]. split; [done|]. right. split; lia.
  - exists m, e. split; [done|]. split; [done|].
    unfold F64.gtb, F64.ten, SFltb, SFcompare in Hgt. unfold fle.
    destruct (Z.compare_spec (-49) e) as [<-|Hlt|Hgt']; [|done|lia].
    right. split; [done|].
    apply compare_cont_Eq_le. by destruct (Pos.compare_cont _ _ _).
Qed.

Lemma add_above (mx : positive) ex y (mb : positive) eb :
  below y mb eb → digits mx = 53 → -1074 <= ex →
  above (SFadd 53 1024 (S754_finite false mx ex) y) mx ex.
Proof.
  intros Hy Hdx Hex. pose proof (digits_53 mx Hdx) as [_ Hhi].
  destruct y as [sy|sy| |sy my ey]; cbn [below SFadd] in *; try done.
  { cbn [above]. split; [done|]. split; [done|]. right. split; lia. }
  destruct Hy as (-> & Hmy & _). cbn [cond_Zopp].
  change (Zpos (fst (shl_align mx ex (Z.min ex ey))) + Zpos (fst (shl_align my ey (Z.min ex ey))))
    with (Zpos (fst (shl_align mx ex (Z.min ex ey)) + fst (shl_align my ey (Z.min ex ey)))).
  cbn [binary_normalize].
  apply (binary_round_ge false); [done..|].
  rewrite Pos2Z.inj_add, !shl_align_fst by lia.
  apply (vle_scale_2 (Z.min ex ey)); [lia..|].
  rewrite Z.sub_diag, Z.pow_0_r, Z.mul_1_r.
  assert (0 <= Zpos my * 2 ^ (ey - Z.min ex ey)); [|lia].
  apply Z.mul_nonneg_nonneg; [lia|apply Z.pow_nonneg; lia].
Qed.

Lemma keepThreshold_above m e :
  bounded 53 1024 m e = true →
  above (keepThreshold (S754_finite false m e)) 4915200000000000 (-12).
Proof.
  intros Hb. unfold keepThreshold.
  destruct (capped_variate m e Hb) as (m' & e' & -> & Hm' & Hle).
  change (F64.of_Z keepTicketConst) with (S754_finite false 4915200000000000 (-12)).
  change (F64.of_Z keepTicketExp) with (S754_finite false 4915200000000000 (-12)).
  unfold F64.add, F64.mul, F64.prec, F64.emax.
  apply (add_above _ _ _ 6144000000000000 (-9)); [|done|lia].
  apply (mul_below _ _ _ _ 5629499534213120 (-49)); [lia| |lia|reflexivity|done|lia].
  apply fle_vle; [done|lia|done].
Qed.

Lemma of_Z_below w (mc : positive) ec :
  0 <= w → digits mc = 53 → -1074 <= ec <= 0 → w * 2 ^ (- ec) <= Zpos mc →
  below (F64.of_Z w) mc ec.
Proof.
  intros Hw Hd Hec Hle. unfold F64.of_Z, binary_normalize.
  destruct w as [|p|p]; [done| |lia].
  apply (binary_round_le false); [done|lia|].
  apply (vle_scale_2 ec); [lia..|]. rewrite Z.sub_diag, Z.pow_0_r, Z.sub_0_l. lia.
Qed.

Lemma ltb_below_above x y mc ec mc' ec' :
  below x mc ec → above y mc' ec' →
  ec < ec' ∨ (ec = ec' ∧ Zpos mc < Zpos mc') → SFltb x y = true.
Proof.
  unfold SFltb, SFcompare.
  destruct x as [sx|sx| |sx mx ex], y as [sy|sy| |sy my ey];
    cbn [above below]; intros Hx Hy Hc; try done;
    repeat match goal with H : _ ∧ _ |- _ => destruct H end; subst; try done.
  unfold fle in *.
  destruct (Z.compare_spec ex ey) as [->|Hlt|Hgt]; [|done|lia].
  rewrite Pos.compare_cont_spec. unfold Pos.switch_Eq.
  destruct (Pos.compare_spec mx my); [lia|done|lia].
Qed.

(** A wait below [keepTicketConst] is below the threshold, whatever
    positive number [rand.ExpFloat64] draws. *)
Lemma near_wait_kept rnd wait :
  positive_finite rnd = true → 0 <= wait < keepTicketConst →
  F64.ltb (F64.of_Z wait) (keepThreshold rnd) = true.
Proof.
  intros Hrnd Hw. destruct rnd as [| | |[] m e]; try discriminate.
  unfold F64.ltb.
  apply (ltb_below_above _ _ 4915199999995904 (-12) 4915200000000000 (-12)).
  - apply of_Z_below; [lia|done|lia|].
    change keepTicketConst with 1200000000000 in Hw. change (2 ^ (- -12)) with 4096. lia.
  - by apply keepThreshold_above.
  - right. split; lia.
Qed.
End Near.

(** A converged topic under registration keeps every slot that can be
    used within [keepTicketConst] (20 minutes): if the node is in
    radius, the loop body of [add] puts the reference in the bucket of
    the slot's registration time and raises the reference count of the
    ticket by one, whatever the variate. *)
Theorem near_slot_is_scheduled `{GoEnv} rnd localTime p i topic h s t r tm regTime :
  positive_finite rnd = true →
  h !! p = Some t → s_topics s !! topic = Some r →
  isInRadius r t = true → tt_converged r = true → tt_time r = Some tm →
  tk_regTime t !! i = Some regTime →
  localTime <= regTime < localTime + keepTicketConst →
  ∃ h' s', add_slot rnd localTime p i topic (h, s) = Some (h', s') ∧
    h' !! p = Some (set_refCnt (tk_refCnt t + 1) t) ∧
    scheduled s' topic (regTime / ticketGroupTime) (Build_ticketRef p i).
Proof.
  intros Hrnd Ht Hr Hin Hconv Htm Hreg Hw.
  assert (u64 (regTime - localTime) = regTime - localTime) as Hwait.
  { unfold u64. apply Z.mod_small. change keepTicketConst with 1200000000000 in Hw. lia. }
  assert (adjust h localTime (Build_ticketRef p i) (s_minRadius s) r
          = Some (adjustWith (regTime - localTime) (s_minRadius s) r)) as Hadj.
  { unfold adjust, waitOf. cbn [ref_t ref_idx]. rewrite Ht. cbn [mbind option_bind].
    rewrite Hreg. cbn [mbind option_bind]. by rewrite Hwait. }
  set (r' := adjustWith (regTime - localTime) (s_minRadius s) r) in *.
  assert (tt_converged r' = true) as Hconv' by (by apply adjustWith_keeps_converged).
  assert (tt_time r' = Some tm) as Htm'.
  { unfold r'. destruct (adjustWith_frame (regTime - localTime) (s_minRadius s) r)
      as (_ & _ & ->). done. }
  unfold add_slot. rewrite Ht. cbn [mbind option_bind]. rewrite Hr, Hin, Hadj.
  cbn [mbind option_bind]. rewrite Hconv', Hreg. cbn [mbind option_bind].
  rewrite Htm', Hwait, near_wait_kept by (done || lia).
  eexists _, _. split; [reflexivity|]. split.
  - apply list_lookup_insert_eq. by eapply lookup_lt_Some.
  - eexists. split; [cbn; apply lookup_insert_eq|].
    unfold bucket. cbn. rewrite lookup_insert_eq. cbn.
    apply elem_of_app. right. by apply list_elem_of_singleton.
Qed.

Lemma near_slot_is_scheduled_witness :
  ∃ t h' s',
    example_world.1 !! 0%nat = Some t ∧
    @add_slot example_env F64.one 1400000000000 0%nat 0%nat "t"
      (example_world.1, example_world.2) = Some (h', s') ∧
    h' !! 0%nat = Some (set_refCnt (tk_refCnt t + 1) t) ∧
    scheduled s' "t" (1500000000000 / ticketGroupTime) (Build_ticketRef 0 0).
Proof.
  destruct (example_world.1 !! 0%nat) as [t|] eqn:Ht; [|vm_compute in Ht; discriminate].
  destruct (s_topics example_world.2 !! "t"%string) as [r|] eqn:Hr;
    [|vm_compute in Hr; discriminate].
  destruct (tt_time r) as [tm|] eqn:Htm;
    [|vm_compute in Hr; injection Hr as <-; discriminate].
  destruct (@near_slot_is_scheduled example_env F64.one 1400000000000 0%nat 0%nat "t"%string
              example_world.1 example_world.2 t r tm 1500000000000)
    as (h' & s' & Hs & Hp & Hsch).
  - reflexivity.
  - exact Ht.
  - exact Hr.
  - vm_compute in Ht, Hr. injection Ht as <-. injection Hr as <-. vm_compute. reflexivity.
  - vm_compute in Hr. injection Hr as <-. reflexivity.
  - exact Htm.
  - vm_compute in Ht. injection Ht as <-. reflexivity.
  - unfold keepTicketConst, Minute, Second. lia.
  - exists t, h', s'. split; [reflexivity|]. split; [exact Hs|]. split; [exact Hp|exact Hsch].
Defined.

(** ** The inner loop of [fetch] *)

(** The variables of the loop: the backing array, the length of the
    local slice [list], the index [i], the result, the heap and the
    NodeID index. *)
Abbreviation loop_state :=
  (list ticketRef * nat * nat * list ptr * list ticket * gmap NodeID ptr)%type
  (only parsing).

(** The condition of the loop: [i < len(list)]. *)
Definition scan_cond (st : loop_state) : bool :=
  let '(arr, len, i, res, h, nodes) := st in (i <? len)%nat.

(** What is left to scan: [len(list) - i]. *)
Definition scan_measure (st : loop_state) : nat :=
  let '(arr, len, i, res, h, nodes) := st in (len - i)%nat.

(** One pass through the body of the loop. *)
Definition scan_body (localTime : Z) (st : loop_state) : option loop_state :=
  let '(arr, len, i, res, h, nodes) := st in
  t ← arr !! i;
  tk ← h !! ref_t t;
  regTime ← tk_regTime tk !! ref_idx t;
  if regTime <=? localTime then
    let arr := take i arr ++ drop (S i) (take len arr) ++ drop (len - 1) arr in
    let tk := set_refCnt (tk_refCnt tk - 1) tk in
    let h := <[ref_t t := tk]> h in
    let nodes :=
      if tk_refCnt tk =? 0 then delete (ID (tk_node tk)) nodes else nodes in
    Some (arr, (len - 1)%nat, i, res ++ [ref_t t], h, nodes)
  else Some (arr, len, S i, res, h, nodes).

(** At most [fuel] passes, stopping when the condition is false. *)
Fixpoint scan_loop (fuel : nat) (localTime : Z) (st : loop_state) : option loop_state :=
  match fuel with
  | O => Some st
  | S fuel =>
      if scan_cond st then st ← scan_body localTime st; scan_loop fuel localTime st
      else Some st
  end.

Definition scan_result (st : loop_state)
    : list ticketRef * list ptr * list ticket * gmap NodeID ptr :=
  let '(arr, len, i, res, h, nodes) := st in (arr, res, h, nodes).

Section Loop.

Lemma scan_body_measure localTime st st' :
  scan_cond st = true → scan_body localTime st = Some st' →
  S (scan_measure st') = scan_measure st.
Proof.
  destruct st as [[[[[arr len] i] res] h] nodes]. cbn [scan_cond scan_measure scan_body].
  intros Hc%Nat.ltb_lt Hb.
  destruct (arr !! i) as [t|]; [|discriminate]. cbn [mbind option_bind] in Hb.
  destruct (h !! ref_t t) as [tk|]; [|discriminate]. cbn [mbind option_bind] in Hb.
  destruct (tk_regTime tk !! ref_idx t) as [regTime|]; [|discriminate].
  cbn [mbind option_bind] in Hb.
  destruct (regTime <=? localTime); injection Hb as <-; cbn [scan_measure]; lia.
Qed.

Lemma scan_loop_exits localTime fuel : ∀ st st',
  (scan_measure st ≤ fuel)%nat →
  scan_loop fuel localTime st = Some st' → scan_cond st' = false.
Proof.
  induction fuel as [|fuel IH]; intros st st' Hm Hl.
  - injection Hl as <-. destruct st as [[[[[arr len] i] res] h] nodes].
    cbn [scan_measure scan_cond] in *. apply Nat.ltb_ge. lia.
  - cbn [scan_loop] in Hl. destruct (scan_cond st) eqn:Hc; [|by injection Hl as <-].
    destruct (scan_body localTime st) as [st1|] eqn:Hb; [|discriminate].
    cbn [mbind option_bind] in Hl. apply (IH st1); [|done].
    pose proof (scan_body_measure _ _ _ Hc Hb). lia.
Qed.

Lemma fetch_scan_loop localTime fuel : ∀ arr len i res h nodes,
  fetch_scan fuel localTime arr len i res h nodes =
  scan_result <$> scan_loop fuel localTime (arr, len, i, res, h, nodes).
Proof.
  induction fuel as [|fuel IH]; intros arr len i res h nodes; [done|].
  rewrite fetch_scan_S. cbn [scan_loop scan_cond scan_body].
  destruct (i <? len)%nat; [|done].
  destruct (arr !! i) as [t|]; [|done]. cbn [mbind option_bind].
  destruct (h !! ref_t t) as [tk|]; [|done]. cbn [mbind option_bind].
  destruct (tk_regTime tk !! ref_idx t) as [regTime|]; [|done]. cbn [mbind option_bind].
  destruct (regTime <=? localTime); apply IH.
Qed.
End Loop.

(** The inner loop of [fetch] ends.  Each pass through its body takes
    exactly one from [len(list) - i]; so after at most that many passes
    the loop has stopped with its condition [i < len(list)] false, and
    [fetch], which runs the scan for [len(list)] passes from [i = 0],
    gets the state in which the loop has ended. *)
Theorem fetch_scan_ends localTime arr len i res h nodes :
  (∀ st st', scan_cond st = true → scan_body localTime st = Some st' →
             S (scan_measure st') = scan_measure st) ∧
  (∀ fuel st', (len - i ≤ fuel)%nat →
     scan_loop fuel localTime (arr, len, i, res, h, nodes) = Some st' →
     scan_cond st' = false) ∧
  (∀ fuel, fetch_scan fuel localTime arr len i res h nodes =
           scan_result <$> scan_loop fuel localTime (arr, len, i, res, h, nodes)).
Proof.
  split; [apply scan_body_measure|]. split; [|intros fuel; apply fetch_scan_loop].
  intros fuel st' Hf. by apply scan_loop_exits.
Qed.

(** After [add] of a ticket whose registrar had no ticket in the index,
    [getNodeTicket] of the registrar gives the ticket if the call
    scheduled one of its slots or its count was positive already, and
    nothing otherwise. *)
Theorem add_then_getNodeTicket `{GoEnv} rnd localTime p h s h' s' t :
  h !! p = Some t → s_nodes s !! ID (tk_node t) = None →
  add rnd localTime p (h, s) = Some (h', s') →
  ∃ c, h' !! p = Some (set_refCnt c t) ∧
       getNodeTicket (ID (tk_node t)) s' = if 0 <? c then Some p else None.
Proof.
  intros Ht Hn Ha. unfold add in Ha. rewrite Ht in Ha. cbn [mbind option_bind] in Ha.
  rewrite Hn in Ha.
  set (s0 := if s_lastGroupFetched s =? 0 then _ else s) in Ha.
  assert (s_nodes s0 = s_nodes s) as N0 by (unfold s0; by destruct (_ =? _)).
  destruct (add_loop _ _ _ _ _ _) as [[h1 s1]|] eqn:Hl; [|discriminate].
  cbn [mbind option_bind] in Ha.
  destruct (add_loop_frame _ _ _ _ _ _ _ _ _ _ Ht Hl) as (_ & _ & (c & Hc & _) & N & _).
  rewrite Hc in Ha. cbn [mbind option_bind] in Ha. exists c.
  assert (tk_refCnt (set_refCnt c t) = c ∧ tk_node (set_refCnt c t) = tk_node t)
    as [Hrc Hnd] by (by destruct t).
  rewrite Hrc, Hnd in Ha. unfold getNodeTicket.
  destruct (0 <? c); injection Ha as <- <-; (split; [done|]).
  - cbn. apply lookup_insert_eq.
  - congruence.
Qed.

Lemma add_then_getNodeTicket_witness :
  let w := default init
             (@run example_env
                [OpAddTopic "t" true;
                 OpPongToTicket 600000000000 ["t"%string] (Build_Node 1) (pongPacket [900])]
                init) in
  ∃ t h' s' c,
    w.1 !! 0%nat = Some t ∧
    @add example_env rnd_one 600000000000 0%nat (w.1, w.2) = Some (h', s') ∧
    h' !! 0%nat = Some (set_refCnt c t) ∧
    getNodeTicket (ID (tk_node t)) s' = if 0 <? c then Some 0%nat else None.
Proof.
  intros w.
  destruct (w.1 !! 0%nat) as [t|] eqn:Ht; [|vm_compute in Ht; discriminate].
  destruct (@add example_env rnd_one 600000000000 0%nat (w.1, w.2)) as [[h' s']|] eqn:Hadd;
    [|vm_compute in Hadd; discriminate].
  destruct (@add_then_getNodeTicket example_env rnd_one 600000000000 0%nat w.1 w.2 h' s' t)
    as (c & Hc & Hg); [exact Ht| |exact Hadd|].
  - vm_compute in Ht. injection Ht as <-. reflexivity.
  - exists t, h', s', c. split; [reflexivity|]. split; [reflexivity|]. split; [exact Hc|exact Hg].
Defined.

Section Rewind.

Lemma store_eta s :
  set_nodes (s_nodes s) (set_topics (s_topics s) s) = s.
Proof. by destruct s. Qed.

Lemma fetch_topics_nothing localTime ltGroup order : ∀ res h s,
  ltGroup < s_lastGroupFetched s →
  fetch_topics localTime ltGroup order res (h, s) = Some (res, (h, s)).
Proof.
  induction order as [|topic order IH]; intros res h s Hlt; [done|].
  cbn [fetch_topics]. destruct (s_topics s !! topic) as [tts|] eqn:Htts; [|by apply IH].
  rewrite seqZ_nil by lia. cbn [fetch_groups mbind option_bind].
  rewrite insert_id by done. rewrite store_eta. by apply IH.
Qed.
End Rewind.

(** A [fetch] at a local time whose group is before the last group
    fetched scans no bucket: it returns nothing and changes no ticket
    and no topic, but it sets [lastGroupFetched] back to the group of
    that time. *)
Theorem fetch_before_last_group order localTime h s :
  localTime / ticketGroupTime < s_lastGroupFetched s →
  fetch order localTime (h, s) =
    Some ([], (h, set_lastGroupFetched (localTime / ticketGroupTime) s)).
Proof.
  intros Hlt. unfold fetch. by rewrite fetch_topics_nothing.
Qed.

Lemma fetch_before_last_group_witness :
  fetch ["t"%string] 0 (example_world.1, example_world.2) =
    Some ([], (example_world.1, set_lastGroupFetched (0 / ticketGroupTime) example_world.2)).
Proof. apply fetch_before_last_group. vm_compute. reflexivity. Defined.
